(** * Amazon transaction scraper: the detail-extraction pipeline

    A shallow embedding of [src/scraper.ts] and [src/schemas.ts]
    (the list pager, the dedup filter, the worker pool and its
    partitioning, the refund and amount extraction, the screenshot
    cache and the aggregation of totals), followed by the properties
    of the specification that concern them.

    Conventions of the embedding.
    - A JavaScript string is the [string] of the bytes of its UTF-8
      encoding.  The patterns of the scraper name ASCII characters
      only; white space and line ends are those of ECMAScript, in
      their UTF-8 form.
    - A JavaScript number is a [number]: [NaN], or [Num q] for the
      binary64 value nearest to the rational [q].  A decimal text is
      kept as the rational it denotes; sums and differences are
      computed in binary64.
    - The browser (Playwright) and the remote site are not code of the
      repository.  A document is a tree of [node]s; whether an awaited
      browser operation resolves or rejects is an input of the model. *)

From Stdlib Require Import Ascii QArith.
From Stdlib Require SpecFloat.
From stdpp Require Import base list strings gmap pretty.
From Equations Require Import Equations.

(** ** JavaScript values used by the scraper *)

Module JS.

(** *** Numbers *)

Inductive number : Type :=
| NaN
| Num (q : Q).

(** Equality of numbers as values: rationals up to [Qeq]. *)
Definition num_eq (x y : number) : Prop :=
  match x, y with
  | NaN, NaN => True
  | Num p, Num q => (p == q)%Q
  | _, _ => False
  end.

(** [x || d] on numbers: [0] and [NaN] are falsy. *)
Definition num_or (x d : number) : number :=
  match x with
  | NaN => d
  | Num q => if Qeq_bool q 0 then d else x
  end.

(** [x || d] where the property [x] may be missing ([undefined]). *)
Definition opt_num_or (x : option number) (d : number) : number :=
  match x with
  | None => d
  | Some n => num_or n d
  end.

(** *** Binary64 arithmetic

    [to_float q] is the binary64 value nearest to [q], ties to even:
    the quotient is taken with more than 64 bits and a sticky bit, and
    rounded once.  A magnitude too large becomes an infinity, one too
    small a zero. *)
Definition prec64 : Z := 53.
Definition emax64 : Z := 1024.

Definition to_float (x : number) : SpecFloat.spec_float :=
  match x with
  | NaN => SpecFloat.S754_nan
  | Num q =>
      let n := Qnum q in
      let d := Zpos (Qden q) in
      if (n =? 0)%Z then SpecFloat.S754_zero false
      else
        let a := Z.abs n in
        let k := Z.max 0 (64 + Z.log2 d - Z.log2 a) in
        let '(quotient, remainder) := Z.div_eucl (a * 2 ^ k) d in
        let m := (2 * quotient + (if (remainder =? 0)%Z then 0 else 1))%Z in
        SpecFloat.binary_normalize prec64 emax64 (if (n <? 0)%Z then - m else m)%Z (- k - 1) false
  end.

(** The number of a binary64 value.  An infinity is [Num] of
    [2 ^ 1024], which [to_float] reads back as that infinity; the sign
    of a zero is not kept (nothing in the scraper tells [-0] from
    [0]). *)
Definition of_float (f : SpecFloat.spec_float) : number :=
  match f with
  | SpecFloat.S754_nan => NaN
  | SpecFloat.S754_zero _ => Num 0
  | SpecFloat.S754_infinity s => Num (inject_Z (if s then - 2 ^ emax64 else 2 ^ emax64))
  | SpecFloat.S754_finite s m e =>
      let z := if s then Zneg m else Zpos m in
      Num (Qred (if (0 <=? e)%Z then inject_Z (z * 2 ^ e) else z # Z.to_pos (2 ^ (- e))))
  end.

(** [x + y] *)
Definition num_add (x y : number) : number :=
  of_float (SpecFloat.SFadd prec64 emax64 (to_float x) (to_float y)).

(** [x - y] *)
Definition num_sub (x y : number) : number :=
  of_float (SpecFloat.SFsub prec64 emax64 (to_float x) (to_float y)).

(** [x > 0]; a comparison with [NaN] is false. *)
Definition num_gt0 (x : number) : bool :=
  match x with
  | NaN => false
  | Num q => negb (Qle_bool q 0)
  end.

(** *** Strings *)

(** [s || d] on strings: the empty string is falsy. *)
Definition str_or (s d : string) : string :=
  if String.eqb s "" then d else s.

Definition truthy (s : string) : bool := negb (String.eqb s "").

(** [s.includes(sub)], also the test of the CSS operator [*=]. *)
Definition includes (sub s : string) : bool :=
  match String.index 0 sub s with
  | Some _ => true
  | None => false
  end.

(** [s.startsWith(p)] *)
Definition startsWith (p s : string) : bool := String.prefix p s.

(** [s.replace(pat, rep)] with a string pattern: only the first
    occurrence of [pat] is replaced. *)
Definition replace (pat rep s : string) : string :=
  match String.index 0 pat s with
  | Some i =>
      String.substring 0 i s +:+ rep +:+
      String.substring (i + String.length pat) (String.length s - (i + String.length pat)) s
  | None => s
  end.

(** The white space and line ends that [trim] removes, by the bytes
    of their UTF-8 form: U+0009 to U+000D and U+0020 in one byte,
    U+00A0 in two, and in three U+1680, U+2000 to U+200A, U+2028,
    U+2029, U+202F, U+205F, U+3000 and U+FEFF. *)
Definition space1 (c1 : ascii) : bool :=
  let n := nat_of_ascii c1 in
  (n =? 32) || ((9 <=? n) && (n <=? 13)).

Definition space2 (c1 c2 : ascii) : bool :=
  (nat_of_ascii c1 =? 194) && (nat_of_ascii c2 =? 160).

Definition space3 (c1 c2 c3 : ascii) : bool :=
  let n1 := nat_of_ascii c1 in
  let n2 := nat_of_ascii c2 in
  let n3 := nat_of_ascii c3 in
  ((n1 =? 225) && (n2 =? 154) && (n3 =? 128))
  || ((n1 =? 226) && (n2 =? 128)
      && (((128 <=? n3) && (n3 <=? 138)) || (n3 =? 168) || (n3 =? 169) || (n3 =? 175)))
  || ((n1 =? 226) && (n2 =? 129) && (n3 =? 159))
  || ((n1 =? 227) && (n2 =? 128) && (n3 =? 128))
  || ((n1 =? 239) && (n2 =? 187) && (n3 =? 191)).

Fixpoint trimStart (s : string) : string :=
  match s with
  | String c1 s1 =>
      if space1 c1 then trimStart s1
      else
        match s1 with
        | String c2 s2 =>
            if space2 c1 c2 then trimStart s2
            else
              match s2 with
              | String c3 s3 => if space3 c1 c2 c3 then trimStart s3 else s
              | EmptyString => s
              end
        | EmptyString => s
        end
  | EmptyString => EmptyString
  end.

(** The text is cut where only white space follows.  (Inside the
    encoding of a character the rest never reads as white space, which
    starts with a byte that starts a character.) *)
Fixpoint trimEnd (s : string) : string :=
  match s with
  | String c s' =>
      if String.eqb (trimStart s) "" then EmptyString else String c (trimEnd s')
  | EmptyString => EmptyString
  end.

Definition trim (s : string) : string := trimEnd (trimStart s).

(** [s.split(sep)[0]] for a one-character separator. *)
Fixpoint split_head (sep : ascii) (s : string) : string :=
  match s with
  | String c s' => if Ascii.eqb c sep then EmptyString else String c (split_head sep s')
  | EmptyString => EmptyString
  end.

(** [l.join(sep)] *)
Fixpoint join (sep : string) (l : list string) : string :=
  match l with
  | [] => ""
  | [s] => s
  | s :: l' => s +:+ sep +:+ join sep l'
  end.

Definition is_digit (c : ascii) : bool :=
  let n := nat_of_ascii c in (48 <=? n) && (n <=? 57).

Definition digit_val (c : ascii) : Z := (Z.of_nat (nat_of_ascii c) - 48)%Z.

(** *** parseFloat

    The callers pass text captured by the amount patterns, made of
    digits, commas and dots.  On such text [parseFloat] reads the
    longest prefix of the shape [digits], [digits.], [digits.digits]
    or [.digits] and ignores the rest; without such a prefix the
    result is [NaN].  (Signs, exponents, leading white space and
    [Infinity] cannot occur in that text and are left out.) *)

Fixpoint take_digits (s : string) : string * string :=
  match s with
  | String c s' =>
      if is_digit c then let '(d, r) := take_digits s' in (String c d, r)
      else (EmptyString, s)
  | EmptyString => (EmptyString, EmptyString)
  end.

(** Value of a digit string read after the digits [acc]. *)
Fixpoint digits_val (acc : Z) (s : string) : Z :=
  match s with
  | String c s' => digits_val (10 * acc + digit_val c)%Z s'
  | EmptyString => acc
  end.

Definition decimal (int frac : string) : Q :=
  Qred (digits_val 0 (int +:+ frac) # Z.to_pos (10 ^ Z.of_nat (String.length frac))).

Definition parseFloat (s : string) : number :=
  let '(int, r) := take_digits s in
  let frac :=
    match r with
    | String "."%char r' => fst (take_digits r')
    | _ => EmptyString
    end in
  if (String.length int =? 0) && (String.length frac =? 0) then NaN
  else Num (decimal int frac).

(** *** Regular expressions

    The patterns of the scraper, matched the way [String.prototype.match]
    does for a pattern without the [g] flag: the leftmost position
    where the pattern matches, alternatives tried in order, greedy
    repetition with backtracking.  Every pattern of the scraper has
    one capture group. *)

Inductive regex : Type :=
| Eps                                 (* the empty pattern *)
| Chars (p : ascii -> bool)           (* one character of a class *)
| Cat (r1 r2 : regex)                 (* r1r2 *)
| Alt (r1 r2 : regex)                 (* r1|r2 *)
| Star (r : regex)                    (* r*, greedy *)
| Group (r : regex).                  (* (r), the capture group *)

Definition chr (c : ascii) : regex := Chars (Ascii.eqb c).
Definition digit : regex := Chars is_digit.                   (* \d *)
Definition plus (r : regex) : regex := Cat r (Star r).        (* r+ *)
Definition opt (r : regex) : regex := Alt r Eps.              (* r? *)

Fixpoint times (n : nat) (r : regex) : regex :=               (* r{n} *)
  match n with
  | 0 => Eps
  | S n' => Cat r (times n' r)
  end.

Fixpoint lit (s : string) : regex :=                          (* literal text *)
  match s with
  | String c s' => Cat (chr c) (lit s')
  | EmptyString => Eps
  end.

(** Letters compared without case, for patterns with the [i] flag. *)
Definition lower (c : ascii) : ascii :=
  let n := nat_of_ascii c in
  if (65 <=? n) && (n <=? 90) then ascii_of_nat (n + 32) else c.

Fixpoint lit_i (s : string) : regex :=
  match s with
  | String c s' => Cat (Chars (fun x => Ascii.eqb (lower x) (lower c))) (lit_i s')
  | EmptyString => Eps
  end.

Definition matched (s s' : string) : string :=
  String.substring 0 (String.length s - String.length s') s.

(** [exec r s cap k]: match [r] at the start of [s] and continue with
    [k] on the rest of the text; [None] makes the matcher backtrack.
    An iteration of a star that consumes nothing is rejected, so a
    star on [s] iterates at most [length s] times. *)
Fixpoint exec {A} (r : regex) (s : string) (cap : option string)
    (k : string -> option string -> option A) : option A :=
  match r with
  | Eps => k s cap
  | Chars p =>
      match s with
      | String c s' => if p c then k s' cap else None
      | EmptyString => None
      end
  | Cat r1 r2 => exec r1 s cap (fun s' cap' => exec r2 s' cap' k)
  | Alt r1 r2 =>
      match exec r1 s cap k with
      | Some a => Some a
      | None => exec r2 s cap k
      end
  | Star r1 =>
      (fix star (n : nat) (s : string) (cap : option string) : option A :=
         match n with
         | 0 => k s cap
         | S n' =>
             match exec r1 s cap (fun s' cap' =>
                     if String.length s' <? String.length s
                     then star n' s' cap' else None) with
             | Some a => Some a
             | None => k s cap
             end
         end) (String.length s) s cap
  | Group r1 => exec r1 s cap (fun s' _ => k s' (Some (matched s s')))
  end.

(** The result of [s.match(r)]: [match0] is the matched text,
    [match1] the text of the capture group. *)
Record RegExpMatchArray : Type := {
  match0 : string;
  match1 : option string
}.

Fixpoint str_match (r : regex) (s : string) : option RegExpMatchArray :=
  match exec r s None (fun s' cap => Some {| match0 := matched s s'; match1 := cap |}) with
  | Some m => Some m
  | None =>
      match s with
      | String _ s' => str_match r s'
      | EmptyString => None
      end
  end.

(** [m[1]] of a successful match whose group took part in it. *)
Definition group1 (r : regex) (s : string) : option string :=
  match str_match r s with
  | Some m => match1 m
  | None => None
  end.

End JS.

Import JS.

(** ** Documents *)

Module DOM.

#[warnings="-register-all"]
Inductive node : Type :=
| Text (data : string)
| Element (tag : string) (attrs : list (string * string)) (children : list node).

Definition is_element (n : node) : bool :=
  match n with
  | Element _ _ _ => true
  | Text _ => false
  end.

(** [node.textContent]: the text of all descendants, in order. *)
Fixpoint textContent (n : node) : string :=
  match n with
  | Text d => d
  | Element _ _ cs =>
      (fix concat_text (l : list node) : string :=
         match l with
         | [] => ""
         | c :: l' => textContent c +:+ concat_text l'
         end) cs
  end.

(** [element.children]: the child elements. *)
Definition children (n : node) : list node :=
  match n with
  | Element _ _ cs => filter (fun c => is_element c = true) cs
  | Text _ => []
  end.

Fixpoint assoc (name : string) (l : list (string * string)) : option string :=
  match l with
  | [] => None
  | (k, v) :: l' => if String.eqb k name then Some v else assoc name l'
  end.

Definition getAttribute (name : string) (n : node) : option string :=
  match n with
  | Element _ a _ => assoc name a
  | Text _ => None
  end.

(** The elements of the tree under [n], [n] included, in document
    order, each with its [parentElement]. *)
Fixpoint tree_elements (parent : option node) (n : node) : list (node * option node) :=
  match n with
  | Text _ => []
  | Element _ _ cs => (n, parent) :: flat_map (tree_elements (Some n)) cs
  end.

(** *** Selectors *)

Definition selector : Type := node -> bool.

Definition by_tag (t : string) : selector := fun n =>
  match n with
  | Element t' _ _ => String.eqb t t'
  | Text _ => false
  end.

(** The white space that separates the words of an attribute (HTML):
    tab, line feed, form feed, carriage return and space. *)
Definition html_space (c : ascii) : bool :=
  let n := nat_of_ascii c in
  (n =? 32) || (n =? 9) || (n =? 10) || (n =? 12) || (n =? 13).

(** The words of a [class] attribute. *)
Fixpoint words_aux (cur : string) (s : string) : list string :=
  match s with
  | String c s' =>
      if html_space c
      then (if truthy cur then [String.rev cur] else []) ++ words_aux "" s'
      else words_aux (String c cur) s'
  | EmptyString => if truthy cur then [String.rev cur] else []
  end.

Definition by_class (c : string) : selector := fun n =>
  match getAttribute "class" n with
  | Some v => existsb (String.eqb c) (words_aux "" v)
  | None => false
  end.

(** [[name*="v"]] *)
Definition attr_contains (name v : string) : selector := fun n =>
  match getAttribute name n with
  | Some x => includes v x
  | None => false
  end.

(** [[name="v"]] *)
Definition attr_is (name v : string) : selector := fun n =>
  match getAttribute name n with
  | Some x => String.eqb x v
  | None => false
  end.

Definition both (p q : selector) : selector := fun n => p n && q n.

(** A selector list [p, q, ...]. *)
Definition any_of (l : list selector) : selector := fun n => existsb (fun p => p n) l.

(** [page.$$(sel)] on the document [doc], with parents. *)
Definition page_query_all (sel : selector) (doc : node) : list (node * option node) :=
  filter (fun e => sel (fst e) = true) (tree_elements None doc).

(** [page.$(sel)] *)
Definition page_query (sel : selector) (doc : node) : option node :=
  head (map fst (page_query_all sel doc)).

(** [element.$$(sel)] and [element.$(sel)]: the element itself is
    not a candidate. *)
Definition query_all (sel : selector) (e : node) : list node :=
  filter (fun x => sel x = true) (map fst (tail (tree_elements None e))).

Definition query (sel : selector) (e : node) : option node :=
  head (query_all sel e).

End DOM.

Import DOM.

(** ** Data model ([types.ts]) and constructors ([schemas.ts]) *)

Record Address : Type := {
  street : option string;
  city : option string;
  state : option string;
  zip : option string;
  full : option string
}.

(** [{}] *)
Definition empty_address : Address :=
  {| street := None; city := None; state := None; zip := None; full := None |}.

Record Item : Type := {
  name : string;
  price : number;
  quantity : number;
  seller : string;
  imageUrl : string;
  productUrl : string
}.

Record BasicTransaction : Type := {
  b_orderId : string;
  b_date : string;
  b_total : number;
  b_orderDetailsUrl : string
}.

(** The order details gathered by [extractOrderDetailsWithPage]. *)
Record OrderDetails : Type := {
  d_recipient : string;
  d_address : Address;
  d_items : list Item;
  d_paymentMethod : string;
  d_trackingNumber : string;
  d_refund : number
}.

(** A transaction record.  [refund] and [orderDetailsUrl] are
    properties that readers of a record look up ([t.refund] in
    [scrapeTransactions]) and that a record may lack. *)
Record Transaction : Type := {
  orderId : string;
  date : string;
  total : number;
  status : string;
  recipient : string;
  address : Address;
  items : list Item;
  orderScreenshot : string;
  paymentMethod : string;
  trackingNumber : string;
  orderDetailsUrl : option string;
  refund : option number
}.

(** The own properties of a transaction object. *)
Definition keys (t : Transaction) : list string :=
  ["orderId"; "date"; "total"; "status"; "recipient"; "address"; "items";
   "orderScreenshot"; "paymentMethod"; "trackingNumber"]
  ++ (if orderDetailsUrl t is Some _ then ["orderDetailsUrl"] else [])
  ++ (if refund t is Some _ then ["refund"] else []).

(** The numeric properties of a transaction object, by name. *)
Definition get_number (t : Transaction) (key : string) : option number :=
  if String.eqb key "total" then Some (total t)
  else if String.eqb key "refund" then refund t
  else None.

(** The argument of [createTransaction], a [Partial<Transaction>]:
    every property may be missing.  The callers also pass
    [orderDetailsUrl] and [refund]. *)
Record PartialTransaction : Type := {
  p_orderId : option string;
  p_date : option string;
  p_total : option number;
  p_status : option string;
  p_recipient : option string;
  p_address : option Address;
  p_items : option (list Item);
  p_orderScreenshot : option string;
  p_paymentMethod : option string;
  p_trackingNumber : option string;
  p_orderDetailsUrl : option string;
  p_refund : option number
}.

Definition opt_str_or (x : option string) (d : string) : string :=
  match x with
  | Some s => str_or s d
  | None => d
  end.

(** [createTransaction(data)]: each property is [data.x || default].
    The object literal has the ten properties below; it sets neither
    [orderDetailsUrl] nor [refund]. *)
Definition createTransaction (data : PartialTransaction) : Transaction :=
  {| orderId := opt_str_or (p_orderId data) "";
     date := opt_str_or (p_date data) "";
     total := opt_num_or (p_total data) (Num 0);
     status := opt_str_or (p_status data) "unknown";
     recipient := opt_str_or (p_recipient data) "";
     address := default empty_address (p_address data);
     items := default [] (p_items data);
     orderScreenshot := opt_str_or (p_orderScreenshot data) "";
     paymentMethod := opt_str_or (p_paymentMethod data) "";
     trackingNumber := opt_str_or (p_trackingNumber data) "";
     orderDetailsUrl := None;
     refund := None |}.

Record PartialItem : Type := {
  i_name : option string;
  i_price : option number;
  i_quantity : option number;
  i_seller : option string;
  i_imageUrl : option string;
  i_productUrl : option string
}.

(** [createItem(data)] *)
Definition createItem (data : PartialItem) : Item :=
  {| name := opt_str_or (i_name data) "";
     price := opt_num_or (i_price data) (Num 0);
     quantity := opt_num_or (i_quantity data) (Num 1);
     seller := opt_str_or (i_seller data) "";
     imageUrl := opt_str_or (i_imageUrl data) "";
     productUrl := opt_str_or (i_productUrl data) "" |}.

(** A [BasicTransaction] passed where a [Partial<Transaction>] is expected. *)
Definition of_basic (b : BasicTransaction) : PartialTransaction :=
  {| p_orderId := Some (b_orderId b);
     p_date := Some (b_date b);
     p_total := Some (b_total b);
     p_status := None; p_recipient := None; p_address := None; p_items := None;
     p_orderScreenshot := None; p_paymentMethod := None; p_trackingNumber := None;
     p_orderDetailsUrl := Some (b_orderDetailsUrl b);
     p_refund := None |}.

(** ** Partitioning the jobs ([chunkArray]) *)

(** [array.slice(i, j)] for [i <= j]; indices past the end are clamped. *)
Definition slice {T} (i j : nat) (array : list T) : list T :=
  take (j - i) (drop i array).

(** [Math.ceil(a / b)] for natural [a] and [b >= 1].  (The quotient of
    two array-sized integers is computed without rounding error that
    could change its ceiling.) *)
Definition ceil_div (a b : nat) : nat := (a + b - 1) / b.

Arguments ceil_div : simpl never.

(** The [for] loop of [chunkArray] from index [i] on, for the chunk
    size [S k]. *)
Equations? chunk_loop {T} (array : list T) (k : nat) (i : nat) : list (list T)
    by wf (length array - i) lt :=
  chunk_loop array k i with decide (i < length array) := {
    | left _ => slice i (i + S k) array :: chunk_loop array k (i + S k)
    | right _ => [] }.
Proof. lia. Qed.

(** [chunkArray(array, chunks)].  The chunk size is [0] only for an
    empty array, for which the loop body never runs.  For [chunks = 0]
    the division yields [Infinity] (one chunk with everything) or, for
    an empty array, [NaN] (no chunk). *)
Definition chunkArray {T} (array : list T) (chunks : nat) : list (list T) :=
  let result :=
    match chunks with
    | 0 => match array with [] => [] | _ => [array] end
    | S _ =>
        match ceil_div (length array) chunks with
        | 0 => []
        | S k => chunk_loop array k 0
        end
    end in
  result ++ replicate (chunks - length result) [].


(** ** The patterns of the scraper *)

Module Patterns.

Definition comma_or_digit : regex := Chars (fun c => Ascii.eqb c "," || is_digit c).

(** [/\$(\d+(?:,\d{3})*(?:\.\d{2})?)/] *)
Definition rowAmount : regex :=
  Cat (chr "$")
      (Group (Cat (plus digit)
             (Cat (Star (Cat (chr ",") (times 3 digit)))
                  (opt (Cat (chr ".") (times 2 digit)))))).

(** The refund pattern: [\$], then the group [[,\d]+\.?\d*]. *)
Definition refundAmount : regex :=
  Cat (chr "$") (Group (Cat (plus comma_or_digit) (Cat (opt (chr ".")) (Star digit)))).

(** The price pattern: [\$?], then the group [[\d,]+\.?\d*]. *)
Definition itemPrice : regex :=
  Cat (opt (chr "$")) (Group (Cat (plus comma_or_digit) (Cat (opt (chr ".")) (Star digit)))).

(** [/orderID=([^&]+)/] *)
Definition orderIdParam : regex :=
  Cat (lit "orderID=") (Group (plus (Chars (fun c => negb (Ascii.eqb c "&"))))).

(** [\d{2}-\d{7}-\d{7}] *)
Definition orderIdTail : regex :=
  Cat (times 2 digit) (Cat (chr "-") (Cat (times 7 digit) (Cat (chr "-") (times 7 digit)))).

(** [/(D\d{2}-\d{7}-\d{7}|1\d{2}-\d{7}-\d{7})/] *)
Definition orderIdText : regex :=
  Group (Alt (Cat (chr "D") orderIdTail) (Cat (chr "1") orderIdTail)).

Definition alternatives (l : list regex) : regex :=
  match l with
  | [] => Eps
  | r :: l' => fold_left Alt l' r
  end.

(** [[a-z]] under the [i] flag *)
Definition letter_i : regex :=
  Chars (fun c => let n := nat_of_ascii (lower c) in (97 <=? n) && (n <=? 122)).

(** [\d{1,2}] *)
Definition digit12 : regex := Cat digit (opt digit).

(** [/((?:Jan|Feb|Mar|Apr|May|Jun|Jul|Aug|Sep|Oct|Nov|Dec)[a-z]* \d{1,2}, \d{4})/i] *)
Definition dateMonth : regex :=
  Group (Cat (alternatives (map lit_i
                ["Jan"; "Feb"; "Mar"; "Apr"; "May"; "Jun";
                 "Jul"; "Aug"; "Sep"; "Oct"; "Nov"; "Dec"]))
        (Cat (Star letter_i)
        (Cat (chr " ") (Cat digit12 (Cat (lit ", ") (times 4 digit)))))).

(** [/(\d{1,2}\/\d{1,2}\/\d{4})/] *)
Definition dateSlash : regex :=
  Group (Cat digit12 (Cat (chr "/") (Cat digit12 (Cat (chr "/") (times 4 digit))))).

(** [/(\d{4}-\d{2}-\d{2})/] *)
Definition dateIso : regex :=
  Group (Cat (times 4 digit) (Cat (chr "-") (Cat (times 2 digit) (Cat (chr "-") (times 2 digit))))).

Definition datePatterns : list regex := [dateMonth; dateSlash; dateIso].

End Patterns.

(** ** The scraper ([scraper.ts]) *)

(** The entries of [config.json] read by the scraper. *)
Record ConfigData : Type := {
  baseUrl : string;
  screenshotsDir : string
}.

(** [s.split(sep)] for a one-character separator. *)
Fixpoint split_on (sep : ascii) (s : string) : list string :=
  match s with
  | String c s' =>
      if Ascii.eqb c sep then EmptyString :: split_on sep s'
      else
        match split_on sep s' with
        | segment :: rest => String c segment :: rest
        | [] => [String c EmptyString]
        end
  | EmptyString => [EmptyString]
  end.

(** One segment of a path in [path.normalize] (POSIX).  [stack] holds
    the segments kept so far, the last one first: an empty segment and
    [.] are dropped, [..] removes the segment before it, or is kept in
    a relative path that has none. *)
Definition normalize_step (allowAboveRoot : bool) (stack : list string) (segment : string)
    : list string :=
  if String.eqb segment "" || String.eqb segment "." then stack
  else if String.eqb segment ".." then
    match stack with
    | top :: rest =>
        if String.eqb top ".." then (if allowAboveRoot then ".." :: stack else stack)
        else rest
    | [] => if allowAboveRoot then [".."] else []
    end
  else segment :: stack.

(** [path.normalize(p)] (POSIX) *)
Definition normalize (p : string) : string :=
  if String.eqb p "" then "."
  else
    let isAbsolute := String.prefix "/" p in
    let trailingSeparator := String.eqb (String.substring (String.length p - 1) 1 p) "/" in
    let segments := fold_left (normalize_step (negb isAbsolute)) (split_on "/" p) [] in
    let res := join "/" (rev segments) in
    if String.eqb res "" then
      if isAbsolute then "/" else if trailingSeparator then "./" else "."
    else
      let res := if trailingSeparator then res +:+ "/" else res in
      if isAbsolute then "/" +:+ res else res.

(** [path.join(dir, file)] (POSIX): the arguments that are not empty,
    joined by a slash and normalized. *)
Definition path_join (dir file : string) : string :=
  let joined :=
    if String.eqb dir "" then file
    else if String.eqb file "" then dir
    else dir +:+ "/" +:+ file in
  if String.eqb joined "" then "." else normalize joined.

Definition orderUrl (orderId : string) : string :=
  "https://www.amazon.com/gp/your-account/order-details?orderID=" +:+ orderId.

(** [parseFloat(m.replace(',', ''))] *)
Definition amount_of (m : string) : number := parseFloat (replace "," "" m).

(** *** The list pager *)

(** [extractTransactionFromRow(row)].  [row] is [None] for a handle
    whose queries reject; [now] is the value of [Date.now()]. *)
Definition extractTransactionFromRow (config : ConfigData) (row : option node) (now : Z)
    : option BasicTransaction :=
  match row with
  | None => None
  | Some row =>
      let rowText := textContent row in
      let orderLink :=
        query (any_of [both (by_tag "a") (attr_contains "href" "order");
                       both (by_tag "a") (attr_contains "href" "gp/your-account")]) row in
      let '(orderId, orderDetailsUrl) :=
        match orderLink ≫= getAttribute "href" with
        | Some href =>
            if truthy href then
              (default "" (group1 Patterns.orderIdParam href),
               if startsWith "http" href then href else baseUrl config +:+ href)
            else ("", "")
        | None => ("", "")
        end in
      let total :=
        if truthy rowText then
          match group1 Patterns.rowAmount rowText with
          | Some m => amount_of m
          | None => Num 0
          end
        else Num 0 in
      let '(orderId, orderDetailsUrl) :=
        if negb (truthy orderId) && truthy rowText then
          match group1 Patterns.orderIdText rowText with
          | Some m => (m, orderUrl m)
          | None => (orderId, orderDetailsUrl)
          end
        else (orderId, orderDetailsUrl) in
      let orderDetailsUrl :=
        if truthy orderId && negb (truthy orderDetailsUrl)
        then orderUrl orderId else orderDetailsUrl in
      if truthy orderId || num_gt0 total then
        Some {| b_orderId := str_or orderId ("unknown-" +:+ pretty now);
                b_date := "";
                b_total := total;
                b_orderDetailsUrl := orderDetailsUrl |}
      else None
  end.

(** What the browser shows on one page of the transaction list. *)
Record PageView : Type := {
  transactionRows : list (option node); (* [.apx-transactions-line-item-component-container] *)
  nextPageSpan : bool                   (* [span:has-text("Next Page")] is present *)
}.

(** The remote list as the pager meets it. *)
Record ListSite : Type := {
  analysis_ok : bool;            (* the page dump before the walk resolves *)
  view : nat -> option PageView; (* page [n]; [None]: loading or querying it rejects *)
  Date_now : nat -> nat -> Z;    (* the clock when row [i] of page [n] is read *)
  debug_ok : bool                (* [page.textContent('body')] of the handler resolves *)
}.

Inductive Outcome (A : Type) : Type :=
| Returned (a : A)
| Rejected.

Arguments Returned {A} a.
Arguments Rejected {A}.

(** The end of a walk: the result, the final [currentPage] and the
    number of clicks on "Next Page". *)
Record Walk : Type := {
  outcome : Outcome (list BasicTransaction);
  currentPage : nat;
  clicks : nat
}.

(** The [for] loop over the rows of a page, from row [i] on. *)
Fixpoint rows_loop (config : ConfigData) (now : nat -> Z) (i : nat)
    (rows : list (option node)) (allTransactions : list BasicTransaction)
    : list BasicTransaction :=
  match rows with
  | [] => allTransactions
  | row :: rows' =>
      rows_loop config now (S i) rows'
        (match extractTransactionFromRow config row (now i) with
         | Some transaction => allTransactions ++ [transaction]
         | None => allTransactions
         end)
  end.

(** The [catch] of [scrapeTransactionList]: after the debug dump the
    function returns the empty [transactions]. *)
Definition walk_caught (site : ListSite) (page clicked : nat) : Walk :=
  {| outcome := if debug_ok site then Returned [] else Rejected;
     currentPage := page;
     clicks := clicked |}.

(** The [while (true)] loop of [scrapeTransactionList]. *)
Equations? paginate (config : ConfigData) (site : ListSite)
    (page : nat) (allTransactions : list BasicTransaction) (clicked : nat) : Walk
    by wf (11 - page) lt :=
  paginate config site page allTransactions clicked with view site page := {
    | None => walk_caught site page clicked
    | Some v with transactionRows v := {
      | [] => {| outcome := Returned allTransactions; currentPage := page; clicks := clicked |}
      | rows with nextPageSpan v := {
        | false =>
            {| outcome := Returned (rows_loop config (Date_now site page) 0 rows allTransactions);
               currentPage := page; clicks := clicked |}
        | true with view site (page + 1) := {
          | None => walk_caught site page (clicked + 1)
          | Some _ with decide (10 < page + 1) := {
            | left _ =>
                {| outcome := Returned (rows_loop config (Date_now site page) 0 rows allTransactions);
                   currentPage := page + 1; clicks := clicked + 1 |}
            | right _ =>
                paginate config site (page + 1)
                  (rows_loop config (Date_now site page) 0 rows allTransactions)
                  (clicked + 1) } } } } }.
Proof. lia. Qed.

Definition scrapeTransactionList (config : ConfigData) (site : ListSite) : Walk :=
  if analysis_ok site then paginate config site 1 [] 0
  else walk_caught site 1 0.

(** *** Order details *)

Definition defaultOrderDetails : OrderDetails :=
  {| d_recipient := ""; d_address := empty_address; d_items := [];
     d_paymentMethod := ""; d_trackingNumber := ""; d_refund := Num 0 |}.

(** [extractItemDetailsWithElement(itemElement)] *)
Definition extractItemDetailsWithElement (itemElement : node) : Item :=
  let nameElement :=
    query (any_of [by_class "product-title"; by_class "item-title";
                   both (by_tag "a") (attr_contains "href" "/dp/")]) itemElement in
  let priceElement :=
    query (any_of [by_class "price"; by_class "item-price"; by_class "cost"]) itemElement in
  let imageElement := query (by_tag "img") itemElement in
  let name :=
    match nameElement with
    | Some e => if truthy (textContent e) then trim (textContent e) else ""
    | None => ""
    end in
  let price :=
    match priceElement with
    | Some e =>
        if truthy (textContent e) then
          match group1 Patterns.itemPrice (textContent e) with
          | Some m => amount_of m
          | None => Num 0
          end
        else Num 0
    | None => Num 0
    end in
  let imageUrl :=
    match imageElement ≫= getAttribute "src" with
    | Some src => src
    | None => ""
    end in
  createItem {| i_name := Some name; i_price := Some price; i_quantity := Some (Num 1);
                i_seller := Some ""; i_imageUrl := Some imageUrl; i_productUrl := Some "" |}.

(** The refund found next to one "Refund Total" element: first in the
    text of its parent, then in the joined texts of the children of
    its parent.  (A [span], [div] or [td] of a document has a parent
    element; the root of a tree has none and yields nothing.) *)
Definition refund_near (parent : option node) : option number :=
  match parent with
  | Some p =>
      match (if truthy (textContent p)
             then group1 Patterns.refundAmount (textContent p) else None) with
      | Some m => Some (amount_of m)
      | None =>
          let siblingTexts :=
            join " " (map (fun child => str_or (textContent child) "") (children p)) in
          match group1 Patterns.refundAmount siblingTexts with
          | Some m => Some (amount_of m)
          | None => None
          end
      end
  | None => None
  end.

Definition is_refund_label (element : node) : bool :=
  truthy (textContent element) && String.eqb (trim (textContent element)) "Refund Total".

(** The loop over the [span, div, td] elements; [refund] is the value
    kept when no element yields an amount. *)
Fixpoint refund_loop (refundTotalElements : list (node * option node)) (refund : number)
    : number :=
  match refundTotalElements with
  | [] => refund
  | (element, parent) :: rest =>
      if is_refund_label element then
        match refund_near parent with
        | Some r => r
        | None => refund_loop rest refund
        end
      else refund_loop rest refund
  end.

Definition extractRefund (doc : node) : number :=
  refund_loop
    (page_query_all (any_of [by_tag "span"; by_tag "div"; by_tag "td"]) doc)
    (Num 0).

(** [extractOrderDetailsWithPage(page)] on the document [doc].  The
    function assigns the fields in four steps (address, payment
    method, refund, items) inside one [try]; [steps] is the number of
    steps that complete before a browser operation rejects, [4] or
    more when none does. *)
Definition extractOrderDetailsWithPage (doc : node) (steps : nat) : OrderDetails :=
  let od := defaultOrderDetails in
  let od :=
    if 1 <=? steps then
      match page_query (any_of [by_class "shipping-address"; by_class "delivery-address"]) doc with
      | Some addressElement =>
          let addressText := textContent addressElement in
          if truthy addressText then
            {| d_recipient := trim (split_head "010" addressText);
               d_address :=
                 {| street := None; city := None; state := None; zip := None;
                    full := Some (trim addressText) |};
               d_items := d_items od; d_paymentMethod := d_paymentMethod od;
               d_trackingNumber := d_trackingNumber od; d_refund := d_refund od |}
          else od
      | None => od
      end
    else od in
  let od :=
    if 2 <=? steps then
      match page_query (any_of [by_class "payment-method"; by_class "payment-info"]) doc with
      | Some paymentElement =>
          let paymentText := textContent paymentElement in
          if truthy paymentText then
            {| d_recipient := d_recipient od; d_address := d_address od;
               d_items := d_items od; d_paymentMethod := trim paymentText;
               d_trackingNumber := d_trackingNumber od; d_refund := d_refund od |}
          else od
      | None => od
      end
    else od in
  let od :=
    if 3 <=? steps then
      {| d_recipient := d_recipient od; d_address := d_address od;
         d_items := d_items od; d_paymentMethod := d_paymentMethod od;
         d_trackingNumber := d_trackingNumber od; d_refund := extractRefund doc |}
    else od in
  if 4 <=? steps then
    {| d_recipient := d_recipient od; d_address := d_address od;
       d_items :=
         map (fun e => extractItemDetailsWithElement (fst e))
           (page_query_all (any_of [by_class "order-item"; by_class "item-row";
                                    attr_is "data-testid" "order-item"]) doc);
       d_paymentMethod := d_paymentMethod od;
       d_trackingNumber := d_trackingNumber od; d_refund := d_refund od |}
  else od.

(** *** One job *)

(** What the browser does during one job: which awaited operations
    resolve, and with what. *)
Record JobEnv : Type := {
  goto : option node;   (* [page.goto] and the wait for the network: the document, or a rejection *)
  smart_ok : bool;      (* the [try] of [takeSmartOrderScreenshot] completes *)
  fallback_ok : bool;   (* the fallback [page.screenshot] resolves *)
  details_steps : nat;  (* steps of [extractOrderDetailsWithPage] that complete *)
  body_ok : bool;       (* [page.textContent('body')] resolves when there is a body *)
  delay_ok : bool       (* [page.waitForTimeout(1000)] after the job resolves *)
}.

(** The state shared by the jobs of a run.  [captures] and [jobs] are
    logs: the calls of [takeSmartOrderScreenshot] by target path and
    the calls of [scrapeOrderDetailsWithPage]. *)
Record State : Type := {
  processedOrders : gset string;
  files : gset string;
  captures : list string;
  jobs : list BasicTransaction
}.

Definition log_job (transaction : BasicTransaction) (st : State) : State :=
  {| processedOrders := processedOrders st; files := files st;
     captures := captures st; jobs := jobs st ++ [transaction] |}.

Definition mark_processed (id : string) (st : State) : State :=
  {| processedOrders := {[id]} ∪ processedOrders st; files := files st;
     captures := captures st; jobs := jobs st |}.

(** [takeSmartOrderScreenshot(page, screenshotPath)]: the capture of
    the [try], else the fallback capture of the [catch]; a capture that
    resolves writes the file.  The boolean tells whether the call
    resolves. *)
Definition takeSmartOrderScreenshot (env : JobEnv) (screenshotPath : string) (st : State)
    : State * bool :=
  let written := smart_ok env || fallback_ok env in
  ({| processedOrders := processedOrders st;
      files := if written then {[screenshotPath]} ∪ files st else files st;
      captures := captures st ++ [screenshotPath];
      jobs := jobs st |},
   written).

Definition screenshotPath_of (config : ConfigData) (transaction : BasicTransaction) : string :=
  path_join (screenshotsDir config) ("order-" +:+ b_orderId transaction +:+ ".png").

(** The first date pattern that matches. *)
Fixpoint first_date (patterns : list regex) (bodyText : string) : option string :=
  match patterns with
  | [] => None
  | pattern :: rest =>
      match group1 pattern bodyText with
      | Some m => Some m
      | None => first_date rest bodyText
      end
  end.

(** The record of the [catch] of [scrapeOrderDetailsWithPage]. *)
Definition basicRecord (transaction : BasicTransaction) : Transaction :=
  createTransaction
    {| p_orderId := Some (b_orderId transaction);
       p_date := Some (b_date transaction);
       p_total := Some (b_total transaction);
       p_status := None; p_recipient := None; p_address := None;
       p_items := Some [];
       p_orderScreenshot := Some "";
       p_paymentMethod := None; p_trackingNumber := None;
       p_orderDetailsUrl := Some (b_orderDetailsUrl transaction);
       p_refund := None |}.

(** [scrapeOrderDetailsWithPage(transaction, page, browserIndex)].
    [doc] is the document that the page of the worker shows; the
    result holds the record, the document shown afterwards and the
    state.  Every rejection inside is caught: the function always
    returns a record. *)
Definition scrapeOrderDetailsWithPage (config : ConfigData) (transaction : BasicTransaction)
    (env : JobEnv) (doc : node) (st : State) : Transaction * node * State :=
  let st := log_job transaction st in
  match (if truthy (b_orderDetailsUrl transaction) then goto env else Some doc) with
  | None => (basicRecord transaction, doc, st)
  | Some doc =>
      let screenshotPath := screenshotPath_of config transaction in
      let '(st, shot) :=
        if decide (screenshotPath ∈ files st) then (st, true)
        else takeSmartOrderScreenshot env screenshotPath st in
      if negb shot then (basicRecord transaction, doc, st)
      else
        let orderDetails := extractOrderDetailsWithPage doc (details_steps env) in
        let orderDate :=
          if truthy (b_date transaction) then Some (b_date transaction)
          else
            match (if body_ok env then page_query (by_tag "body") doc else None) with
            | Some body =>
                Some (default (b_date transaction)
                        (first_date Patterns.datePatterns (str_or (textContent body) "")))
            | None => None
            end in
        match orderDate with
        | None => (basicRecord transaction, doc, st)
        | Some orderDate =>
            (createTransaction
               {| p_orderId := Some (b_orderId transaction);
                  p_date := Some (str_or orderDate (b_date transaction));
                  p_total := Some (b_total transaction);
                  p_status := None;
                  p_recipient := Some (d_recipient orderDetails);
                  p_address := Some (d_address orderDetails);
                  p_items := Some (d_items orderDetails);
                  p_orderScreenshot := Some screenshotPath;
                  p_paymentMethod := Some (d_paymentMethod orderDetails);
                  p_trackingNumber := Some (d_trackingNumber orderDetails);
                  p_orderDetailsUrl := Some (b_orderDetailsUrl transaction);
                  p_refund := Some (d_refund orderDetails) |},
             doc, st)
        end
  end.

(** *** The worker pool *)

Definition PARALLEL_BROWSERS : nat := 4.

(** What the browsers do during [processTransactionsInParallel]. *)
Record PoolEnv : Type := {
  launch_ok : bool;               (* the browsers and their contexts start *)
  newPage_ok : nat -> bool;       (* [context.newPage()] of worker [index] resolves *)
  job_env : nat -> nat -> JobEnv  (* job [i] of worker [index] *)
}.

(** The document of a fresh page. *)
Definition blank : node :=
  Element "html" [] [Element "head" [] []; Element "body" [] []].

(** The [for] loop of one worker over its chunk, from job [i] on.  The
    record is pushed and the id marked before the delay between jobs;
    a rejection of the delay reaches the [catch], which pushes the
    basic record. *)
Fixpoint worker_loop (config : ConfigData) (env : nat -> JobEnv) (i : nat)
    (chunk : list BasicTransaction) (doc : node) (st : State) (results : list Transaction)
    : list Transaction * State :=
  match chunk with
  | [] => (results, st)
  | transaction :: chunk' =>
      let '(detailedTransaction, doc, st) :=
        scrapeOrderDetailsWithPage config transaction (env i) doc st in
      let results := results ++ [detailedTransaction] in
      let st := mark_processed (b_orderId transaction) st in
      let results :=
        if delay_ok (env i) then results
        else results ++ [createTransaction (of_basic transaction)] in
      worker_loop config env (S i) chunk' doc st results
  end.

(** The asynchronous function mapped over the chunks. *)
Definition worker (config : ConfigData) (pool : PoolEnv) (index : nat)
    (chunk : list BasicTransaction) (st : State) : Outcome (list Transaction) * State :=
  if length chunk =? 0 then (Returned [], st)
  else if newPage_ok pool index then
    let '(results, st) := worker_loop config (job_env pool index) 0 chunk blank st [] in
    (Returned results, st)
  else (Rejected, st).

(** The workers of the code run interleaved; the model runs them one
    after the other, in chunk order, which is also the order of
    [allResults].  The ids and totals of the results, the ids marked
    and the jobs started are the same in every schedule.  The
    screenshot directory is shared: what [captures] and [files] hold
    after the pool, and the screenshot named by the record of a job
    whose id another worker has too, are those of this schedule. *)
Fixpoint run_workers (config : ConfigData) (pool : PoolEnv) (index : nat)
    (chunks : list (list BasicTransaction)) (st : State)
    : list (Outcome (list Transaction)) * State :=
  match chunks with
  | [] => ([], st)
  | chunk :: chunks' =>
      let '(r, st) := worker config pool index chunk st in
      let '(rs, st) := run_workers config pool (S index) chunks' st in
      (r :: rs, st)
  end.

(** [Promise.all]: the results in order, or a rejection. *)
Fixpoint promise_all {A} (l : list (Outcome A)) : Outcome (list A) :=
  match l with
  | [] => Returned []
  | Rejected :: _ => Rejected
  | Returned a :: l' =>
      match promise_all l' with
      | Returned r => Returned (a :: r)
      | Rejected => Rejected
      end
  end.

(** The scraper object: [transactionData] (without its time stamps)
    and the state shared by the jobs. *)
Record Scraper : Type := {
  transactions : list Transaction;
  totalTransactions : nat;
  totalAmount : number;
  shared : State
}.

Definition with_state (st : State) (this : Scraper) : Scraper :=
  {| transactions := transactions this; totalTransactions := totalTransactions this;
     totalAmount := totalAmount this; shared := st |}.

(** [processTransactionsInParallel(transactions)]; the boolean tells
    whether the call resolves. *)
Definition processTransactionsInParallel (config : ConfigData) (pool : PoolEnv)
    (new : list BasicTransaction) (this : Scraper) : Scraper * bool :=
  if launch_ok pool then
    let chunks := chunkArray new PARALLEL_BROWSERS in
    let '(allResults, st) := run_workers config pool 0 chunks (shared this) in
    match promise_all allResults with
    | Returned results =>
        ({| transactions := transactions this ++ concat results;
            totalTransactions := totalTransactions this;
            totalAmount := totalAmount this;
            shared := st |}, true)
    | Rejected => (with_state st this, false)
    end
  else (this, false).

(** The dedup filter of [scrapeTransactions]. *)
Definition newTransactions (processed : gset string) (found : list BasicTransaction)
    : list BasicTransaction :=
  filter (fun t => b_orderId t ∉ processed) found.

(** The reducer of the net total:
    [(sum, t) => sum + (t.total || 0) - (t.refund || 0)]. *)
Definition net_step (sum : number) (t : Transaction) : number :=
  num_sub (num_add sum (num_or (total t) (Num 0))) (opt_num_or (refund t) (Num 0)).

Definition update_metadata (this : Scraper) : Scraper :=
  {| transactions := transactions this;
     totalTransactions := length (transactions this);
     totalAmount := fold_left net_step (transactions this) (Num 0);
     shared := shared this |}.

(** [scrapeTransactions()], from the walk of the list on; the boolean
    tells whether the call resolves. *)
Definition scrapeTransactions (config : ConfigData) (site : ListSite) (pool : PoolEnv)
    (this : Scraper) : Scraper * bool :=
  match outcome (scrapeTransactionList config site) with
  | Rejected => (this, false)
  | Returned found =>
      let new := newTransactions (processedOrders (shared this)) found in
      let '(this, ok) :=
        if length new =? 0 then (this, true)
        else processTransactionsInParallel config pool new this in
      if ok then (update_metadata this, true) else (this, false)
  end.

(** ** Auxiliary definitions of the statements *)

(** The chunks made by the loop of [chunkArray], before the padding. *)
Definition loop_chunks {T} (array : list T) (chunks : nat) : list (list T) :=
  match ceil_div (length array) chunks with
  | 0 => []
  | S k => chunk_loop array k 0
  end.

(** The references read from rows, the first of which has index [i]:
    one per row that yields one, in row order. *)
Definition row_refs (config : ConfigData) (now : nat → Z) (i : nat)
    (rows : list (option node)) : list BasicTransaction :=
  omap id (imap (λ j row, extractTransactionFromRow config row (now (i + j))) rows).

(** The references of page [p] of a site. *)
Definition page_refs (config : ConfigData) (site : ListSite) (p : nat)
    : list BasicTransaction :=
  match view site p with
  | Some v => row_refs config (Date_now site p) 0 (transactionRows v)
  | None => []
  end.

(** ** Sample inputs *)

Definition amazon : ConfigData :=
  {| baseUrl := "https://www.amazon.com"; screenshotsDir := "screenshots" |}.

(** A list whose every page shows one row and a "Next Page" control. *)
Definition endless_site : ListSite :=
  {| analysis_ok := true;
     view := λ _, Some {| transactionRows :=
                            [Some (Element "div" [] [Text "Order 113-1234567-1234567 $5.00"])];
                          nextPageSpan := true |};
     Date_now := λ _ _, 0%Z;
     debug_ok := true |}.

(** A list of two pages that show the same row. *)
Definition repeated_row : option node :=
  Some (Element "div" []
          [Element "a" [("href", "/gp/css/order-details?orderID=113-1234567-1234567")]
             [Text "View order"];
           Element "span" [] [Text "$5.00"]]).

Definition repeating_site : ListSite :=
  {| analysis_ok := true;
     view := λ p, Some {| transactionRows := if p <=? 2 then [repeated_row] else [];
                          nextPageSpan := p =? 1 |};
     Date_now := λ _ _, 0%Z;
     debug_ok := true |}.

(** A row whose amount has two thousands separators. *)
Definition million_row : node :=
  Element "div" [("class", "apx-transactions-line-item-component-container")]
    [Element "span" [] [Text "Visa ending in 1234"];
     Element "span" [] [Text "$1,234,567.89"]].

(** An item whose price has two thousands separators. *)
Definition million_item : node :=
  Element "div" [("class", "order-item")]
    [Element "span" [("class", "item-title")] [Text "Industrial lathe"];
     Element "span" [("class", "price")] [Text "$1,234,567.89"]].

(** An order summary with one row per amount. *)
Definition summary_rows : node :=
  Element "html" []
    [Element "body" []
       [Element "div" [("class", "summary")]
          [Element "div" [("class", "row")]
             [Element "span" [] [Text "Grand Total"]; Element "span" [] [Text "$30.00"]];
           Element "div" [("class", "row")]
             [Element "span" [] [Text " Refund Total "]; Element "span" [] [Text "$12.50"]]]]].

(** An order summary whose amounts share one parent. *)
Definition summary_flat : node :=
  Element "html" []
    [Element "body" []
       [Element "div" [("class", "summary")]
          [Element "span" [] [Text "Grand Total"]; Element "span" [] [Text "$30.00"];
           Element "span" [] [Text "Refund Total"]; Element "span" [] [Text "$12.50"]]]].

(** [text] contains "Refund Total", then any text, then "$12.50". *)
Definition mentions_refund (text : string) : Prop :=
  ∃ before between after,
    text = before +:+ "Refund Total" +:+ between +:+ "$12.50" +:+ after.

(** The no-break space U+00A0. *)
Definition nbsp : string := String "194" (String "160" "").

(** An order summary with two labels, the first of which ends with a
    no-break space. *)
Definition summary_nbsp : node :=
  Element "html" []
    [Element "body" []
       [Element "div" [("class", "row")]
          [Element "span" [] [Text ("Refund Total" +:+ nbsp)];
           Element "span" [] [Text "$7.00"]];
        Element "div" [("class", "row")]
          [Element "span" [] [Text "Refund Total"]; Element "span" [] [Text "$12.50"]]]].

(** A job and a page that is closed while the job runs: every
    operation on the page rejects. *)
Definition sample_job : BasicTransaction :=
  {| b_orderId := "113-1234567-1234567"; b_date := ""; b_total := Num 5;
     b_orderDetailsUrl := orderUrl "113-1234567-1234567" |}.

Definition closed_page : JobEnv :=
  {| goto := None; smart_ok := false; fallback_ok := false;
     details_steps := 0; body_ok := false; delay_ok := false |}.

(** A page on which every operation resolves, showing [doc]. *)
Definition live_page (doc : node) : JobEnv :=
  {| goto := Some doc; smart_ok := true; fallback_ok := true;
     details_steps := 4; body_ok := true; delay_ok := true |}.

Definition empty_state : State :=
  {| processedOrders := ∅; files := ∅; captures := []; jobs := [] |}.

(** The indices of the jobs of a chunk after which the delay rejects. *)
Definition failed_delays (env : nat → JobEnv) (i n : nat) : list nat :=
  filter (λ j, delay_ok (env j) = false) (seq i n).

(** The awaited page operations of a job resolve: the navigation,
    if there is one, and the read of the body text, if it is needed. *)
Definition page_resolves (transaction : BasicTransaction) (env : JobEnv) (doc : node) : bool :=
  match (if truthy (b_orderDetailsUrl transaction) then goto env else Some doc) with
  | None => false
  | Some d =>
      truthy (b_date transaction)
      || (body_ok env && bool_decide (is_Some (page_query (by_tag "body") d)))
  end.

(** The same page when the capture of the [try] resolves. *)
Definition capturing (env : JobEnv) : JobEnv :=
  {| goto := goto env; smart_ok := true; fallback_ok := fallback_ok env;
     details_steps := details_steps env; body_ok := body_ok env; delay_ok := delay_ok env |}.

(** The same state without the file at [path]. *)
Definition without_file (path : string) (st : State) : State :=
  {| processedOrders := processedOrders st; files := files st ∖ {[path]};
     captures := captures st; jobs := jobs st |}.

(** The reference of the list for an order id and an amount. *)
Definition ref (id : string) (amount : Q) : BasicTransaction :=
  {| b_orderId := id; b_date := ""; b_total := Num amount; b_orderDetailsUrl := orderUrl id |}.

(** A scraper that has processed the orders [processed] in earlier runs. *)
Definition fresh_scraper (processed : gset string) : Scraper :=
  {| transactions := []; totalTransactions := 0; totalAmount := Num 0;
     shared := {| processedOrders := processed; files := ∅; captures := []; jobs := [] |} |}.

(** A scraper that holds the record of an order of $30.00 with a
    refund of $12.50. *)
Definition refunded_before : Scraper :=
  {| transactions :=
       [{| orderId := "333-3333333-3333333"; date := "March 3, 2024"; total := Num 30;
           status := "unknown"; recipient := ""; address := empty_address; items := [];
           orderScreenshot := ""; paymentMethod := ""; trackingNumber := "";
           orderDetailsUrl := None; refund := Some (Num (25 # 2)) |}];
     totalTransactions := 1; totalAmount := Num (35 # 2);
     shared := {| processedOrders := {[ "333-3333333-3333333" ]}; files := ∅;
                  captures := []; jobs := [] |} |}.

(** Browsers on which every operation resolves, showing a blank page. *)
Definition ready_pool : PoolEnv :=
  {| launch_ok := true; newPage_ok := λ _, true; job_env := λ _ _, live_page blank |}.

(** A list of one page with two orders. *)
Definition list_row (id amount : string) : option node :=
  Some (Element "div" [("class", "apx-transactions-line-item-component-container")]
          [Element "a" [("href", "/gp/your-account/order-details?orderID=" +:+ id)]
             [Text "View order"];
           Element "span" [] [Text ("$" +:+ amount)]]).

Definition two_orders_site : ListSite :=
  {| analysis_ok := true;
     view := λ p, Some {| transactionRows :=
                            if p =? 1 then [list_row "111-1111111-1111111" "10.00";
                                            list_row "222-2222222-2222222" "20.00"]
                            else [];
                          nextPageSpan := false |};
     Date_now := λ _ _, 0%Z;
     debug_ok := true |}.

(** ** Auxiliary definitions for the matcher *)

(** [s'] is what is left of [s] after some prefix. *)
Definition is_suffix (s' s : string) : Prop := ∃ u, s = u +:+ s'.

(** Every character of [s] is in the class [p]. *)
Fixpoint all_chars (p : ascii → bool) (s : string) : bool :=
  match s with
  | String c s' => p c && all_chars p s'
  | EmptyString => true
  end.

(** [s] does not start with a character of the class [p]. *)
Definition stops (p : ascii → bool) (s : string) : bool :=
  match s with
  | String c _ => negb (p c)
  | EmptyString => true
  end.

(** The texts that a pattern matches, as a set: the declarative
    reading of the pattern. *)
Inductive lang : regex → string → Prop :=
| lang_eps : lang Eps ""
| lang_chars p c : p c = true → lang (Chars p) (String c "")
| lang_cat r1 r2 u v : lang r1 u → lang r2 v → lang (Cat r1 r2) (u +:+ v)
| lang_alt_l r1 r2 u : lang r1 u → lang (Alt r1 r2) u
| lang_alt_r r1 r2 u : lang r2 u → lang (Alt r1 r2) u
| lang_star_nil r : lang (Star r) ""
| lang_star_cons r u v : lang r u → lang (Star r) v → lang (Star r) (u +:+ v)
| lang_group r u : lang r u → lang (Group r) u.

(** The amount that [extractTransactionFromRow] reads in the text of a row. *)
Definition row_total (rowText : string) : number :=
  if truthy rowText then
    match group1 Patterns.rowAmount rowText with
    | Some m => amount_of m
    | None => Num 0
    end
  else Num 0.

(** The class [[^&]]. *)
Definition not_amp (c : ascii) : bool := negb (Ascii.eqb c "&").

(** The selector of the order link of a row:
    [a[href*="order"], a[href*="gp/your-account"]]. *)
Definition order_link : selector :=
  any_of [both (by_tag "a") (attr_contains "href" "order");
          both (by_tag "a") (attr_contains "href" "gp/your-account")].

(** ** The index of processed orders ([loadProcessedOrders]) *)

(** [s.endsWith(suffix)] *)
Fixpoint endsWith (suffix s : string) : bool :=
  String.eqb suffix s
  || match s with
     | String _ s' => endsWith suffix s'
     | EmptyString => false
     end.

Definition not_dash (c : ascii) : bool := negb (Ascii.eqb c "-").

(** [/order-([^-]+-\d+-\d+)/] *)
Definition screenshotName : regex :=
  Cat (lit "order-")
      (Group (Cat (plus (Chars not_dash))
             (Cat (chr "-") (Cat (plus digit) (Cat (chr "-") (plus digit)))))).

(** An element of [data.transactions]: [Broken] for an element on
    which reading [orderId] raises ([null]), else its [orderId] when
    it has one. *)
Inductive Entry : Type :=
| Broken
| Order (orderId : option string).

(** A file of the data directory: its name and, when [readJSON]
    resolves with a [transactions] array, the elements of the array. *)
Record DataFile : Type := {
  file_name : string;
  file_content : option (list Entry)
}.

(** The two directories as [readdir] lists them; [None] when the
    listing rejects. *)
Record Disk : Type := {
  dataDir : option (list DataFile);
  screenshots : option (list string)
}.

(** The loop over the transactions of one file; an element that raises
    ends it, with the ids added so far. *)
Fixpoint add_orders (entries : list Entry) (processed : gset string) : gset string :=
  match entries with
  | [] => processed
  | Broken :: _ => processed
  | Order o :: rest =>
      add_orders rest
        (match o with
         | Some id => if truthy id then {[id]} ∪ processed else processed
         | None => processed
         end)
  end.

(** The loop over the [.json] files; a file that cannot be read is
    skipped. *)
Fixpoint scan_files (jsonFiles : list DataFile) (processed : gset string) : gset string :=
  match jsonFiles with
  | [] => processed
  | file :: rest =>
      scan_files rest
        (match file_content file with
         | Some entries => add_orders entries processed
         | None => processed
         end)
  end.

(** The loop over the screenshots of orders. *)
Fixpoint scan_screenshots (orderScreenshots : list string) (processed : gset string)
    : gset string :=
  match orderScreenshots with
  | [] => processed
  | screenshot :: rest =>
      scan_screenshots rest
        (match group1 screenshotName screenshot with
         | Some id => {[id]} ∪ processed
         | None => processed
         end)
  end.

(** [loadProcessedOrders()]: the set of processed orders afterwards. *)
Definition loadProcessedOrders (disk : Disk) (processed : gset string) : gset string :=
  match dataDir disk with
  | None => processed
  | Some files =>
      let jsonFiles := filter (λ f, endsWith ".json" (file_name f) = true) files in
      let processed := scan_files jsonFiles processed in
      match screenshots disk with
      | Some screenshots =>
          let orderScreenshots :=
            filter (λ f, startsWith "order-" f && endsWith ".png" f = true) screenshots in
          scan_screenshots orderScreenshots processed
      | None => processed
      end
  end.

(** The ids that the files of the data directory hold: the truthy
    [orderId]s before the first element that raises. *)
Fixpoint file_ids (entries : list Entry) : list string :=
  match entries with
  | [] => []
  | Broken :: _ => []
  | Order (Some id) :: rest => if truthy id then id :: file_ids rest else file_ids rest
  | Order None :: rest => file_ids rest
  end.

(** An order id of the shape [a-b-c]: [a] without dash, [b] and [c]
    digits, none of them empty. *)
Definition order_shaped (id : string) : Prop :=
  ∃ a b c, id = a +:+ "-" +:+ b +:+ "-" +:+ c
           ∧ a ≠ "" ∧ b ≠ "" ∧ c ≠ ""
           ∧ all_chars not_dash a = true
           ∧ all_chars is_digit b = true ∧ all_chars is_digit c = true.

(** The number of dashes of a text. *)
Fixpoint dashes (s : string) : nat :=
  match s with
  | String c s' => (if Ascii.eqb c "-" then 1 else 0) + dashes s'
  | EmptyString => 0
  end.

(** A data directory with a file that cannot be read, a file that is
    no JSON file and a file with two orders around an element without
    [orderId]; a screenshot directory with screenshots of both naming
    schemes and one of a synthetic id. *)
Definition sample_disk : Disk :=
  {| dataDir := Some [ {| file_name := "broken.json"; file_content := None |};
                       {| file_name := "notes.txt";
                          file_content := Some [Order (Some "999-0000000-0000000")] |};
                       {| file_name := "transactions-2024-07-05.json";
                          file_content := Some [Order (Some "111-1111111-1111111");
                                                Order None;
                                                Order (Some "222-2222222-2222222")] |} ];
     screenshots := Some [ "transactions-page.png";
                           "order-113-1234567-7654321.png";
                           "order-D01-1234567-1234567-1.png";
                           "order-unknown-1700000000000.png" ] |}.

(** A list whose second page fails to load. *)
Definition failing_site : ListSite :=
  {| analysis_ok := true;
     view := λ p, if p =? 1
                  then Some {| transactionRows := [list_row "111-1111111-1111111" "10.00"];
                               nextPageSpan := true |}
                  else None;
     Date_now := λ _ _, 0%Z;
     debug_ok := true |}.

(** The jobs that the workers of a pool start: the chunks of the
    workers whose page opens. *)
Definition started_jobs (pool : PoolEnv) (new : list BasicTransaction) : list BasicTransaction :=
  if launch_ok pool
  then concat (imap (λ j chunk, if newPage_ok pool j then chunk else [])
                 (chunkArray new PARALLEL_BROWSERS))
  else [].

(** Browsers whose pages are closed: every page operation rejects. *)
Definition closed_pool : PoolEnv :=
  {| launch_ok := true; newPage_ok := λ _, true; job_env := λ _ _, closed_page |}.

(** Browsers of which the second worker cannot open its page. *)
Definition second_page_fails : PoolEnv :=
  {| launch_ok := true; newPage_ok := λ i, negb (i =? 1); job_env := λ _ _, live_page blank |}.

(** The record [r] is the one of the reference [t]: its id and its
    total, [t.total || 0]. *)
Definition describes (r : Transaction) (t : BasicTransaction) : Prop :=
  orderId r = b_orderId t ∧ total r = num_or (b_total t) (Num 0).

(** The page of every worker that has a job opens. *)
Definition pages_open (pool : PoolEnv) (chunks : list (list BasicTransaction)) : Prop :=
  ∀ j chunk, chunks !! j = Some chunk → chunk ≠ [] → newPage_ok pool j = true.

(** The list of [two_orders_site] at a later time, when it shows the
    second order only. *)
Definition later_site : ListSite :=
  {| analysis_ok := true;
     view := λ p, Some {| transactionRows :=
                            if p =? 1 then [list_row "222-2222222-2222222" "20.00"] else [];
                          nextPageSpan := false |};
     Date_now := λ _ _, 1000%Z;
     debug_ok := true |}.

(** A list of one row without order link, read when the clock shows
    [now]. *)
Definition cash_site (now : Z) : ListSite :=
  {| analysis_ok := true;
     view := λ p, Some {| transactionRows :=
                            if p =? 1
                            then [Some (Element "div" [] [Element "span" [] [Text "$5.00"]])]
                            else [];
                          nextPageSpan := false |};
     Date_now := λ _ _, now;
     debug_ok := true |}.

(** Browsers whose order pages show a refund of $12.50. *)
Definition refund_pool : PoolEnv :=
  {| launch_ok := true; newPage_ok := λ _, true; job_env := λ _ _, live_page summary_rows |}.

(** ** Auxiliary definitions for the order page *)

(** What [extractItemDetailsWithElement] yields whatever the element
    holds: a price that is a number and is not negative, the quantity
    [1], no seller and no product URL. *)
Definition item_wellformed (item : Item) : Prop :=
  (∃ q, price item = Num q ∧ (0 <= q)%Q)
  ∧ quantity item = Num 1 ∧ seller item = "" ∧ productUrl item = "".

(** The class [[,\d]]. *)
Definition amount_char (c : ascii) : bool := Ascii.eqb c "," || is_digit c.

(** [s] holds a dollar sign followed by a comma or a digit. *)
Definition shows_amount (s : string) : Prop :=
  ∃ pre c rest, s = pre +:+ String "$" (String c rest) ∧ amount_char c = true.

(** The joined texts of the children of [parent], the text of the
    second search of the refund. *)
Definition siblingTexts (parent : node) : string :=
  join " " (map (fun child => str_or (textContent child) "") (children parent)).

(** ** The command line ([index.ts]) *)

(** [parseInt(s, 10)]: leading white space, an optional sign, then
    the longest run of digits; [NaN] when there is no digit. *)
Definition parseInt (s : string) : number :=
  let s := trimStart s in
  let '(negative, s) :=
    match s with
    | String "-"%char s' => (true, s')
    | String "+"%char s' => (false, s')
    | _ => (false, s)
    end in
  let digits := fst (take_digits s) in
  if String.length digits =? 0 then NaN
  else Num (inject_Z (if negative then - digits_val 0 digits else digits_val 0 digits)).

(** The properties of [CommandLineArgs]; [None] and [false] stand for
    [undefined]. *)
Record CommandLineArgs : Type := {
  email : option string;
  days : option number;
  outputName : option string;
  generateOnly : option string;
  help : bool
}.

Definition no_args : CommandLineArgs :=
  {| email := None; days := None; outputName := None; generateOnly := None; help := false |}.

Definition set_email (v : option string) (args : CommandLineArgs) : CommandLineArgs :=
  {| email := v; days := days args; outputName := outputName args;
     generateOnly := generateOnly args; help := help args |}.

Definition set_days (v : option number) (args : CommandLineArgs) : CommandLineArgs :=
  {| email := email args; days := v; outputName := outputName args;
     generateOnly := generateOnly args; help := help args |}.

Definition set_outputName (v : option string) (args : CommandLineArgs) : CommandLineArgs :=
  {| email := email args; days := days args; outputName := v;
     generateOnly := generateOnly args; help := help args |}.

Definition set_generateOnly (v : option string) (args : CommandLineArgs) : CommandLineArgs :=
  {| email := email args; days := days args; outputName := outputName args;
     generateOnly := v; help := help args |}.

Definition set_help (args : CommandLineArgs) : CommandLineArgs :=
  {| email := email args; days := days args; outputName := outputName args;
     generateOnly := generateOnly args; help := true |}.

(** The [for] loop of [parseArgs] over [argv] from the index of its
    first element on.  An option with a value reads [argv[++i]],
    which is [undefined] after the last word; [parseInt(undefined)]
    is [NaN]. *)
Fixpoint parseArgs_loop (argv : list string) (args : CommandLineArgs) : CommandLineArgs :=
  match argv with
  | [] => args
  | arg :: rest =>
      if String.eqb arg "-e" || String.eqb arg "--email" then
        match rest with
        | [] => set_email None args
        | v :: rest' => parseArgs_loop rest' (set_email (Some v) args)
        end
      else if String.eqb arg "-d" || String.eqb arg "--days" then
        match rest with
        | [] => set_days (Some NaN) args
        | v :: rest' => parseArgs_loop rest' (set_days (Some (parseInt v)) args)
        end
      else if String.eqb arg "-o" || String.eqb arg "--output" then
        match rest with
        | [] => set_outputName None args
        | v :: rest' => parseArgs_loop rest' (set_outputName (Some v) args)
        end
      else if String.eqb arg "-g" || String.eqb arg "--generate" then
        match rest with
        | [] => set_generateOnly None args
        | v :: rest' => parseArgs_loop rest' (set_generateOnly (Some v) args)
        end
      else if String.eqb arg "-h" || String.eqb arg "--help" then
        parseArgs_loop rest (set_help args)
      else parseArgs_loop rest args
  end.

(** [parseArgs()] for the value [process_argv] of [process.argv]. *)
Definition parseArgs (process_argv : list string) : CommandLineArgs :=
  parseArgs_loop (drop 2 process_argv) no_args.

(** The words that [parseArgs] compares with. *)
Definition flags : list string :=
  ["-e"; "--email"; "-d"; "--days"; "-o"; "--output"; "-g"; "--generate"; "-h"; "--help"].

(** A command line as the help text describes it: options, each in
    its short or its long form and with its value, and other words. *)
Inductive CliOption : Type :=
| OptEmail (long : bool) (value : string)
| OptDays (long : bool) (value : string)
| OptOutput (long : bool) (value : string)
| OptGenerate (long : bool) (value : string)
| OptHelp (long : bool)
| OtherWord (word : string).

Definition option_words (o : CliOption) : list string :=
  match o with
  | OptEmail long v => [if long then "--email" else "-e"; v]
  | OptDays long v => [if long then "--days" else "-d"; v]
  | OptOutput long v => [if long then "--output" else "-o"; v]
  | OptGenerate long v => [if long then "--generate" else "-g"; v]
  | OptHelp long => [if long then "--help" else "-h"]
  | OtherWord w => [w]
  end.

Definition option_ok (o : CliOption) : Prop :=
  match o with
  | OtherWord w => w ∉ flags
  | _ => True
  end.

Definition set_option (args : CommandLineArgs) (o : CliOption) : CommandLineArgs :=
  match o with
  | OptEmail _ v => set_email (Some v) args
  | OptDays _ v => set_days (Some (parseInt v)) args
  | OptOutput _ v => set_outputName (Some v) args
  | OptGenerate _ v => set_generateOnly (Some v) args
  | OptHelp _ => set_help args
  | OtherWord _ => args
  end.

(** ** The report ([generator.ts]) *)

Definition not_slash (c : ascii) : bool := negb (Ascii.eqb c "/").

(** A byte between [lo] and [hi]. *)
Definition byte_in (lo hi : nat) (c : ascii) : bool :=
  let n := nat_of_ascii c in (lo <=? n) && (n <=? hi).

(** The bytes that continue the encoding of a character. *)
Definition continuation : regex := Chars (byte_in 128 191).

(** A character of one byte that is no line end (LF, CR). *)
Definition plain_byte (c : ascii) : bool :=
  let n := nat_of_ascii c in (n <? 128) && negb ((n =? 10) || (n =? 13)).

(** The first byte of a character of three bytes, other than the byte
    226 that starts the line ends U+2028 and U+2029. *)
Definition lead3 (c : ascii) : bool :=
  byte_in 224 239 c && negb (nat_of_ascii c =? 226).

(** [.] in a pattern without the [s] flag: one character of the text
    that is no line end (LF, CR, U+2028, U+2029), in its UTF-8 form of
    one to four bytes. *)
Definition dot : regex :=
  Alt (Chars plain_byte)
 (Alt (Cat (Chars (byte_in 192 223)) continuation)
 (Alt (Cat (Chars lead3) (Cat continuation continuation))
 (Alt (Cat (chr "226") (Cat (Chars (byte_in 129 191)) continuation))
 (Alt (Cat (chr "226") (Cat (chr "128")
         (Chars (fun c => byte_in 128 191 c
                          && negb ((nat_of_ascii c =? 168) || (nat_of_ascii c =? 169))))))
      (Cat (Chars (byte_in 240 247)) (Cat continuation (Cat continuation continuation))))))).

(** [s] without the slashes at its end. *)
Fixpoint strip_slashes (s : string) : string :=
  match s with
  | String c s' =>
      match strip_slashes s' with
      | EmptyString => if Ascii.eqb c "/" then EmptyString else String c EmptyString
      | t => String c t
      end
  | EmptyString => EmptyString
  end.

(** What follows the last slash of [s]. *)
Fixpoint last_segment (s : string) : string :=
  match s with
  | String c s' =>
      if all_chars not_slash s' then (if Ascii.eqb c "/" then s' else s)
      else last_segment s'
  | EmptyString => EmptyString
  end.

(** [path.basename(p)] of POSIX paths. *)
Definition basename (p : string) : string := last_segment (strip_slashes p).

(** [s.replace(r, rep)] for a pattern without the [g] flag and a
    replacement text without [$]: the first match, from the left, is
    replaced. *)
Fixpoint replace_regex (r : regex) (rep : string) (s : string) : string :=
  match exec r s None (fun s' _ => Some s') with
  | Some rest => rep +:+ rest
  | None =>
      match s with
      | String c s' => String c (replace_regex r rep s')
      | EmptyString => EmptyString
      end
  end.

(** [/.*screenshots\//] *)
Definition upToScreenshots : regex := Cat (Star dot) (lit "screenshots/").

(** [getRelativePath(absolutePath)] *)
Definition getRelativePath (absolutePath : string) : string :=
  if includes "output/screenshots/" absolutePath then
    "screenshots/" +:+ basename absolutePath
  else if includes "screenshots/" absolutePath then
    replace_regex upToScreenshots "screenshots/" absolutePath
  else if negb (includes "/" absolutePath) then "screenshots/" +:+ absolutePath
  else absolutePath.

(** ** Auxiliary definitions for the report *)

(** The iteration of a star with [n] rounds left, as in [exec]. *)
Definition star_fuel {A} (r : regex) (k : string -> option string -> option A)
    : nat -> string -> option string -> option A :=
  fix star (n : nat) (s : string) (cap : option string) : option A :=
    match n with
    | 0 => k s cap
    | S n' =>
        match exec r s cap (fun s' cap' =>
                if String.length s' <? String.length s
                then star n' s' cap' else None) with
        | Some a => Some a
        | None => k s cap
        end
    end.

(** The configuration of the README: the screenshots are kept in
    [./screenshots]. *)
Definition readme_config : ConfigData :=
  {| baseUrl := "https://www.amazon.com"; screenshotsDir := "./screenshots" |}.

(** * Properties *)

(** ** The model on sample inputs *)

Example parseFloat_samples :
  parseFloat "12.50" = Num (25 # 2) ∧ parseFloat "1234,567.89" = Num 1234
  ∧ parseFloat ".5" = Num (1 # 2) ∧ parseFloat "12." = Num 12 ∧ parseFloat "," = NaN.
Proof. repeat split. Qed.

Example replace_first_only : replace "," "" "1,234,567.89" = "1234,567.89".
Proof. reflexivity. Qed.

Example rowAmount_samples :
  str_match Patterns.rowAmount "Paid $1,234.50 on Monday"
    = Some {| match0 := "$1,234.50"; match1 := Some "1,234.50" |}
  ∧ group1 Patterns.rowAmount "Paid $1,23 or $45" = Some "1"
  ∧ group1 Patterns.rowAmount "no amount, $ alone" = None.
Proof. repeat split. Qed.

Example refundAmount_samples :
  group1 Patterns.refundAmount "Refund Total $12.50" = Some "12.50"
  ∧ group1 Patterns.refundAmount "Total: $1,077.5x" = Some "1,077.5"
  ∧ group1 Patterns.itemPrice "12 items at $3.99" = Some "12".
Proof. repeat split. Qed.

Example trim_samples :
  trim "  Refund Total " = "Refund Total"
  ∧ trim ("Refund Total" +:+ nbsp) = "Refund Total"
  ∧ trim (String "239" (String "187" (String "191" "a b"))
          +:+ String "226" (String "128" (String "168" ""))) = "a b"
  ∧ trim "à " = "à" ∧ trim "a  b  " = "a  b" ∧ trim nbsp = "".
Proof. by vm_compute. Qed.

(** A label that ends with a no-break space is a label: the refund is
    the amount beside the first label. *)
Example refund_nbsp_label :
  is_refund_label (Element "span" [] [Text ("Refund Total" +:+ nbsp)]) = true
  ∧ extractRefund summary_nbsp = Num 7
  ∧ d_refund (extractOrderDetailsWithPage summary_nbsp 4) = Num 7.
Proof. by vm_compute. Qed.

Example date_samples :
  first_date Patterns.datePatterns "Ordered on March 3, 2024." = Some "March 3, 2024"
  ∧ first_date Patterns.datePatterns "on 7/2/2024 or 2024-07-02" = Some "7/2/2024"
  ∧ first_date Patterns.datePatterns "shipped 2024-07-02" = Some "2024-07-02"
  ∧ first_date Patterns.datePatterns "no date here" = None.
Proof. repeat split. Qed.

(** A row whose only evidence of the id is the [href] of its link. *)
Example row_with_order_link :
  extractTransactionFromRow amazon
    (Some (Element "div" []
             [Element "a" [("href", "/gp/css/summary?orderID=113-1234567-1234567&ref=x")]
                [Text "Details"]])) 0
  = Some {| b_orderId := "113-1234567-1234567"; b_date := ""; b_total := Num 0;
            b_orderDetailsUrl :=
              "https://www.amazon.com/gp/css/summary?orderID=113-1234567-1234567&ref=x" |}.
Proof. reflexivity. Qed.

(** A row without id and amount yields nothing; a row with only an
    amount gets an id made from the clock. *)
Example rows_without_id :
  extractTransactionFromRow amazon (Some (Element "div" [] [Text "Pending"])) 17 = None
  ∧ extractTransactionFromRow amazon (Some (Element "div" [] [Text "Refund: $23.40"])) 17
    = Some {| b_orderId := "unknown-17"; b_date := ""; b_total := Num (117 # 5);
              b_orderDetailsUrl := "" |}.
Proof. repeat split. Qed.

Example chunkArray_samples :
  chunkArray [1; 2; 3; 4; 5; 6; 7; 8; 9; 10] 4 = [[1; 2; 3]; [4; 5; 6]; [7; 8; 9]; [10]]
  ∧ chunkArray [1; 2] 4 = [[1]; [2]; []; []]
  ∧ chunkArray ([] : list nat) 4 = [[]; []; []; []].
Proof. repeat split. Qed.

(** ** Partitioning *)

Section Chunks.
Context {T : Type}.
Implicit Types (array : list T) (k i j : nat).

Lemma ceil_div_le a b c : 0 < b → ceil_div a b ≤ c ↔ a ≤ c * b.
Proof.
  intros Hb. unfold ceil_div. split; intros H.
  - destruct (le_lt_dec a (c * b)) as [|Hlt]; [done|].
    assert (S c ≤ (a + b - 1) / b); [|lia].
    apply Nat.div_le_lower_bound; lia.
  - assert ((a + b - 1) / b < S c); [|lia].
    apply Nat.Div0.div_lt_upper_bound; lia.
Qed.

Lemma ceil_div_0 a b : 0 < b → ceil_div a b = 0 ↔ a = 0.
Proof.
  intros Hb. pose proof (ceil_div_le a b 0 Hb). lia.
Qed.

(** [ceil_div a b] is the least [c] with [a <= c * b]. *)
Lemma ceil_div_cover a b : 0 < b → a ≤ ceil_div a b * b.
Proof. intros Hb. by apply ceil_div_le. Qed.

Lemma ceil_div_step a b : 0 < b → 0 < a → ceil_div a b = S (ceil_div (a - b) b).
Proof.
  intros Hb Ha. apply Nat.le_antisymm.
  - apply ceil_div_le; [done|].
    pose proof (ceil_div_cover (a - b) b Hb). simpl. lia.
  - destruct (ceil_div a b) as [|d] eqn:E.
    + apply ceil_div_0 in E; lia.
    + apply le_n_S, ceil_div_le; [done|].
      pose proof (ceil_div_cover a b Hb) as H. rewrite E in H. simpl in H. lia.
Qed.

Lemma chunk_loop_concat array k i : concat (chunk_loop array k i) = drop i array.
Proof.
  funelim (chunk_loop array k i).
  - simpl.
    match goal with IH : concat _ = _ |- _ => rewrite IH end.
    unfold slice. replace (i + S k - i) with (S k) by lia.
    rewrite <- (take_drop (S k) (drop i array)) at 2. rewrite drop_drop. reflexivity.
  - simpl. symmetry. apply drop_ge. lia.
Qed.

Lemma chunk_loop_length array k i :
  length (chunk_loop array k i) = ceil_div (length array - i) (S k).
Proof.
  funelim (chunk_loop array k i).
  - simpl.
    match goal with IH : length _ = _ |- _ => rewrite IH end.
    rewrite (ceil_div_step (length array - i)) by lia.
    do 2 f_equal. lia.
  - simpl. symmetry.
    apply ceil_div_0; lia.
Qed.

Lemma chunk_loop_lookup array k i j c :
  chunk_loop array k i !! j = Some c →
  c = slice (i + j * S k) (i + j * S k + S k) array ∧ i + j * S k < length array.
Proof.
  revert j. funelim (chunk_loop array k i); intros j; simpl.
  - destruct j as [|j]; simpl.
    + intros [= <-]. split; [f_equal; lia | lia].
    + intros Hj.
      match goal with IH : ∀ c j, _ !! j = Some c → _ |- _ => destruct (IH _ _ Hj) as [-> ?] end.
      split; [f_equal; lia | lia].
  - done.
Qed.

Lemma slice_nonempty array i j : i < j → i < length array → slice i j array ≠ [].
Proof.
  intros Hij Hi Hnil. apply (f_equal length) in Hnil. unfold slice in Hnil.
  rewrite length_take, length_drop in Hnil. simpl in Hnil. lia.
Qed.

Lemma chunk_loop_nonempty array k i : Forall (λ c, c ≠ []) (chunk_loop array k i).
Proof.
  apply Forall_lookup. intros j c Hc.
  apply chunk_loop_lookup in Hc as [-> ?]. apply slice_nonempty; lia.
Qed.

Lemma chunkArray_unfold array chunks :
  0 < chunks →
  chunkArray array chunks =
  loop_chunks array chunks ++ replicate (chunks - length (loop_chunks array chunks)) [].
Proof. intros H. destruct chunks; [lia|]. reflexivity. Qed.

Lemma loop_chunks_length array chunks :
  0 < chunks →
  length (loop_chunks array chunks) = ceil_div (length array) (ceil_div (length array) chunks).
Proof.
  intros H. unfold loop_chunks.
  destruct (ceil_div (length array) chunks) as [|k] eqn:E.
  - apply ceil_div_0 in E; [|done]. rewrite E. reflexivity.
  - rewrite chunk_loop_length. f_equal. lia.
Qed.

Lemma loop_chunks_length_le array chunks :
  0 < chunks → length (loop_chunks array chunks) ≤ chunks.
Proof.
  intros H. rewrite loop_chunks_length by done.
  destruct (ceil_div (length array) chunks) as [|k] eqn:E.
  - apply ceil_div_0 in E; [|done]. rewrite E. unfold ceil_div. simpl. lia.
  - apply ceil_div_le; [lia|]. rewrite <- E, Nat.mul_comm. by apply ceil_div_cover.
Qed.

Lemma loop_chunks_concat array chunks : 0 < chunks → concat (loop_chunks array chunks) = array.
Proof.
  intros H. unfold loop_chunks.
  destruct (ceil_div (length array) chunks) as [|k] eqn:E.
  - apply ceil_div_0 in E; [|done]. by destruct array.
  - by rewrite chunk_loop_concat.
Qed.

Lemma concat_replicate_nil n : concat (replicate n ([] : list T)) = [].
Proof. induction n; simpl; auto. Qed.

Lemma chunkArray_concat array chunks : 0 < chunks → concat (chunkArray array chunks) = array.
Proof.
  intros H. rewrite chunkArray_unfold by done.
  rewrite concat_app, concat_replicate_nil, app_nil_r.
  by apply loop_chunks_concat.
Qed.

End Chunks.

(** C2.  For a pool size of at least one, [chunkArray] returns exactly
    [chunks] chunks; their concatenation, in chunk order and then in
    the order inside each chunk, is the input list; chunk [j] is the
    contiguous slice of the input that starts at [j * size], for
    [size = ceil (length / chunks)]; so the element at offset [q] of
    chunk [j] is the input element at position [j * size + q], with
    [q < size]: every position of the input lies in exactly one chunk,
    once. *)
Theorem chunkArray_cover {T} (array : list T) (chunks : nat) :
  1 ≤ chunks →
  let size := ceil_div (length array) chunks in
  length (chunkArray array chunks) = chunks
  ∧ concat (chunkArray array chunks) = array
  ∧ (∀ j c, chunkArray array chunks !! j = Some c →
       c = slice (j * size) (j * size + size) array)
  ∧ (∀ j c q x, chunkArray array chunks !! j = Some c → c !! q = Some x →
       q < size ∧ array !! (j * size + q) = Some x).
Proof.
  intros Hc size.
  assert (Hslices : ∀ j c, chunkArray array chunks !! j = Some c →
            c = slice (j * size) (j * size + size) array).
  { intros j c. rewrite chunkArray_unfold by lia.
    rewrite lookup_app_Some. intros [Hj | [Hlen Hj]].
    - unfold loop_chunks in Hj. fold size in Hj. destruct size as [|k]; [done|].
      apply chunk_loop_lookup in Hj as [-> _]. reflexivity.
    - apply lookup_replicate in Hj as [-> _].
      rewrite loop_chunks_length in Hlen by lia. fold size in Hlen.
      unfold slice. symmetry. rewrite drop_ge; [by rewrite take_nil|].
      destruct size as [|k] eqn:E.
      + apply ceil_div_0 in E; lia.
      + pose proof (ceil_div_cover (length array) (S k)). nia. }
  split_and!.
  - rewrite chunkArray_unfold by lia. rewrite length_app, length_replicate.
    pose proof (loop_chunks_length_le array chunks). lia.
  - apply chunkArray_concat. lia.
  - exact Hslices.
  - intros j c q x Hj Hq. apply Hslices in Hj. subst c. unfold slice in Hq.
    apply lookup_take_Some in Hq as [Hq Hlt]. rewrite lookup_drop in Hq.
    split; [lia | done].
Qed.

Lemma chunkArray_cover_witness :
  let jobs := ["a"; "b"; "c"; "d"; "e"] in
  length (chunkArray jobs 4) = 4
  ∧ concat (chunkArray jobs 4) = jobs
  ∧ chunkArray jobs 4 = [["a"; "b"]; ["c"; "d"]; ["e"]; []].
Proof.
  pose proof (chunkArray_cover ["a"; "b"; "c"; "d"; "e"] 4 ltac:(lia)) as (Hlen & Hcat & _).
  split_and!; [exact Hlen | exact Hcat | reflexivity].
Defined.

(** C8 (amended).  For a pool size of at least one, all chunks are
    non-empty exactly when [(chunks - 1) * ceil (M / chunks) < M] for
    the number [M] of jobs.  This holds whenever [M > (chunks - 1)^2];
    having [M >= chunks] is not enough. *)
Theorem chunkArray_nonempty_iff {T} (array : list T) (chunks : nat) :
  1 ≤ chunks →
  (Forall (λ c, c ≠ []) (chunkArray array chunks)
     ↔ (chunks - 1) * ceil_div (length array) chunks < length array)
  ∧ ((chunks - 1) * (chunks - 1) < length array →
     Forall (λ c, c ≠ []) (chunkArray array chunks)).
Proof.
  intros Hc.
  set (M := length array). set (size := ceil_div M chunks).
  assert (Hiff : Forall (λ c, c ≠ []) (chunkArray array chunks) ↔ (chunks - 1) * size < M).
  { rewrite chunkArray_unfold by lia. rewrite Forall_app.
    pose proof (loop_chunks_length_le array chunks ltac:(lia)) as Hle.
    pose proof (loop_chunks_length array chunks ltac:(lia)) as Hlen.
    fold M size in Hlen.
    assert (Hloop : Forall (λ c, c ≠ []) (loop_chunks array chunks)).
    { unfold loop_chunks. destruct (ceil_div _ _); [constructor | apply chunk_loop_nonempty]. }
    assert (Hsize : size = 0 ↔ M = 0) by (apply ceil_div_0; lia).
    destruct (decide (M = 0)) as [HM | HM].
    - assert (size = 0) by tauto. split; [|lia].
      intros [_ Hpad]. exfalso.
      assert (Hn : length (loop_chunks array chunks) = 0).
      { rewrite Hlen. replace M with 0. replace size with 0. reflexivity. }
      rewrite Hn in Hpad. destruct chunks; [lia|]. simpl in Hpad.
      by inversion Hpad.
    - assert (0 < size) by lia.
      pose proof (ceil_div_le M size (chunks - 1) ltac:(lia)) as Hchar.
      rewrite <- Hlen in Hchar.
      split.
      + intros [_ Hpad].
        destruct (decide (length (loop_chunks array chunks) = chunks)) as [E | E]; [lia|].
        exfalso. destruct (chunks - length (loop_chunks array chunks)) as [|n] eqn:En; [lia|].
        simpl in Hpad. by inversion Hpad.
      + intros Hlt. split; [done|].
        replace (chunks - length (loop_chunks array chunks)) with 0 by lia. constructor. }
  split; [exact Hiff|].
  intros Hsq. apply Hiff.
  pose proof (ceil_div_le M chunks (size - 1) ltac:(lia)) as Hmin.
  pose proof (ceil_div_cover M chunks ltac:(lia)) as Hcov. fold size in Hmin, Hcov.
  assert (0 < size).
  { destruct (decide (size = 0)) as [E | E]; [|lia].
    apply ceil_div_0 in E; [|lia]. fold M in Hsq. lia. }
  assert (Hprev : (size - 1) * chunks < M) by lia.
  destruct (le_lt_dec M ((chunks - 1) * size)) as [Hbad | ]; [|done].
  exfalso. fold M in Hsq. nia.
Qed.

Lemma chunkArray_nonempty_iff_witness :
  Forall (λ c : list nat, c ≠ [])
    (chunkArray [1; 2; 3; 4; 5; 6; 7; 8; 9; 10] 4).
Proof.
  apply (chunkArray_nonempty_iff [1; 2; 3; 4; 5; 6; 7; 8; 9; 10] 4); [lia|].
  simpl. lia.
Defined.

(** Five jobs for four workers: the fourth chunk is empty although
    there are at least as many jobs as workers. *)
Lemma chunkArray_empty_chunk_counterexample :
  let jobs := [1; 2; 3; 4; 5] in
  4 ≤ length jobs
  ∧ chunkArray jobs 4 = [[1; 2]; [3; 4]; [5]; []]
  ∧ ¬ Forall (λ c, c ≠ []) (chunkArray jobs 4).
Proof.
  simpl. split_and!; [lia | reflexivity |].
  intros H. apply Forall_lookup_1 with (i := 3) (x := []) in H; [done | reflexivity].
Qed.

(** ** The list pager *)

Section Pager.
Variable config : ConfigData.

Lemma rows_loop_app now i rows all :
  rows_loop config now i rows all = all ++ row_refs config now i rows.
Proof.
  revert i all. induction rows as [|row rows IH]; intros i all; simpl.
  - by rewrite app_nil_r.
  - rewrite IH. unfold row_refs. simpl. rewrite Nat.add_0_r.
    assert (Heq : imap ((λ j row, extractTransactionFromRow config row (now (i + j))) ∘ S) rows
                  = imap (λ j row, extractTransactionFromRow config row (now (S i + j))) rows).
    { apply imap_ext. intros j x _. simpl. do 2 f_equal. lia. }
    rewrite Heq.
    destruct (extractTransactionFromRow config row (now i)); simpl.
    + by rewrite <- app_assoc.
    + done.
Qed.

Lemma paginate_bounds site page all clicked :
  page ≤ 10 →
  page ≤ currentPage (paginate config site page all clicked) ≤ 11
  ∧ clicked ≤ clicks (paginate config site page all clicked) ≤ clicked + (11 - page).
Proof.
  funelim (paginate config site page all clicked); intros Hp;
    cbn [currentPage clicks outcome walk_caught]; lia.
Qed.

(** Rewrites with the case equations that the elimination of
    [paginate] leaves in the context. *)
Ltac page_cases :=
  unfold page_refs;
  repeat match goal with
         | E : view _ _ = _ |- _ => rewrite E; clear E
         | E : transactionRows _ = _ |- _ => rewrite E; clear E
         end.

Lemma paginate_returns site page all clicked :
  page ≤ 10 →
  (∀ p, is_Some (view site p)) →
  outcome (paginate config site page all clicked) =
    Returned (all ++ concat (map (page_refs config site)
                (seq page (S (currentPage (paginate config site page all clicked) `min` 10) - page))))
  ∧ clicks (paginate config site page all clicked)
    = clicked + (currentPage (paginate config site page all clicked) - page).
Proof.
  funelim (paginate config site page all clicked); intros Hp Hok;
    cbn [currentPage clicks outcome walk_caught].
  - destruct (Hok page) as [? E]. congruence.
  - replace (S (page `min` 10) - page) with 1 by lia.
    cbn [seq map concat]. page_cases. simpl.
    split; [by rewrite app_nil_r | lia].
  - replace (S (page `min` 10) - page) with 1 by lia.
    cbn [seq map concat]. page_cases. rewrite rows_loop_app, app_nil_r.
    split; [done | lia].
  - destruct (Hok (page + 1)) as [? E]. congruence.
  - replace (S ((page + 1) `min` 10) - page) with 1 by lia.
    cbn [seq map concat]. rewrite rows_loop_app, app_nil_r.
    unfold page_refs at 1.
    repeat match goal with
           | E : view _ page = _ |- _ => rewrite E; clear E
           | E : transactionRows _ = _ |- _ => rewrite E; clear E
           end.
    split; [done | lia].
  - match goal with IH : _ → _ → _ ∧ _ |- _ =>
      destruct (IH ltac:(lia) Hok) as [IHo IHc] end.
    pose proof (paginate_bounds site (page + 1)
                  (rows_loop config (Date_now site page) 0 (o :: l) allTransactions)
                  (clicked + 1) ltac:(lia)) as [Hb _].
    rewrite IHo, IHc. split; [|lia].
    set (cp := currentPage _) in *.
    replace (S (cp `min` 10) - page) with (S (S (cp `min` 10) - (page + 1))) by lia.
    cbn [seq map concat]. rewrite Nat.add_1_r.
    rewrite rows_loop_app, <- app_assoc. do 3 f_equal.
    unfold page_refs.
    repeat match goal with
           | E : view _ page = _ |- _ => rewrite E; clear E
           | E : transactionRows _ = _ |- _ => rewrite E; clear E
           end.
    reflexivity.
Qed.

Lemma paginate_always_next site page all clicked :
  page ≤ 10 →
  (∀ p, ∃ v, view site p = Some v ∧ transactionRows v ≠ [] ∧ nextPageSpan v = true) →
  currentPage (paginate config site page all clicked) = 11.
Proof.
  funelim (paginate config site page all clicked); intros Hp Hnext;
    cbn [currentPage walk_caught];
    try (match goal with E : view _ ?p = _ |- _ =>
           destruct (Hnext p) as (v' & Ev & Hrows & Hspan); congruence end).
  - lia.
  - match goal with IH : _ → _ → _ |- _ => apply IH; [lia | done] end.
Qed.

End Pager.

(** C5.  On every site the walk of the list ends, after at most ten
    clicks on "Next Page" and with [currentPage] at most eleven.  When
    no browser operation rejects, the walk returns a list of
    references.  When moreover every page has rows and a "Next Page"
    control, the walk stops at the cap after exactly ten clicks and
    returns, not as an error, the references of all rows of the ten
    pages it has read. *)
Theorem pagination_cap (config : ConfigData) (site : ListSite) :
  clicks (scrapeTransactionList config site) ≤ 10
  ∧ currentPage (scrapeTransactionList config site) ≤ 11
  ∧ (analysis_ok site = true → (∀ p, is_Some (view site p)) →
     ∃ l, outcome (scrapeTransactionList config site) = Returned l)
  ∧ (analysis_ok site = true →
     (∀ p, ∃ v, view site p = Some v ∧ transactionRows v ≠ [] ∧ nextPageSpan v = true) →
     clicks (scrapeTransactionList config site) = 10
     ∧ outcome (scrapeTransactionList config site)
       = Returned (concat (map (page_refs config site) (seq 1 10)))).
Proof.
  unfold scrapeTransactionList. destruct (analysis_ok site) eqn:Ha.
  - pose proof (paginate_bounds config site 1 [] 0 ltac:(lia)) as [Hcp Hcl].
    split_and!; [lia | lia | |].
    + intros _ Hsome.
      destruct (paginate_returns config site 1 [] 0 ltac:(lia) Hsome) as [Ho _].
      eexists. exact Ho.
    + intros _ Hnext.
      assert (Hsome : ∀ p, is_Some (view site p)).
      { intros p. destruct (Hnext p) as (v & -> & _). by eexists. }
      pose proof (paginate_returns config site 1 [] 0 ltac:(lia) Hsome) as [Ho Hc].
      pose proof (paginate_always_next config site 1 [] 0 ltac:(lia) Hnext) as Hcap.
      rewrite Hcap in Ho, Hc. split; [lia|]. rewrite Ho. reflexivity.
  - cbn [clicks currentPage walk_caught]. split_and!; [lia | lia | done | done].
Qed.

Lemma pagination_cap_witness :
  let w := scrapeTransactionList amazon
             endless_site in
  clicks w = 10 ∧ ∃ l, outcome w = Returned l ∧ length l = 10.
Proof.
  destruct (pagination_cap amazon endless_site) as (_ & _ & _ & H).
  destruct H as [Hc Ho]; [reflexivity | |].
  - intros p. eexists. split; [reflexivity|]. split; [discriminate | reflexivity].
  - split; [exact Hc|]. eexists. split; [exact Ho | reflexivity].
Defined.

(** C9 (amended).  When no browser operation rejects, the pager
    returns the references of the pages it has read, in page order
    and, inside a page, in row order: one reference for each row that
    yields one.  No reference is removed, whatever its id. *)
Theorem pager_returns_every_row (config : ConfigData) (site : ListSite) :
  analysis_ok site = true →
  (∀ p, is_Some (view site p)) →
  outcome (scrapeTransactionList config site)
  = Returned (concat (map (page_refs config site)
               (seq 1 (currentPage (scrapeTransactionList config site) `min` 10)))).
Proof.
  intros Ha Hok. unfold scrapeTransactionList. rewrite Ha.
  destruct (paginate_returns config site 1 [] 0 ltac:(lia) Hok) as [Ho _].
  rewrite Ho. simpl. by rewrite Nat.sub_0_r.
Qed.

Lemma pager_returns_every_row_witness :
  ∃ l, outcome (scrapeTransactionList amazon repeating_site) = Returned l ∧ length l = 2.
Proof.
  eexists. split.
  - apply (pager_returns_every_row amazon repeating_site); [reflexivity|].
    intros p. by eexists.
  - reflexivity.
Defined.

(** The same row on two pages yields two references with the same id. *)
Lemma pager_duplicate_id_counterexample :
  ∃ l, outcome (scrapeTransactionList amazon repeating_site) = Returned l
       ∧ map b_orderId l = ["113-1234567-1234567"; "113-1234567-1234567"]
       ∧ ¬ NoDup (map b_orderId l).
Proof.
  eexists. split; [reflexivity|]. split; [reflexivity|].
  intros H. apply NoDup_cons in H as [H _]. apply H. vm_compute. left.
Qed.

(** ** Amounts *)

(** C10 (the code at the failing input).  For a row whose text holds
    the amount "$1,234,567.89", the pattern matches the whole amount,
    but only its first separator is removed before [parseFloat], which
    stops at the second: the extracted amount is 1234, not 1234567.89.
    The price of an item goes the same way. *)
Theorem amount_two_separators (config : ConfigData) (now : Z) :
  group1 Patterns.rowAmount (textContent million_row) = Some "1,234,567.89"
  ∧ replace "," "" "1,234,567.89" = "1234,567.89"
  ∧ b_total <$> extractTransactionFromRow config (Some million_row) now = Some (Num 1234)
  ∧ price (extractItemDetailsWithElement million_item) = Num 1234
  ∧ ¬ num_eq (Num 1234) (Num (123456789 # 100)).
Proof.
  split_and!; try (vm_compute; reflexivity).
  unfold num_eq. intros H. vm_compute in H. discriminate.
Qed.

(** With one separator the amount is the one that the text denotes. *)
Example amount_one_separator :
  b_total <$> extractTransactionFromRow amazon
                (Some (Element "div" [] [Text "Paid $1,234.50 by card"])) 0
  = Some (Num (2469 # 2)).
Proof. vm_compute. reflexivity. Qed.

(** ** The refund *)

Lemma refund_pattern_truthy text m :
  group1 Patterns.refundAmount text = Some m → truthy text = true.
Proof.
  destruct text; [discriminate | reflexivity].
Qed.

Lemma refund_loop_first pre element parent post r0 m :
  Forall (λ e, is_refund_label e.1 = false ∨ refund_near e.2 = None) pre →
  is_refund_label element = true →
  group1 Patterns.refundAmount (textContent parent) = Some m →
  refund_loop (pre ++ (element, Some parent) :: post) r0 = amount_of m.
Proof.
  intros Hpre Hlabel Hm. induction Hpre as [|[e p] pre [He | He] _ IH]; simpl.
  - rewrite Hlabel. unfold refund_near.
    by rewrite (refund_pattern_truthy _ _ Hm), Hm.
  - simpl in He. by rewrite He.
  - simpl in He. rewrite He. by destruct (is_refund_label e).
Qed.

Lemma extractOrderDetailsWithPage_refund doc steps :
  3 ≤ steps → d_refund (extractOrderDetailsWithPage doc steps) = extractRefund doc.
Proof.
  intros H. unfold extractOrderDetailsWithPage.
  replace (3 <=? steps) with true by (symmetry; apply Nat.leb_le; lia).
  by destruct (4 <=? steps).
Qed.

(** C7 (amended).  Take the [span], [div] and [td] elements of a
    detail document in document order.  If an element whose trimmed
    text is exactly "Refund Total" has a parent in whose full text the
    first match of the currency pattern is "$12.50", and every earlier
    element either is no such label or has no amount next to it, then
    the refund of the order resolves to 12.50. *)
Theorem refund_total_resolves (doc : node) (steps : nat)
    (pre post : list (node * option node)) (element parent : node) :
  3 ≤ steps →
  page_query_all (any_of [by_tag "span"; by_tag "div"; by_tag "td"]) doc
    = pre ++ (element, Some parent) :: post →
  Forall (λ e, is_refund_label e.1 = false ∨ refund_near e.2 = None) pre →
  is_refund_label element = true →
  group1 Patterns.refundAmount (textContent parent) = Some "12.50" →
  d_refund (extractOrderDetailsWithPage doc steps) = Num (25 # 2).
Proof.
  intros Hsteps Hdoc Hpre Hlabel Hm.
  rewrite extractOrderDetailsWithPage_refund by done.
  unfold extractRefund. rewrite Hdoc.
  by rewrite (refund_loop_first _ _ _ _ _ _ Hpre Hlabel Hm).
Qed.

Lemma refund_total_resolves_witness :
  mentions_refund (textContent summary_rows)
  ∧ d_refund (extractOrderDetailsWithPage summary_rows 4) = Num (25 # 2).
Proof.
  split.
  - exists "Grand Total$30.00 ", " ", "". reflexivity.
  - eapply (refund_total_resolves summary_rows 4
              [(_, _); (_, _); (_, _); (_, _); (_, _)] _ _ _ ltac:(lia)).
    + vm_compute. reflexivity.
    + repeat constructor.
    + reflexivity.
    + vm_compute. reflexivity.
Defined.

(** The text of the document contains "Refund Total" and then
    "$12.50", the label is the exact text of a [span], and yet the
    refund resolves to 30: the first amount in the text of the parent
    of the label wins. *)
Lemma refund_first_amount_counterexample :
  mentions_refund (textContent summary_flat)
  ∧ d_refund (extractOrderDetailsWithPage summary_flat 4) = Num 30
  ∧ ¬ num_eq (d_refund (extractOrderDetailsWithPage summary_flat 4)) (Num (25 # 2)).
Proof.
  split_and!.
  - exists "Grand Total$30.00", "", "". reflexivity.
  - vm_compute. reflexivity.
  - intros H. vm_compute in H. discriminate.
Qed.

(** ** One job and the worker loop *)

Lemma str_or_empty s : str_or s "" = s.
Proof. unfold str_or. destruct (String.eqb s "") eqn:E; [|done]. by apply String.eqb_eq in E. Qed.

(** Case analysis along the branches of [scrapeOrderDetailsWithPage]. *)
Ltac scrape_cases config transaction env doc st :=
  unfold scrapeOrderDetailsWithPage, takeSmartOrderScreenshot;
  destruct (if truthy (b_orderDetailsUrl transaction) then goto env else Some doc) as [?d|];
  [ destruct (decide (screenshotPath_of config transaction ∈ files (log_job transaction st)));
    [ | destruct (smart_ok env || fallback_ok env) eqn:?Hwritten ];
    cbn [negb];
    try (destruct (truthy (b_date transaction)) eqn:?Hdate;
         [ | destruct (body_ok env) eqn:?Hbody;
             [ match goal with
               | |- context [page_query ?sel ?d] => destruct (page_query sel d) eqn:?Hquery
               end | ] ])
  | ];
  cbn [fst snd].

Lemma scrape_orderId config transaction env doc st :
  orderId (scrapeOrderDetailsWithPage config transaction env doc st).1.1 = b_orderId transaction.
Proof.
  scrape_cases config transaction env doc st; apply str_or_empty.
Qed.

Lemma scrape_jobs config transaction env doc st :
  jobs (scrapeOrderDetailsWithPage config transaction env doc st).2 = jobs st ++ [transaction].
Proof.
  scrape_cases config transaction env doc st; reflexivity.
Qed.

Lemma worker_loop_length config env i chunk doc st results :
  length (worker_loop config env i chunk doc st results).1
  = length results + length chunk + length (failed_delays env i (length chunk)).
Proof.
  revert i doc st results. induction chunk as [|t chunk IH]; intros i doc st results.
  - simpl. unfold failed_delays. simpl. lia.
  - cbn [worker_loop].
    destruct (scrapeOrderDetailsWithPage config t (env i) doc st) as [[d doc'] st'].
    rewrite IH. unfold failed_delays. cbn [length seq]. rewrite filter_cons.
    destruct (delay_ok (env i)) eqn:E.
    + rewrite decide_False by done. rewrite length_app. simpl. lia.
    + rewrite decide_True by done. rewrite !length_app. simpl. lia.
Qed.

(** When every delay between jobs resolves, the worker returns one
    record per job, in the order of the chunk. *)
Lemma worker_loop_one_per_job config env i chunk doc st results :
  (∀ j, delay_ok (env j) = true) →
  map orderId (worker_loop config env i chunk doc st results).1
  = map orderId results ++ map b_orderId chunk.
Proof.
  intros Hd. revert i doc st results.
  induction chunk as [|t chunk IH]; intros i doc st results.
  - simpl. by rewrite app_nil_r.
  - cbn [worker_loop].
    pose proof (scrape_orderId config t (env i) doc st) as Hid.
    destruct (scrapeOrderDetailsWithPage config t (env i) doc st) as [[d doc'] st'].
    rewrite Hd, IH, map_app. simpl in *. rewrite Hid. by rewrite <- app_assoc.
Qed.

(** C3 (the code at the failing input).  The worker returns one record
    per job and one more for every job after which the delay between
    jobs rejects: the record of such a job is already in the results
    when the [catch] of the loop pushes the basic record.  For a chunk
    of one job on a page that has been closed, the worker returns two
    records for that job. *)
Theorem worker_results_count (config : ConfigData) (env : nat → JobEnv)
    (chunk : list BasicTransaction) (doc : node) (st : State) :
  length (worker_loop config env 0 chunk doc st []).1
  = length chunk + length (failed_delays env 0 (length chunk))
  ∧ (worker_loop config (λ _, closed_page) 0 [sample_job] doc st []).1
    = [basicRecord sample_job; createTransaction (of_basic sample_job)]
  ∧ map orderId (worker_loop config (λ _, closed_page) 0 [sample_job] doc st []).1
    = ["113-1234567-1234567"; "113-1234567-1234567"].
Proof.
  split_and!.
  - by rewrite worker_loop_length.
  - reflexivity.
  - reflexivity.
Qed.

(** ** The screenshot cache *)

Lemma scrape_with_file config transaction env doc st :
  screenshotPath_of config transaction ∈ files st →
  scrapeOrderDetailsWithPage config transaction env doc st
  = match (if truthy (b_orderDetailsUrl transaction) then goto env else Some doc) with
    | None => (basicRecord transaction, doc, log_job transaction st)
    | Some d =>
        (if page_resolves transaction env doc
         then (scrapeOrderDetailsWithPage config transaction env doc st).1.1
         else basicRecord transaction, d, log_job transaction st)
    end.
Proof.
  intros Hin. unfold scrapeOrderDetailsWithPage, page_resolves.
  destruct (if truthy (b_orderDetailsUrl transaction) then goto env else Some doc) as [d|];
    [|reflexivity].
  rewrite decide_True by done. cbn [negb].
  destruct (truthy (b_date transaction)); [reflexivity|]. cbn [orb].
  destruct (body_ok env); cbn [andb]; [|reflexivity].
  destruct (page_query (by_tag "body") d) eqn:E.
  - rewrite bool_decide_eq_true_2 by (by eexists). reflexivity.
  - rewrite bool_decide_eq_false_2 by (by intros [? ?]). reflexivity.
Qed.

Lemma scrape_captures_le config transaction env doc st :
  length (captures (scrapeOrderDetailsWithPage config transaction env doc st).2)
  ≤ S (length (captures st)).
Proof.
  scrape_cases config transaction env doc st; cbn [captures log_job];
    rewrite ?length_app; simpl; lia.
Qed.

Lemma scrape_file_written config transaction env doc st :
  captures (scrapeOrderDetailsWithPage config transaction env doc st).2 = captures st
  ∨ (smart_ok env || fallback_ok env = true →
     screenshotPath_of config transaction
       ∈ files (scrapeOrderDetailsWithPage config transaction env doc st).2).
Proof.
  scrape_cases config transaction env doc st; cbn [captures files log_job];
    first [ by left | right; intros _; set_solver | right; intros ?; congruence ].
Qed.

Lemma scrape_references config transaction env doc st :
  screenshotPath_of config transaction ∈ files st ∨ smart_ok env || fallback_ok env = true →
  page_resolves transaction env doc = true →
  orderScreenshot (scrapeOrderDetailsWithPage config transaction env doc st).1.1
  = screenshotPath_of config transaction.
Proof.
  intros Hshot. unfold page_resolves.
  scrape_cases config transaction env doc st; intros Hres;
    try apply str_or_empty; try discriminate.
  all: try (destruct Hshot as [Hin | Hw]; [by cbn in * | congruence]).
  all: rewrite ?Hdate, ?Hbody, ?Hquery in Hres; cbn in Hres; try discriminate.
  all: rewrite bool_decide_eq_false_2 in Hres by (by intros [? ?]); discriminate.
Qed.

Lemma scrape_skips config transaction env doc st :
  screenshotPath_of config transaction ∈ files st →
  captures (scrapeOrderDetailsWithPage config transaction env doc st).2 = captures st
  ∧ files (scrapeOrderDetailsWithPage config transaction env doc st).2 = files st.
Proof.
  intros Hin.
  scrape_cases config transaction env doc st; cbn [captures files log_job]; try done.
  all: by cbn in *.
Qed.

Lemma scrape_like_captured config transaction env doc st :
  screenshotPath_of config transaction ∈ files st →
  (scrapeOrderDetailsWithPage config transaction env doc st).1.1
  = (scrapeOrderDetailsWithPage config transaction (capturing env) doc
       (without_file (screenshotPath_of config transaction) st)).1.1.
Proof.
  intros Hin. unfold scrapeOrderDetailsWithPage, takeSmartOrderScreenshot.
  cbn [goto capturing smart_ok fallback_ok body_ok details_steps orb].
  destruct (if truthy (b_orderDetailsUrl transaction) then goto env else Some doc) as [d|];
    [|reflexivity].
  rewrite decide_True by done.
  rewrite decide_False by (cbn [files without_file log_job]; apply not_elem_of_difference;
                           right; by apply elem_of_singleton).
  cbn [negb].
  destruct (truthy (b_date transaction)); [reflexivity|].
  destruct (body_ok env); [|reflexivity].
  by destruct (page_query (by_tag "body") d).
Qed.

Lemma scrape_file_present config transaction env doc st :
  page_resolves transaction env doc = true →
  smart_ok env || fallback_ok env = true →
  screenshotPath_of config transaction
    ∈ files (scrapeOrderDetailsWithPage config transaction env doc st).2.
Proof.
  unfold page_resolves.
  scrape_cases config transaction env doc st; intros Hres Hw;
    cbn [files log_job] in *; try done; try congruence; set_solver.
Qed.

(** C6.  When the file [order-<id>.png] of a job exists, the job does
    not call the capture and writes no file; its record is the one of
    a job whose capture resolves and, when the page operations of the
    job resolve, it references that path.  So two jobs in a row for
    the same path, the first of which writes the file if it captures,
    call the capture at most once, and both records reference the
    path when the page operations resolve. *)
Theorem capture_idempotent (config : ConfigData) (transaction : BasicTransaction) :
  (∀ env doc st,
     screenshotPath_of config transaction ∈ files st →
     captures (scrapeOrderDetailsWithPage config transaction env doc st).2 = captures st
     ∧ files (scrapeOrderDetailsWithPage config transaction env doc st).2 = files st
     ∧ (scrapeOrderDetailsWithPage config transaction env doc st).1.1
       = (scrapeOrderDetailsWithPage config transaction (capturing env) doc
            (without_file (screenshotPath_of config transaction) st)).1.1
     ∧ (page_resolves transaction env doc = true →
        orderScreenshot (scrapeOrderDetailsWithPage config transaction env doc st).1.1
        = screenshotPath_of config transaction))
  ∧ (∀ env1 env2 doc st,
       smart_ok env1 || fallback_ok env1 = true →
       let r1 := scrapeOrderDetailsWithPage config transaction env1 doc st in
       let r2 := scrapeOrderDetailsWithPage config transaction env2 r1.1.2 r1.2 in
       length (captures r2.2) ≤ S (length (captures st))
       ∧ (page_resolves transaction env1 doc = true →
          page_resolves transaction env2 r1.1.2 = true →
          orderScreenshot r1.1.1 = screenshotPath_of config transaction
          ∧ orderScreenshot r2.1.1 = screenshotPath_of config transaction)).
Proof.
  split.
  - intros env doc st Hin.
    destruct (scrape_skips config transaction env doc st Hin) as [Hc Hf].
    split_and!; [done | done | by apply scrape_like_captured |].
    intros Hres. apply scrape_references; [by left | done].
  - intros env1 env2 doc st Hw r1 r2. split.
    + pose proof (scrape_captures_le config transaction env1 doc st) as H1.
      destruct (scrape_file_written config transaction env1 doc st) as [Hsame | Hfile].
      * pose proof (scrape_captures_le config transaction env2 r1.1.2 r1.2) as H2.
        subst r1 r2. rewrite Hsame in H2. exact H2.
      * destruct (scrape_skips config transaction env2 r1.1.2 r1.2 (Hfile Hw)) as [Hc _].
        subst r1 r2. rewrite Hc. exact H1.
    + intros Hres1 Hres2. split.
      * apply scrape_references; [by right | done].
      * apply scrape_references; [|done].
        left. by apply scrape_file_present.
Qed.

Lemma capture_idempotent_witness :
  let st := {| processedOrders := ∅;
               files := {[ "screenshots/order-113-1234567-1234567.png" ]};
               captures := []; jobs := [] |} in
  captures (scrapeOrderDetailsWithPage amazon sample_job (live_page blank) blank st).2 = []
  ∧ orderScreenshot (scrapeOrderDetailsWithPage amazon sample_job (live_page blank) blank st).1.1
    = "screenshots/order-113-1234567-1234567.png".
Proof.
  intros st.
  destruct (capture_idempotent amazon sample_job) as [H _].
  assert (Hin : "screenshots/order-113-1234567-1234567.png"
                 ∈ ({[ "screenshots/order-113-1234567-1234567.png" ]} : gset string))
    by (by apply elem_of_singleton).
  destruct (H (live_page blank) blank st Hin) as (Hc & _ & _ & Hs).
  split; [exact Hc | exact (Hs eq_refl)].
Defined.

(** ** The dedup filter and the dispatch of jobs *)

Lemma worker_loop_jobs config env i chunk doc st results :
  jobs (worker_loop config env i chunk doc st results).2 = jobs st ++ chunk.
Proof.
  revert i doc st results. induction chunk as [|t chunk IH]; intros i doc st results.
  - simpl. by rewrite app_nil_r.
  - cbn [worker_loop].
    pose proof (scrape_jobs config t (env i) doc st) as Hj.
    destruct (scrapeOrderDetailsWithPage config t (env i) doc st) as [[d doc'] st'].
    rewrite IH. cbn [jobs mark_processed snd] in *. rewrite Hj. by rewrite <- app_assoc.
Qed.

Lemma worker_jobs config pool index chunk st :
  jobs (worker config pool index chunk st).2
  = jobs st ++ (if newPage_ok pool index then chunk else []).
Proof.
  unfold worker. destruct chunk as [|t chunk].
  - simpl. by destruct (newPage_ok pool index); rewrite app_nil_r.
  - cbn [length Nat.eqb]. destruct (newPage_ok pool index).
    + pose proof (worker_loop_jobs config (job_env pool index) 0 (t :: chunk) blank st []) as Hj.
      destruct (worker_loop config (job_env pool index) 0 (t :: chunk) blank st []).
      exact Hj.
    + simpl. by rewrite app_nil_r.
Qed.

(** The jobs started by the workers: the chunks of the workers whose
    page opens. *)
Lemma run_workers_jobs config pool index chunks st :
  jobs (run_workers config pool index chunks st).2
  = jobs st ++ concat (imap (λ j chunk, if newPage_ok pool (index + j) then chunk else []) chunks).
Proof.
  revert index st. induction chunks as [|chunk chunks IH]; intros index st.
  - simpl. by rewrite app_nil_r.
  - cbn [run_workers].
    pose proof (worker_jobs config pool index chunk st) as Hw.
    destruct (worker config pool index chunk st) as [r st1].
    pose proof (IH (S index) st1) as Hr.
    destruct (run_workers config pool (S index) chunks st1) as [rs st2].
    cbn [snd] in *. rewrite Hr, Hw, <- app_assoc. f_equal.
    cbn [imap concat]. rewrite Nat.add_0_r. f_equal. f_equal.
    apply imap_ext. intros j x _. simpl. by replace (index + S j) with (S index + j) by lia.
Qed.

Lemma concat_imap_subseteq {A} (f : nat → bool) (chunks : list (list A)) :
  concat (imap (λ j chunk, if f j then chunk else []) chunks) ⊆ concat chunks.
Proof.
  revert f. induction chunks as [|chunk chunks IH]; intros f; [done|].
  cbn [imap concat]. intros x. rewrite !elem_of_app. intros [Hx | Hx].
  - left. by destruct (f 0); [|inversion Hx].
  - right. by apply (IH (f ∘ S)).
Qed.

Lemma concat_imap_all {A} (f : nat → bool) (chunks : list (list A)) :
  (∀ j, f j = true) →
  concat (imap (λ j chunk, if f j then chunk else []) chunks) = concat chunks.
Proof.
  revert f. induction chunks as [|chunk chunks IH]; intros f Hf; [done|].
  cbn [imap concat]. rewrite Hf. f_equal. apply (IH (f ∘ S)). intros j. apply Hf.
Qed.

(** The jobs started by [processTransactionsInParallel]. *)
Lemma parallel_jobs config pool new this :
  ∃ started,
    jobs (shared (processTransactionsInParallel config pool new this).1)
    = jobs (shared this) ++ started
    ∧ started ⊆ new
    ∧ (launch_ok pool = true → (∀ i, newPage_ok pool i = true) → started = new).
Proof.
  unfold processTransactionsInParallel. destruct (launch_ok pool).
  - pose proof (run_workers_jobs config pool 0 (chunkArray new PARALLEL_BROWSERS) (shared this))
      as Hj.
    destruct (run_workers config pool 0 (chunkArray new PARALLEL_BROWSERS) (shared this))
      as [allResults st].
    assert (Hcat : concat (chunkArray new PARALLEL_BROWSERS) = new)
      by (apply chunkArray_concat; unfold PARALLEL_BROWSERS; lia).
    eexists. split_and!.
    + destruct (promise_all allResults); exact Hj.
    + rewrite <- Hcat at 2. apply concat_imap_subseteq with (f := λ j, newPage_ok pool (0 + j)).
    + intros _ Hpages. rewrite <- Hcat at 2.
      apply concat_imap_all with (f := λ j, newPage_ok pool (0 + j)). intros j. apply Hpages.
  - exists []. split_and!; [by rewrite app_nil_r | set_solver | done].
Qed.

Lemma newTransactions_not_processed processed found t :
  t ∈ newTransactions processed found → b_orderId t ∉ processed.
Proof. unfold newTransactions. rewrite list_elem_of_filter. tauto. Qed.

(** The jobs started by a run of [scrapeTransactions]. *)
Lemma scrapeTransactions_jobs config site pool this :
  ∃ dispatched,
    jobs (shared (scrapeTransactions config site pool this).1)
    = jobs (shared this) ++ dispatched
    ∧ (∀ found, outcome (scrapeTransactionList config site) = Returned found →
         dispatched ⊆ newTransactions (processedOrders (shared this)) found
         ∧ (launch_ok pool = true → (∀ i, newPage_ok pool i = true) →
            dispatched = newTransactions (processedOrders (shared this)) found))
    ∧ (outcome (scrapeTransactionList config site) = Rejected → dispatched = []).
Proof.
  unfold scrapeTransactions.
  destruct (outcome (scrapeTransactionList config site)) as [found|].
  - set (new := newTransactions (processedOrders (shared this)) found).
    destruct (length new =? 0) eqn:Elen.
    + apply Nat.eqb_eq, nil_length_inv in Elen. exists []. cbn.
      split_and!; [by rewrite app_nil_r | | done].
      intros ? [= <-]. fold new. rewrite Elen. done.
    + destruct (parallel_jobs config pool new this) as (started & Hj & Hsub & Hall).
      destruct (processTransactionsInParallel config pool new this) as [this' ok].
      exists started. split_and!.
      * by destruct ok.
      * intros ? [= <-]. fold new. done.
      * done.
  - exists []. split_and!; [by rewrite app_nil_r | done | done].
Qed.

(** C1.  The jobs started by a run of [scrapeTransactions] are taken
    from the references that the filter keeps: none of them has an id
    that is in [processedOrders] when the run starts, and when the
    browsers start they are exactly the references of the pager whose
    id is not in that set, in order.  With the set
    ["111-1111111-1111111"] and the pager output [111-1111111-1111111
    (10); 222-2222222-2222222 (20)], exactly one job is started, for
    "222-2222222-2222222". *)
Theorem dedup_filter_dispatch (config : ConfigData) (site : ListSite) (pool : PoolEnv)
    (this : Scraper) :
  (∃ dispatched,
     jobs (shared (scrapeTransactions config site pool this).1)
     = jobs (shared this) ++ dispatched
     ∧ (∀ t, t ∈ dispatched → b_orderId t ∉ processedOrders (shared this))
     ∧ (∀ found, outcome (scrapeTransactionList config site) = Returned found →
          launch_ok pool = true → (∀ i, newPage_ok pool i = true) →
          dispatched = filter (λ t, b_orderId t ∉ processedOrders (shared this)) found))
  ∧ (∀ r1 r2,
       b_orderId r1 = "111-1111111-1111111" → b_total r1 = Num 10 →
       b_orderId r2 = "222-2222222-2222222" → b_total r2 = Num 20 →
       processedOrders (shared this) = {[ "111-1111111-1111111" ]} →
       outcome (scrapeTransactionList config site) = Returned [r1; r2] →
       launch_ok pool = true → (∀ i, newPage_ok pool i = true) →
       jobs (shared (scrapeTransactions config site pool this).1)
       = jobs (shared this) ++ [r2]).
Proof.
  destruct (scrapeTransactions_jobs config site pool this) as (dispatched & Hj & Hret & Hrej).
  split.
  - exists dispatched. split_and!; [done | |].
    + intros t Ht. destruct (outcome (scrapeTransactionList config site)) as [found|] eqn:E.
      * destruct (Hret found eq_refl) as [Hsub _].
        by eapply newTransactions_not_processed, Hsub.
      * rewrite Hrej in Ht by done. by apply elem_of_nil in Ht.
    + intros found Hfound Hl Hp. destruct (Hret found Hfound) as [_ Heq].
      by rewrite (Heq Hl Hp).
  - intros r1 r2 Hid1 _ Hid2 _ Hidx Hfound Hl Hp. rewrite Hj.
    destruct (Hret _ Hfound) as [_ Heq]. rewrite (Heq Hl Hp).
    rewrite Hidx. unfold newTransactions.
    rewrite filter_cons_False, filter_cons_True, filter_nil; [done | |].
    + rewrite Hid2. intros H%elem_of_singleton. discriminate.
    + rewrite Hid1. intros H. apply H. by apply elem_of_singleton.
Qed.

Lemma dedup_filter_dispatch_witness :
  jobs (shared (scrapeTransactions amazon two_orders_site ready_pool
                  (fresh_scraper {[ "111-1111111-1111111" ]})).1)
  = [ref "222-2222222-2222222" 20].
Proof.
  destruct (dedup_filter_dispatch amazon two_orders_site ready_pool
              (fresh_scraper {[ "111-1111111-1111111" ]})) as [_ H].
  apply (H (ref "111-1111111-1111111" 10) (ref "222-2222222-2222222" 20)); reflexivity.
Defined.

(** ** The totals *)

Lemma scrapeTransactions_resolved config site pool this :
  (scrapeTransactions config site pool this).2 = true →
  ∃ that, (scrapeTransactions config site pool this).1 = update_metadata that.
Proof.
  unfold scrapeTransactions.
  destruct (outcome (scrapeTransactionList config site)) as [found|]; [|discriminate].
  destruct (if length _ =? 0 then _ else _) as [that ok]. destruct ok; [|discriminate].
  intros _. by exists that.
Qed.

(** The value of binary64 arithmetic on decimal amounts: the sum of
    [0.1] and [0.2] is not the number [0.3]; halves are exact. *)
Example binary64_samples :
  num_add (Num (1 # 10)) (Num (1 # 5)) = Num (1351079888211149 # 4503599627370496)
  ∧ to_float (num_add (Num (1 # 10)) (Num (1 # 5))) ≠ to_float (Num (3 # 10))
  ∧ num_sub (num_add (Num 0) (Num 30)) (Num (25 # 2)) = Num (35 # 2)
  ∧ num_sub (Num 10) (Num 20) = Num (-10)
  ∧ num_add NaN (Num 1) = NaN.
Proof. by vm_compute. Qed.

(** C4 (amended).  No record has a [netAmount] property.  The net
    amount is computed for the whole run only: after a run that
    resolves, [totalAmount] is what the reducer
    [sum + (t.total || 0) - (t.refund || 0)] yields over all the
    records held, those of earlier runs first, in their order and in
    the arithmetic of the code, from [0]; [totalTransactions] is the
    number of records. *)
Theorem totalAmount_is_net_sum (config : ConfigData) (site : ListSite) (pool : PoolEnv)
    (this : Scraper) :
  (scrapeTransactions config site pool this).2 = true →
  let result := (scrapeTransactions config site pool this).1 in
  totalAmount result
  = fold_left (λ sum t, num_sub (num_add sum (num_or (total t) (Num 0)))
                                (opt_num_or (refund t) (Num 0)))
      (transactions result) (Num 0)
  ∧ (∃ added, transactions result = transactions this ++ added)
  ∧ totalTransactions result = length (transactions result)
  ∧ (∀ data, ("netAmount" ∉ keys (createTransaction data))
             ∧ get_number (createTransaction data) "netAmount" = None).
Proof.
  intros Hok result. subst result.
  assert (Hkept : ∃ added, transactions (scrapeTransactions config site pool this).1
                           = transactions this ++ added).
  { revert Hok. unfold scrapeTransactions.
    destruct (outcome (scrapeTransactionList config site)) as [found|]; [|done].
    destruct (length _ =? 0); [by exists []; rewrite app_nil_r|].
    unfold processTransactionsInParallel. destruct (launch_ok pool); [|done].
    destruct (run_workers _ _ _ _ _) as [allResults st].
    destruct (promise_all allResults) as [results|]; [|done].
    intros _. by exists (concat results). }
  destruct (scrapeTransactions_resolved config site pool this Hok) as [that Hthat].
  rewrite Hthat in *. cbn [update_metadata totalAmount transactions totalTransactions] in *.
  split_and!; [done | done | done |].
  intros data. split; [|reflexivity].
  unfold keys. cbn [orderDetailsUrl refund createTransaction app].
  intros H. repeat (apply elem_of_cons in H as [H | H]; [discriminate|]).
  by apply elem_of_nil in H.
Qed.

Lemma totalAmount_is_net_sum_witness :
  let result :=
    (scrapeTransactions amazon two_orders_site ready_pool refunded_before).1 in
  totalAmount result = Num (95 # 2) ∧ totalTransactions result = 3.
Proof.
  destruct (totalAmount_is_net_sum amazon two_orders_site ready_pool refunded_before)
    as (Ht & _ & Hn & _).
  - by vm_compute.
  - split; [rewrite Ht; by vm_compute | rewrite Hn; by vm_compute].
Defined.

(** The records of a run have no [netAmount] property. *)
Lemma no_netAmount_counterexample :
  let result := (scrapeTransactions amazon two_orders_site ready_pool (fresh_scraper ∅)).1 in
  map orderId (transactions result) = ["111-1111111-1111111"; "222-2222222-2222222"]
  ∧ Forall (λ t, ("netAmount" ∉ keys t) ∧ get_number t "netAmount" = None)
      (transactions result).
Proof.
  split; [vm_compute; reflexivity|].
  assert (Hrun : transactions (scrapeTransactions amazon two_orders_site ready_pool
                                 (fresh_scraper ∅)).1
                 = [ (scrapeOrderDetailsWithPage amazon (ref "111-1111111-1111111" 10)
                        (live_page blank) blank empty_state).1.1;
                     (scrapeOrderDetailsWithPage amazon (ref "222-2222222-2222222" 20)
                        (live_page blank) blank empty_state).1.1 ])
    by (vm_compute; reflexivity).
  rewrite Hrun. repeat constructor.
  all: intros H; vm_compute in H;
    repeat (apply elem_of_cons in H as [H | H]; [discriminate|]); by apply elem_of_nil in H.
Qed.

(** * Further properties of the code *)

(** ** The matcher *)

Lemma append_cons c (a b : string) : String c a +:+ b = String c (a +:+ b).
Proof. reflexivity. Qed.

Lemma append_nil_l (b : string) : "" +:+ b = b.
Proof. reflexivity. Qed.

Lemma append_assoc (a b c : string) : (a +:+ b) +:+ c = a +:+ (b +:+ c).
Proof. induction a as [|x a IH]; rewrite ?append_cons, ?append_nil_l; congruence. Qed.

Lemma append_nil_r (a : string) : a +:+ "" = a.
Proof. induction a as [|x a IH]; rewrite ?append_cons, ?append_nil_l; congruence. Qed.

Lemma length_append (a b : string) :
  String.length (a +:+ b) = String.length a + String.length b.
Proof.
  induction a as [|x a IH]; rewrite ?append_cons, ?append_nil_l; simpl; congruence.
Qed.

Lemma is_suffix_refl s : is_suffix s s.
Proof. by exists "". Qed.

Lemma is_suffix_trans s1 s2 s3 : is_suffix s1 s2 → is_suffix s2 s3 → is_suffix s1 s3.
Proof.
  intros [u Hu] [v Hv]. exists (v +:+ u). by rewrite Hv, Hu, append_assoc.
Qed.

Lemma is_suffix_tail c s : is_suffix s (String c s).
Proof. by exists (String c ""). Qed.

Lemma is_suffix_length s' s : is_suffix s' s → String.length s' ≤ String.length s.
Proof. intros [u ->]. rewrite length_append. lia. Qed.

(** The matcher only ever continues on a suffix of its input: when a
    match succeeds, the continuation has succeeded on what was left. *)
Lemma exec_suffix {A} (r : regex) :
  ∀ s cap (k : string → option string → option A) a,
    exec r s cap k = Some a →
    ∃ s' cap', is_suffix s' s ∧ k s' cap' = Some a.
Proof.
  induction r as [ | p | r1 IH1 r2 IH2 | r1 IH1 r2 IH2 | r IH | r IH ];
    intros s cap k a; cbn [exec].
  - intros H. exists s, cap. split; [apply is_suffix_refl | done].
  - destruct s as [|c s]; [done|]. destruct (p c); [|done].
    intros H. exists s, cap. split; [apply is_suffix_tail | done].
  - intros H. apply IH1 in H as (s1 & cap1 & Hs1 & H).
    apply IH2 in H as (s2 & cap2 & Hs2 & H).
    exists s2, cap2. split; [by eapply is_suffix_trans | done].
  - destruct (exec r1 s cap k) eqn:E.
    + intros [= <-]. by apply IH1 in E.
    + apply IH2.
  - generalize (String.length s) at 1. intros n. revert s cap.
    induction n as [|n IHn]; intros s cap.
    + intros H. exists s, cap. split; [apply is_suffix_refl | done].
    + match goal with
      | |- context [exec r s cap ?k'] => destruct (exec r s cap k') eqn:E
      end.
      * intros [= <-]. apply IH in E as (s1 & cap1 & Hs1 & E).
        destruct (String.length s1 <? String.length s); [|done].
        apply IHn in E as (s2 & cap2 & Hs2 & E).
        exists s2, cap2. split; [by eapply is_suffix_trans | done].
      * intros H. exists s, cap. split; [apply is_suffix_refl | done].
  - intros H. apply IH in H as (s1 & cap1 & Hs1 & H). by exists s1, (Some (matched s s1)).
Qed.

(** A pattern whose continuation fails on every suffix fails. *)
Lemma exec_none {A} (r : regex) s cap (k : string → option string → option A) :
  (∀ s' cap', is_suffix s' s → k s' cap' = None) → exec r s cap k = None.
Proof.
  intros Hk. destruct (exec r s cap k) as [a|] eqn:E; [|done].
  apply exec_suffix in E as (s' & cap' & Hs & E). by rewrite Hk in E.
Qed.

(** Greedy repetition of a character class: when the text is a run
    [u] of the class followed by a text [v] that does not start with
    the class, and the continuation succeeds after the whole run, the
    match continues there. *)
Lemma exec_star_run {A} (p : ascii → bool) u v cap (k : string → option string → option A) a :
  all_chars p u = true → stops p v = true → k v cap = Some a →
  exec (Star (Chars p)) (u +:+ v) cap k = Some a.
Proof.
  intros Hu Hv Hk. induction u as [|c u IH].
  - rewrite append_nil_l. cbn [exec]. destruct v as [|d v]; [done|].
    cbn [stops] in Hv. apply negb_true_iff in Hv.
    cbn [String.length]. by rewrite Hv.
  - cbn [all_chars] in Hu. apply andb_true_iff in Hu as [Hc Hu].
    specialize (IH Hu). rewrite append_cons. cbn [exec] in *. cbn [String.length].
    rewrite Hc. rewrite (proj2 (Nat.ltb_lt _ _)) by lia. by rewrite IH.
Qed.

Lemma substring_append_l (u v : string) : String.substring 0 (String.length u) (u +:+ v) = u.
Proof.
  induction u as [|c u IH]; rewrite ?append_cons, ?append_nil_l; simpl.
  - by destruct v.
  - by rewrite IH.
Qed.

Lemma matched_append (u v : string) : matched (u +:+ v) v = u.
Proof.
  unfold matched. rewrite length_append.
  replace (String.length u + String.length v - String.length v) with (String.length u) by lia.
  apply substring_append_l.
Qed.

(** What the matcher consumes belongs to the pattern, and the text of
    the group is what the group consumed. *)
Lemma exec_sound {A} (r : regex) :
  ∀ s cap (k : string → option string → option A) a,
    exec r s cap k = Some a →
    ∃ u s' cap', s = u +:+ s' ∧ lang r u ∧ k s' cap' = Some a
                 ∧ (∀ r', r = Group r' → cap' = Some u).
Proof.
  induction r as [ | p | r1 IH1 r2 IH2 | r1 IH1 r2 IH2 | r IH | r IH ];
    intros s cap k a; cbn [exec].
  - intros H. exists "", s, cap. split_and!; [done | constructor | done | done].
  - destruct s as [|c s]; [done|]. destruct (p c) eqn:Ec; [|done].
    intros H. exists (String c ""), s, cap. split_and!; [done | by constructor | done | done].
  - intros H. apply IH1 in H as (u1 & s1 & cap1 & -> & L1 & H & _).
    apply IH2 in H as (u2 & s2 & cap2 & -> & L2 & H & _).
    exists (u1 +:+ u2), s2, cap2.
    split_and!; [by rewrite append_assoc | by constructor | done | done].
  - destruct (exec r1 s cap k) eqn:E.
    + intros [= <-]. apply IH1 in E as (u & s' & cap' & -> & L & H & _).
      exists u, s', cap'. split_and!; [done | by apply lang_alt_l | done | done].
    + intros H. apply IH2 in H as (u & s' & cap' & -> & L & H & _).
      exists u, s', cap'. split_and!; [done | by apply lang_alt_r | done | done].
  - generalize (String.length s) at 1. intros n. revert s cap.
    induction n as [|n IHn]; intros s cap.
    + intros H. exists "", s, cap. split_and!; [done | constructor | done | done].
    + match goal with
      | |- context [exec r s cap ?k'] => destruct (exec r s cap k') eqn:E
      end.
      * intros [= <-]. apply IH in E as (u1 & s1 & cap1 & -> & L1 & E & _).
        destruct (String.length s1 <? String.length (u1 +:+ s1)); [|done].
        apply IHn in E as (u2 & s2 & cap2 & -> & L2 & E & _).
        exists (u1 +:+ u2), s2, cap2.
        split_and!; [by rewrite append_assoc | by constructor | done | done].
      * intros H. exists "", s, cap. split_and!; [done | constructor | done | done].
  - intros H. apply IH in H as (u & s' & cap' & -> & L & H & _).
    rewrite matched_append in H.
    exists u, s', (Some u). split_and!; [done | by constructor | done | done].
Qed.

(** A successful search matched at the start of some suffix. *)
Lemma str_match_exec r s m :
  str_match r s = Some m →
  ∃ pre s0, s = pre +:+ s0
    ∧ exec r s0 None (λ s' cap, Some {| match0 := matched s0 s'; match1 := cap |}) = Some m.
Proof.
  induction s as [|c s IH]; cbn [str_match].
  - destruct (exec r "" None _) eqn:E; [|done]. intros [= <-]. by exists "", "".
  - destruct (exec r (String c s) None _) eqn:E.
    + intros [= <-]. by exists "", (String c s).
    + intros H. apply IH in H as (pre & s0 & -> & H). by exists (String c pre), s0.
Qed.

(** The capture of a pattern [pre(r)] is a text of [r]. *)
Lemma group1_sound pre r s m :
  group1 (Cat pre (Group r)) s = Some m → lang r m.
Proof.
  unfold group1. destruct (str_match _ s) as [ma|] eqn:E; [|done].
  intros Hm. apply str_match_exec in E as (p0 & s0 & -> & E).
  cbn [exec] in E. apply exec_sound in E as (u0 & s1 & cap1 & -> & _ & E & _).
  apply exec_sound in E as (u & s2 & cap2 & -> & L & E & _).
  injection E as <-. cbn [match1] in Hm. rewrite matched_append in Hm.
  by injection Hm as <-.
Qed.

(** ** The amounts read by the list pager *)

Lemma take_digits_all s : all_chars is_digit (take_digits s).1 = true.
Proof.
  induction s as [|c s IH]; [done|]. cbn [take_digits].
  destruct (is_digit c) eqn:Ec; [|done].
  destruct (take_digits s) as [d r]. cbn [fst all_chars] in *. by rewrite Ec, IH.
Qed.

Lemma digit_val_nonneg c : is_digit c = true → (0 ≤ digit_val c)%Z.
Proof.
  unfold is_digit, digit_val. intros H. apply andb_true_iff in H as [H _].
  apply Nat.leb_le in H. lia.
Qed.

Lemma digits_val_nonneg s acc :
  all_chars is_digit s = true → (0 ≤ acc)%Z → (0 ≤ digits_val acc s)%Z.
Proof.
  revert acc. induction s as [|c s IH]; intros acc Hs Hacc; [done|].
  cbn [all_chars] in Hs. apply andb_true_iff in Hs as [Hc Hs].
  cbn [digits_val]. apply IH; [done|]. pose proof (digit_val_nonneg c Hc). lia.
Qed.

Lemma all_chars_append p u v :
  all_chars p (u +:+ v) = all_chars p u && all_chars p v.
Proof.
  induction u as [|c u IH]; rewrite ?append_cons, ?append_nil_l; [done|].
  cbn [all_chars]. rewrite IH. by rewrite andb_assoc.
Qed.

Lemma decimal_nonneg int frac :
  all_chars is_digit int = true → all_chars is_digit frac = true →
  (0 <= decimal int frac)%Q.
Proof.
  intros Hi Hf. unfold decimal. rewrite Qred_correct. unfold Qle. simpl.
  rewrite Z.mul_1_r. apply digits_val_nonneg; [|done].
  by rewrite all_chars_append, Hi, Hf.
Qed.

(** [parseFloat] of a text that starts with a digit is a number that
    is not negative. *)
Lemma parseFloat_digit c s :
  is_digit c = true → ∃ q, parseFloat (String c s) = Num q ∧ (0 <= q)%Q.
Proof.
  intros Hc. unfold parseFloat. cbn [take_digits]. rewrite Hc.
  pose proof (take_digits_all s) as Hint.
  destruct (take_digits s) as [d r]. cbn [fst] in Hint.
  cbn [String.length Nat.eqb andb].
  eexists. split; [reflexivity|].
  apply decimal_nonneg.
  - cbn [all_chars]. by rewrite Hc, Hint.
  - destruct r as [|x r]; [done|].
    destruct (Ascii.ascii_dec x ".") as [->|Hx].
    + apply take_digits_all.
    + destruct x as [[] [] [] [] [] [] [] []]; try done; apply take_digits_all.
Qed.

(** Removing the first comma keeps a leading digit. *)
Lemma replace_comma_digit c s :
  is_digit c = true → ∃ s', replace "," "" (String c s) = String c s'.
Proof.
  intros Hc. unfold replace. cbn [String.index String.prefix].
  destruct (Ascii.ascii_dec "," c) as [<-|_]; [done|].
  destruct (String.index 0 "," s) as [n|]; [|by eexists].
  cbn [String.substring]. rewrite append_cons. by eexists.
Qed.

Lemma lang_plus_digit_head r u :
  lang (Cat (plus digit) r) u → ∃ c u', u = String c u' ∧ is_digit c = true.
Proof.
  intros H. inversion H as [ | | r1 r2 u1 u2 H1 H2 | | | | | ]; subst.
  inversion H1 as [ | | r1' r2' v1 v2 Hd Hs | | | | | ]; subst.
  inversion Hd; subst. rewrite !append_cons. by eexists _, _.
Qed.

Lemma row_total_number rowText : ∃ q, row_total rowText = Num q ∧ (0 <= q)%Q.
Proof.
  unfold row_total. destruct (truthy rowText); [|by exists 0%Q].
  destruct (group1 Patterns.rowAmount rowText) as [m|] eqn:E; [|by exists 0%Q].
  apply group1_sound, lang_plus_digit_head in E as (c & m' & -> & Hc).
  unfold amount_of. destruct (replace_comma_digit c m' Hc) as [s' ->].
  by apply parseFloat_digit.
Qed.

Lemma str_or_nonempty s d : d ≠ "" → str_or s d ≠ "".
Proof.
  intros Hd. unfold str_or. destruct (String.eqb s "") eqn:E; [done|].
  by apply String.eqb_neq in E.
Qed.

Lemma truthy_false s : truthy s = false → s = "".
Proof. unfold truthy. intros H. apply negb_false_iff in H. by apply String.eqb_eq. Qed.

Lemma truthy_true s : truthy s = true → s ≠ "".
Proof. unfold truthy. intros H. apply negb_true_iff in H. by apply String.eqb_neq. Qed.

(** X1.  Every reference that [extractTransactionFromRow] returns has
    a non-empty id, an empty date and a total that is a number and is
    not negative (never [NaN]).  A reference without a URL has the
    synthetic id "unknown-<clock>" and a positive total. *)
Theorem row_reference_wellformed (config : ConfigData) (row : option node) (now : Z)
    (t : BasicTransaction) :
  extractTransactionFromRow config row now = Some t →
  (∃ q, b_total t = Num q ∧ (0 <= q)%Q)
  ∧ b_orderId t ≠ ""
  ∧ b_date t = ""
  ∧ (b_orderDetailsUrl t = "" →
     b_orderId t = "unknown-" +:+ pretty now ∧ num_gt0 (b_total t) = true).
Proof.
  destruct row as [row|]; [|done]. unfold extractTransactionFromRow. cbv zeta.
  change (if truthy (textContent row)
          then match group1 Patterns.rowAmount (textContent row) with
               | Some m => amount_of m
               | None => Num 0
               end
          else Num 0) with (row_total (textContent row)).
  destruct (match _ ≫= getAttribute "href" with Some _ => _ | None => _ end)
    as [orderId0 url0].
  destruct (if negb (truthy orderId0) && truthy (textContent row) then _ else _)
    as [orderId url] eqn:Eid.
  destruct (truthy orderId || num_gt0 (row_total (textContent row))) eqn:Eok; [|done].
  intros [= <-]. cbn [b_total b_orderId b_date b_orderDetailsUrl].
  split_and!.
  - apply row_total_number.
  - by apply str_or_nonempty.
  - done.
  - destruct (truthy orderId) eqn:Et; cbn [andb orb negb] in *.
    + destruct (truthy url) eqn:Eu; cbn [negb].
      * intros ->. done.
      * intros Hu. exfalso. unfold orderUrl in Hu. discriminate.
    + intros _. apply truthy_false in Et as ->. by rewrite Eok.
Qed.

Lemma row_reference_wellformed_witness :
  ∃ t, extractTransactionFromRow amazon (Some (Element "div" [] [Text "Refund: $23.40"])) 17
       = Some t
       ∧ b_orderId t = "unknown-17" ∧ b_total t = Num (117 # 5).
Proof.
  eexists. split; [reflexivity|].
  destruct (row_reference_wellformed amazon (Some (Element "div" [] [Text "Refund: $23.40"])) 17
              _ eq_refl) as (_ & _ & _ & H).
  destruct (H eq_refl) as [Hid _]. split; [exact Hid | reflexivity].
Defined.

(** ** Searching with the patterns *)

Lemma exec_plus_run {A} (p : ascii → bool) u v cap (k : string → option string → option A) a :
  u ≠ "" → all_chars p u = true → stops p v = true → k v cap = Some a →
  exec (plus (Chars p)) (u +:+ v) cap k = Some a.
Proof.
  intros Hne Hu Hv Hk. destruct u as [|c u]; [done|].
  cbn [all_chars] in Hu. apply andb_true_iff in Hu as [Hc Hu].
  rewrite append_cons. unfold plus. cbn [exec]. rewrite Hc.
  by apply (exec_star_run p u v cap k a).
Qed.

Lemma exec_group_plus_run {A} (p : ascii → bool) u v cap
    (k : string → option string → option A) a :
  u ≠ "" → all_chars p u = true → stops p v = true → k v (Some u) = Some a →
  exec (Group (plus (Chars p))) (u +:+ v) cap k = Some a.
Proof.
  intros Hne Hu Hv Hk. cbn [exec].
  apply exec_plus_run; [done | done | done |]. by rewrite matched_append.
Qed.

Lemma str_match_here r s m :
  exec r s None (λ s' cap, Some {| match0 := matched s s'; match1 := cap |}) = Some m →
  str_match r s = Some m.
Proof. intros H. destruct s; cbn [str_match]; by rewrite H. Qed.

Lemma str_match_skip r c s :
  exec r (String c s) None
    (λ s' cap, Some {| match0 := matched (String c s) s'; match1 := cap |}) = None →
  str_match r (String c s) = str_match r s.
Proof. intros H. cbn [str_match]. by rewrite H. Qed.

Lemma group1_here r s m :
  exec r s None (λ s' cap, Some {| match0 := matched s s'; match1 := cap |}) = Some m →
  group1 r s = match1 m.
Proof. intros H. unfold group1. by rewrite (str_match_here _ _ _ H). Qed.

(** The URL that the scraper builds for an order id is read back to
    that id by the pattern of the [orderID] parameter. *)
Lemma orderIdParam_orderUrl id rest :
  id ≠ "" → all_chars not_amp id = true → stops not_amp rest = true →
  group1 Patterns.orderIdParam (orderUrl id +:+ rest) = Some id.
Proof.
  intros Hne Hid Hrest. unfold group1, orderUrl. rewrite append_assoc.
  rewrite !append_cons, append_nil_l.
  repeat (rewrite str_match_skip by reflexivity).
  match goal with
  | |- match str_match ?r ?s with _ => _ end = _ =>
      assert (He : exec r s None (λ s' cap, Some {| match0 := matched s s'; match1 := cap |})
                   = Some {| match0 := matched s rest; match1 := Some id |})
  end.
  { unfold Patterns.orderIdParam. cbn [lit chr exec Ascii.eqb Bool.eqb].
    apply (exec_plus_run not_amp); [done | done | done |].
    by rewrite matched_append. }
  by rewrite (str_match_here _ _ _ He).
Qed.

Lemma truthy_nonempty s : s ≠ "" → truthy s = true.
Proof. intros H. unfold truthy. apply negb_true_iff. by apply String.eqb_neq. Qed.

(** X2.  A row whose order link points to the URL that the scraper
    itself builds for an order id (possibly followed by further
    parameters) yields a reference with that id and that URL: the
    pattern of the [orderID] parameter reads back what [orderUrl]
    writes, for every non-empty id without "&". *)
Theorem order_url_round_trip (config : ConfigData) (row link : node) (now : Z)
    (oid rest : string) :
  query order_link row = Some link →
  getAttribute "href" link = Some (orderUrl oid +:+ rest) →
  oid ≠ "" → all_chars not_amp oid = true → stops not_amp rest = true →
  group1 Patterns.orderIdParam (orderUrl oid +:+ rest) = Some oid
  ∧ ∃ t, extractTransactionFromRow config (Some row) now = Some t
         ∧ b_orderId t = oid
         ∧ b_orderDetailsUrl t = orderUrl oid +:+ rest.
Proof.
  intros Hq Hhref Hne Hid Hrest.
  pose proof (orderIdParam_orderUrl oid rest Hne Hid Hrest) as Hm.
  split; [done|].
  assert (Ht : truthy (orderUrl oid +:+ rest) = true).
  { unfold orderUrl. by rewrite append_assoc. }
  assert (Hs : startsWith "http" (orderUrl oid +:+ rest) = true).
  { unfold orderUrl. by rewrite append_assoc. }
  unfold extractTransactionFromRow. cbv zeta. fold order_link.
  rewrite Hq. cbn [mbind option_bind]. rewrite Hhref, Ht, Hm, Hs. cbn [default from_option id].
  repeat (progress (rewrite ?(truthy_nonempty oid Hne), ?Ht; cbn [negb andb orb])).
  eexists. split; [reflexivity|]. cbn [b_orderId b_orderDetailsUrl].
  split; [|done]. unfold str_or.
  by rewrite (proj2 (String.eqb_neq oid "") Hne).
Qed.

Lemma order_url_round_trip_witness :
  ∃ t, extractTransactionFromRow amazon
         (Some (Element "div" []
                  [Element "a" [("href", orderUrl "D01-1234567-7654321" +:+ "&ref=ppx")] []]))
         0 = Some t
       ∧ b_orderId t = "D01-1234567-7654321".
Proof.
  destruct (order_url_round_trip amazon
              (Element "div" []
                 [Element "a" [("href", orderUrl "D01-1234567-7654321" +:+ "&ref=ppx")] []])
              (Element "a" [("href", orderUrl "D01-1234567-7654321" +:+ "&ref=ppx")] [])
              0 "D01-1234567-7654321" "&ref=ppx")
    as (_ & t & Ht & Hid & _); try reflexivity; [discriminate|].
  exists t. by split.
Defined.

(** ** The index of processed orders *)

Example endsWith_samples :
  endsWith ".png" "order-1.png" = true ∧ endsWith ".png" "order-1.png.bak" = false
  ∧ endsWith ".json" ".json" = true ∧ endsWith ".json" "json" = false
  ∧ endsWith "" "abc" = true.
Proof. repeat split. Qed.

Example screenshotName_samples :
  group1 screenshotName "order-D01-1234567-1234567-1.png" = Some "D01-1234567-1234567"
  ∧ group1 screenshotName "order-113-1234567-7654321.png" = Some "113-1234567-7654321"
  ∧ group1 screenshotName "order-unknown-1700000000000.png" = None.
Proof. repeat split. Qed.

Lemma endsWith_append suffix u : endsWith suffix (u +:+ suffix) = true.
Proof.
  induction u as [|c u IH]; rewrite ?append_cons, ?append_nil_l.
  - destruct suffix; cbn [endsWith]; by rewrite String.eqb_refl.
  - cbn [endsWith]. rewrite IH. apply orb_true_r.
Qed.

Lemma add_orders_spec entries processed id :
  id ∈ add_orders entries processed ↔ id ∈ processed ∨ id ∈ file_ids entries.
Proof.
  revert processed. induction entries as [|[|[x|]] entries IH]; intros processed;
    cbn [add_orders file_ids].
  - rewrite elem_of_nil. tauto.
  - rewrite elem_of_nil. tauto.
  - rewrite IH. destruct (truthy x); [|tauto].
    rewrite elem_of_union, elem_of_singleton, elem_of_cons. tauto.
  - apply IH.
Qed.

Lemma scan_files_spec files processed id :
  id ∈ scan_files files processed ↔
  id ∈ processed ∨ ∃ f entries, f ∈ files ∧ file_content f = Some entries ∧ id ∈ file_ids entries.
Proof.
  revert processed. induction files as [|f files IH]; intros processed; cbn [scan_files].
  - split; [by left|]. intros [H | (f & e & Hf & _)]; [done | by apply elem_of_nil in Hf].
  - rewrite IH. destruct (file_content f) as [entries|] eqn:Ef.
    + rewrite add_orders_spec. split.
      * intros [[H | H] | (g & e & Hg & He & Hid)]; [by left | |].
        -- right. exists f, entries. split_and!; [left | done | done].
        -- right. exists g, e. split_and!; [by right | done | done].
      * intros [H | (g & e & Hg & He & Hid)]; [by left; left|].
        apply elem_of_cons in Hg as [-> | Hg].
        -- left. right. congruence.
        -- right. by exists g, e.
    + split.
      * intros [H | (g & e & Hg & He & Hid)]; [by left|].
        right. exists g, e. split_and!; [by right | done | done].
      * intros [H | (g & e & Hg & He & Hid)]; [by left|].
        apply elem_of_cons in Hg as [-> | Hg]; [congruence|].
        right. by exists g, e.
Qed.

Lemma scan_screenshots_spec names processed id :
  id ∈ scan_screenshots names processed ↔
  id ∈ processed ∨ ∃ name, name ∈ names ∧ group1 screenshotName name = Some id.
Proof.
  revert processed. induction names as [|n names IH]; intros processed;
    cbn [scan_screenshots].
  - split; [by left|]. intros [H | (n & Hn & _)]; [done | by apply elem_of_nil in Hn].
  - rewrite IH. destruct (group1 screenshotName n) as [m|] eqn:Em.
    + rewrite elem_of_union, elem_of_singleton. split.
      * intros [[-> | H] | (x & Hx & Hid)]; [| by left |].
        -- right. exists n. split; [left | done].
        -- right. exists x. split; [by right | done].
      * intros [H | (x & Hx & Hid)]; [by left; right|].
        apply elem_of_cons in Hx as [-> | Hx].
        -- left. left. congruence.
        -- right. by exists x.
    + split.
      * intros [H | (x & Hx & Hid)]; [by left|]. right. exists x. split; [by right | done].
      * intros [H | (x & Hx & Hid)]; [by left|].
        apply elem_of_cons in Hx as [-> | Hx]; [congruence|]. right. by exists x.
Qed.

Lemma lang_star_chars r v : lang r v → ∀ p, r = Star (Chars p) → all_chars p v = true.
Proof.
  induction 1 as [ | | | | | | r u v Hu _ Hv IH | ]; intros q Hr; try discriminate; [done|].
  injection Hr as ->. inversion Hu; subst. rewrite append_cons, append_nil_l.
  cbn [all_chars]. rewrite (IH q eq_refl). by rewrite andb_true_r.
Qed.

Lemma lang_plus_chars p u : lang (plus (Chars p)) u → u ≠ "" ∧ all_chars p u = true.
Proof.
  intros H. inversion H as [ | | r1 r2 u1 u2 H1 H2 | | | | | ]; subst.
  inversion H1; subst. rewrite append_cons, append_nil_l. split; [done|].
  cbn [all_chars]. rewrite (lang_star_chars _ _ H2 p eq_refl). by rewrite andb_true_r.
Qed.

Lemma lang_chr c u : lang (chr c) u → u = String c "".
Proof.
  intros H. inversion H as [ | p x Hx | | | | | | ]; subst.
  by apply Ascii.eqb_eq in Hx as ->.
Qed.

(** What the pattern of the screenshot names captures has the shape
    of an order id. *)
Lemma screenshotName_shape name id :
  group1 screenshotName name = Some id → order_shaped id.
Proof.
  intros H. apply group1_sound in H.
  inversion H as [ | | r1 r2 a u1 Ha H1 | | | | | ]; subst.
  inversion H1 as [ | | r1 r2 d1 u2 Hd1 H2 | | | | | ]; subst.
  inversion H2 as [ | | r1 r2 b u3 Hb H3 | | | | | ]; subst.
  inversion H3 as [ | | r1 r2 d2 c Hd2 Hc | | | | | ]; subst.
  apply lang_chr in Hd1 as ->. apply lang_chr in Hd2 as ->.
  apply lang_plus_chars in Ha as [Ha1 Ha2].
  apply lang_plus_chars in Hb as [Hb1 Hb2].
  apply lang_plus_chars in Hc as [Hc1 Hc2].
  by exists a, b, c.
Qed.

Lemma endsWith_append_l suffix u v : endsWith suffix v = true → endsWith suffix (u +:+ v) = true.
Proof.
  intros H. induction u as [|c u IH]; rewrite ?append_cons, ?append_nil_l; [done|].
  cbn [endsWith]. rewrite IH. apply orb_true_r.
Qed.

Lemma group1_found r s res :
  exec r s None (λ s' cap, Some {| match0 := matched s s'; match1 := cap |}) = Some res →
  group1 r s = match1 res.
Proof. apply group1_here. Qed.

Lemma exec_screenshotName {A} a b c rest cap (k : string → option string → option A) res :
  a ≠ "" → b ≠ "" → c ≠ "" →
  all_chars not_dash a = true → all_chars is_digit b = true → all_chars is_digit c = true →
  stops is_digit rest = true →
  k rest (Some (a +:+ "-" +:+ b +:+ "-" +:+ c)) = Some res →
  exec screenshotName ("order-" +:+ (a +:+ "-" +:+ b +:+ "-" +:+ c) +:+ rest) cap k = Some res.
Proof.
  intros Ha Hb Hc Ha' Hb' Hc' Hrest Hk.
  rewrite !append_assoc. rewrite !append_cons, !append_nil_l.
  unfold screenshotName. cbn [lit chr exec Ascii.eqb Bool.eqb].
  apply (exec_plus_run not_dash); [done | done | done |].
  cbn [exec Ascii.eqb Bool.eqb].
  apply (exec_plus_run is_digit); [done | done | done |].
  cbn [exec Ascii.eqb Bool.eqb].
  apply (exec_plus_run is_digit); [done | done | done |].
  replace (a +:+ String "-" (b +:+ String "-" (c +:+ rest)))
    with ((a +:+ "-" +:+ b +:+ "-" +:+ c) +:+ rest)
    by (by rewrite !append_assoc).
  by rewrite matched_append.
Qed.

(** The name of a screenshot of an order id of that shape, followed by
    something that does not start with a digit, is read back to the id. *)
Lemma screenshotName_order a b c rest :
  a ≠ "" → b ≠ "" → c ≠ "" →
  all_chars not_dash a = true → all_chars is_digit b = true → all_chars is_digit c = true →
  stops is_digit rest = true →
  group1 screenshotName ("order-" +:+ (a +:+ "-" +:+ b +:+ "-" +:+ c) +:+ rest)
  = Some (a +:+ "-" +:+ b +:+ "-" +:+ c).
Proof.
  intros Ha Hb Hc Ha' Hb' Hc' Hrest.
  erewrite group1_found; [| by apply exec_screenshotName]. reflexivity.
Qed.

Lemma load_spec disk processed id :
  id ∈ loadProcessedOrders disk processed ↔
  id ∈ processed
  ∨ ∃ files, dataDir disk = Some files
      ∧ ((∃ f entries, f ∈ files ∧ endsWith ".json" (file_name f) = true
                       ∧ file_content f = Some entries ∧ id ∈ file_ids entries)
         ∨ (∃ names name, screenshots disk = Some names ∧ name ∈ names
                          ∧ startsWith "order-" name && endsWith ".png" name = true
                          ∧ group1 screenshotName name = Some id)).
Proof.
  unfold loadProcessedOrders. destruct (dataDir disk) as [files|].
  - destruct (screenshots disk) as [names|]; cbv zeta.
    + rewrite scan_screenshots_spec, scan_files_spec. split.
      * intros [[H | (f & e & Hf & He & Hid)] | (n & Hn & Hid)]; [by left | |].
        -- apply list_elem_of_filter in Hf as [Hj Hf]. right. exists files. split; [done|].
           left. by exists f, e.
        -- apply list_elem_of_filter in Hn as [Hp Hn]. right. exists files. split; [done|].
           right. by exists names, n.
      * intros [H | (fs & [= <-] & [(f & e & Hf & Hj & He & Hid) | (ns & n & [= <-] & Hn & Hp & Hid)])].
        -- by left; left.
        -- left. right. exists f, e. split; [by apply list_elem_of_filter | done].
        -- right. exists n. split; [by apply list_elem_of_filter | done].
    + rewrite scan_files_spec. split.
      * intros [H | (f & e & Hf & He & Hid)]; [by left|].
        apply list_elem_of_filter in Hf as [Hj Hf]. right. exists files. split; [done|].
        left. by exists f, e.
      * intros [H | (fs & [= <-] & [(f & e & Hf & Hj & He & Hid) | (ns & n & ? & _)])];
          [by left | | done].
        right. exists f, e. split; [by apply list_elem_of_filter | done].
  - split; [by left|]. by intros [H | (fs & ? & _)].
Qed.

(** Where an added id comes from. *)
Lemma load_added disk processed id :
  id ∈ loadProcessedOrders disk processed → id ∉ processed →
  (id ≠ "" ∧ ∃ files f entries,
     dataDir disk = Some files ∧ f ∈ files ∧ endsWith ".json" (file_name f) = true
     ∧ file_content f = Some entries ∧ Order (Some id) ∈ entries)
  ∨ (order_shaped id ∧ ∃ names name,
       screenshots disk = Some names ∧ name ∈ names
       ∧ startsWith "order-" name = true ∧ endsWith ".png" name = true
       ∧ group1 screenshotName name = Some id).
Proof.
  intros Hid Hnew. apply load_spec in Hid as [H | (files & Hd & [H | H])]; [done | |].
  - destruct H as (f & entries & Hf & Hj & He & Hid). left.
    assert (Hin : id ≠ "" ∧ Order (Some id) ∈ entries).
    { clear He. induction entries as [|[|[x|]] entries IH]; cbn [file_ids] in Hid.
      - by apply elem_of_nil in Hid.
      - by apply elem_of_nil in Hid.
      - destruct (truthy x) eqn:Ex.
        + apply elem_of_cons in Hid as [-> | Hid].
          * split; [by apply truthy_true | left].
          * destruct (IH Hid). split; [done | by right].
        + destruct (IH Hid). split; [done | by right].
      - destruct (IH Hid). split; [done | by right]. }
    destruct Hin. split; [done|]. by exists files, f, entries.
  - destruct H as (names & name & Hs & Hn & Hp & Hid). right.
    apply andb_true_iff in Hp as [Hp1 Hp2].
    split; [by eapply screenshotName_shape|]. by exists names, name.
Qed.

(** X3.  [loadProcessedOrders] only adds ids: the set it leaves
    contains the set it found.  Every id it adds is a non-empty
    [orderId] of a listed [.json] file that could be read, or the text
    that the pattern captures in the name of a listed
    [order-....png] screenshot, which always has the shape [a-b-c] of
    an order id.  When the data directory cannot be listed, nothing is
    added, not even from the screenshots. *)
Theorem loadProcessedOrders_sound (disk : Disk) (processed : gset string) :
  processed ⊆ loadProcessedOrders disk processed
  ∧ (dataDir disk = None → loadProcessedOrders disk processed = processed)
  ∧ (∀ id, id ∈ loadProcessedOrders disk processed → id ∉ processed →
       (id ≠ "" ∧ ∃ files f entries,
          dataDir disk = Some files ∧ f ∈ files ∧ endsWith ".json" (file_name f) = true
          ∧ file_content f = Some entries ∧ Order (Some id) ∈ entries)
       ∨ (order_shaped id ∧ ∃ names name,
            screenshots disk = Some names ∧ name ∈ names
            ∧ startsWith "order-" name = true ∧ endsWith ".png" name = true
            ∧ group1 screenshotName name = Some id)).
Proof.
  split_and!.
  - intros id Hid. apply load_spec. by left.
  - intros Hd. unfold loadProcessedOrders. by rewrite Hd.
  - apply load_added.
Qed.

Lemma file_ids_elem pre post id :
  Broken ∉ pre → id ≠ "" → id ∈ file_ids (pre ++ Order (Some id) :: post).
Proof.
  intros Hpre Hid. induction pre as [|[|[x|]] pre IH]; cbn [app file_ids].
  - rewrite (truthy_nonempty id Hid). left.
  - exfalso. apply Hpre. left.
  - assert (Broken ∉ pre) by (intros ?; apply Hpre; by right).
    destruct (truthy x); [right|]; by apply IH.
  - apply IH. intros ?. apply Hpre. by right.
Qed.

(** X4.  A non-empty [orderId] of a [.json] file of the data directory
    is in the index after [loadProcessedOrders] when the file can be
    read and no earlier element of its [transactions] raises, whatever
    the other files are (unreadable or not) and whether or not the
    screenshot directory can be listed. *)
Theorem loadProcessedOrders_readable_file (disk : Disk) (processed : gset string)
    (files : list DataFile) (f : DataFile) (pre post : list Entry) (id : string) :
  dataDir disk = Some files →
  f ∈ files →
  endsWith ".json" (file_name f) = true →
  file_content f = Some (pre ++ Order (Some id) :: post) →
  Broken ∉ pre → id ≠ "" →
  id ∈ loadProcessedOrders disk processed.
Proof.
  intros Hd Hf Hj He Hpre Hid. apply load_spec. right. exists files. split; [done|].
  left. exists f, (pre ++ Order (Some id) :: post). split_and!; try done.
  by apply file_ids_elem.
Qed.

Lemma loadProcessedOrders_readable_file_witness :
  "222-2222222-2222222" ∈ loadProcessedOrders sample_disk ∅.
Proof.
  apply (loadProcessedOrders_readable_file sample_disk ∅ _
           {| file_name := "transactions-2024-07-05.json";
              file_content := Some ([Order (Some "111-1111111-1111111"); Order None]
                                      ++ Order (Some "222-2222222-2222222") :: []) |}
           [Order (Some "111-1111111-1111111"); Order None] [] "222-2222222-2222222" eq_refl).
  - right. right. left.
  - reflexivity.
  - reflexivity.
  - intros H. apply elem_of_cons in H as [H | H]; [discriminate|].
    apply elem_of_cons in H as [H | H]; [discriminate | by apply elem_of_nil in H].
  - discriminate.
Defined.

Lemma loadProcessedOrders_sound_witness :
  order_shaped "113-1234567-7654321".
Proof.
  destruct (loadProcessedOrders_sound sample_disk ∅) as (_ & _ & H).
  destruct (H "113-1234567-7654321") as [[_ (fs & f & es & Hd & Hf & _ & He & Hin)] | [Hs _]].
  - apply (bool_decide_unpack _). vm_compute. exact I.
  - intros Hin. by apply elem_of_empty in Hin.
  - exfalso. injection Hd as <-.
    repeat (apply elem_of_cons in Hf as [-> | Hf];
            [ cbn in He; try discriminate; injection He as <-;
              repeat (apply elem_of_cons in Hin as [Hin | Hin]; [discriminate|]);
              by apply elem_of_nil in Hin | ]).
    by apply elem_of_nil in Hf.
  - exact Hs.
Defined.

Lemma startsWith_append p s : startsWith p (p +:+ s) = true.
Proof.
  unfold startsWith. induction p as [|c p IH]; rewrite ?append_cons, ?append_nil_l.
  - by destruct s.
  - cbn [String.prefix]. by destruct (Ascii.ascii_dec c c).
Qed.

(** X5.  The name of the screenshot of an order, [order-<id>.png] as
    [scrapeOrderDetailsWithPage] writes it or [order-<id>-<n>.png] as
    [scrapeOrderDetails] does, is read back to the id by
    [loadProcessedOrders] when the id has the shape [a-b-c] ([a]
    without dash, [b] and [c] digits): with such a file in the
    screenshot directory the id is in the index, and the dedup filter
    of a later run drops every reference with that id. *)
Theorem screenshot_name_round_trip (disk : Disk) (processed : gset string)
    (files : list DataFile) (names : list string) (a b c rest : string) :
  dataDir disk = Some files →
  screenshots disk = Some names →
  a ≠ "" → b ≠ "" → c ≠ "" →
  all_chars not_dash a = true → all_chars is_digit b = true → all_chars is_digit c = true →
  stops is_digit rest = true → endsWith ".png" rest = true →
  "order-" +:+ (a +:+ "-" +:+ b +:+ "-" +:+ c) +:+ rest ∈ names →
  group1 screenshotName ("order-" +:+ (a +:+ "-" +:+ b +:+ "-" +:+ c) +:+ rest)
    = Some (a +:+ "-" +:+ b +:+ "-" +:+ c)
  ∧ a +:+ "-" +:+ b +:+ "-" +:+ c ∈ loadProcessedOrders disk processed
  ∧ ∀ found t, t ∈ newTransactions (loadProcessedOrders disk processed) found →
               b_orderId t ≠ a +:+ "-" +:+ b +:+ "-" +:+ c.
Proof.
  intros Hd Hs Ha Hb Hc Ha' Hb' Hc' Hrest Hpng Hin.
  pose proof (screenshotName_order a b c rest Ha Hb Hc Ha' Hb' Hc' Hrest) as Hm.
  assert (Hload : a +:+ "-" +:+ b +:+ "-" +:+ c ∈ loadProcessedOrders disk processed).
  { apply load_spec. right. exists files. split; [done|]. right.
    exists names, ("order-" +:+ (a +:+ "-" +:+ b +:+ "-" +:+ c) +:+ rest).
    split_and!; [done | done | | done].
    apply andb_true_iff. split; [apply startsWith_append|]. by do 2 apply endsWith_append_l. }
  split_and!; [done | done |].
  intros found t Ht Hid. apply newTransactions_not_processed in Ht. by rewrite Hid in Ht.
Qed.

Lemma screenshot_name_round_trip_witness :
  "D01-1234567-1234567" ∈ loadProcessedOrders sample_disk ∅
  ∧ newTransactions (loadProcessedOrders sample_disk ∅)
      [ref "D01-1234567-1234567" 5; ref "333-3333333-3333333" 7]
    = [ref "333-3333333-3333333" 7].
Proof.
  assert (Hname : "order-D01-1234567-1234567-1.png"
                  ∈ ["transactions-page.png"; "order-113-1234567-7654321.png";
                     "order-D01-1234567-1234567-1.png"; "order-unknown-1700000000000.png"])
    by (right; right; left).
  destruct (screenshot_name_round_trip sample_disk ∅ _ _ "D01" "1234567" "1234567" "-1.png"
              eq_refl eq_refl ltac:(discriminate) ltac:(discriminate) ltac:(discriminate)
              eq_refl eq_refl eq_refl eq_refl eq_refl Hname) as (_ & Hin & _).
  split; [exact Hin|]. vm_compute. reflexivity.
Defined.

Lemma dashes_append u v : dashes (u +:+ v) = dashes u + dashes v.
Proof.
  induction u as [|x u IH]; rewrite ?append_cons, ?append_nil_l; [done|].
  cbn [dashes]. rewrite IH. lia.
Qed.

Lemma dashes_not_dash u : all_chars not_dash u = true → dashes u = 0.
Proof.
  induction u as [|x u IH]; [done|]. cbn [all_chars dashes]. intros H.
  apply andb_true_iff in H as [Hx Hu]. unfold not_dash in Hx. apply negb_true_iff in Hx.
  rewrite Hx, IH; done.
Qed.

Lemma digit_not_dash u : all_chars is_digit u = true → all_chars not_dash u = true.
Proof.
  induction u as [|x u IH]; [done|]. cbn [all_chars]. intros H.
  apply andb_true_iff in H as [Hx Hu]. rewrite IH by done. rewrite andb_true_r.
  unfold not_dash. apply negb_true_iff. apply Ascii.eqb_neq. by intros ->.
Qed.

Lemma order_shaped_dashes id : order_shaped id → dashes id = 2.
Proof.
  intros (a & b & c & -> & _ & _ & _ & Ha & Hb & Hc).
  rewrite !dashes_append, (dashes_not_dash a Ha).
  rewrite (dashes_not_dash b (digit_not_dash b Hb)), (dashes_not_dash c (digit_not_dash c Hc)).
  reflexivity.
Qed.

(** X6.  The synthetic id "unknown-<digits>" of a row without order
    id is never recovered from the screenshot directory: after
    [loadProcessedOrders] it is in the index only if it was there
    before or is the [orderId] of a transaction of a [.json] file. *)
Theorem synthetic_id_not_recovered (disk : Disk) (processed : gset string)
    (clock : string) :
  all_chars is_digit clock = true →
  "unknown-" +:+ clock ∈ loadProcessedOrders disk processed →
  "unknown-" +:+ clock ∈ processed
  ∨ ∃ files f entries,
      dataDir disk = Some files ∧ f ∈ files ∧ endsWith ".json" (file_name f) = true
      ∧ file_content f = Some entries ∧ Order (Some ("unknown-" +:+ clock)) ∈ entries.
Proof.
  intros Hclock Hin.
  destruct (decide ("unknown-" +:+ clock ∈ processed)) as [|Hnew]; [by left|]. right.
  destruct (load_added disk processed _ Hin Hnew)
    as [(_ & H) | (Hshape & _)]; [done|].
  exfalso. apply order_shaped_dashes in Hshape.
  rewrite dashes_append, (dashes_not_dash clock (digit_not_dash clock Hclock)) in Hshape.
  discriminate.
Qed.

Lemma synthetic_id_not_recovered_witness :
  "unknown-17" ∈ ({[ "unknown-17" ]} : gset string)
  ∨ ∃ files f entries,
      dataDir sample_disk = Some files ∧ f ∈ files ∧ endsWith ".json" (file_name f) = true
      ∧ file_content f = Some entries ∧ Order (Some "unknown-17") ∈ entries.
Proof.
  apply (synthetic_id_not_recovered sample_disk {[ "unknown-17" ]} "17" eq_refl).
  apply (bool_decide_unpack _). vm_compute. exact I.
Defined.

(** ** More on the list pager *)

(** A walk from page [page] on that finds rows and a "Next Page"
    control on every page before page [bad], which rejects, ends in
    the handler: the rows read so far are not returned. *)
Lemma paginate_rejected config site page all clicked :
  ∀ bad,
    page ≤ bad ≤ 11 → page ≤ 10 →
    (∀ p, page ≤ p < bad →
          ∃ v, view site p = Some v ∧ transactionRows v ≠ [] ∧ nextPageSpan v = true) →
    view site bad = None →
    paginate config site page all clicked
    = walk_caught site (page `max` (bad - 1)) (clicked + (bad - page)).
Proof.
  funelim (paginate config site page all clicked); intros bad Hbad Hpage Hgood Hnone.
  - assert (bad = page) as ->.
    { destruct (decide (bad = page)); [done|].
      destruct (Hgood page ltac:(lia)) as (v & Hv & _). congruence. }
    f_equal; lia.
  - exfalso. destruct (decide (bad = page)) as [-> | ]; [congruence|].
    destruct (Hgood page ltac:(lia)) as (v' & Hv & Hrows & _). congruence.
  - exfalso. destruct (decide (bad = page)) as [-> | ]; [congruence|].
    destruct (Hgood page ltac:(lia)) as (v' & Hv & _ & Hnext). congruence.
  - assert (bad = page + 1) as ->.
    { destruct (decide (bad = page)) as [-> | ]; [congruence|].
      destruct (decide (bad = page + 1)); [done|].
      destruct (Hgood (page + 1) ltac:(lia)) as (v' & Hv & _). congruence. }
    f_equal; lia.
  - exfalso. destruct (decide (bad = page)) as [-> | ]; [congruence|].
    destruct (decide (bad = page + 1)) as [-> | ]; [congruence|]. lia.
  - assert (page + 1 < bad).
    { destruct (decide (bad = page)) as [-> | ]; [congruence|].
      destruct (decide (bad = page + 1)) as [-> | ]; [congruence|]. lia. }
    match goal with IH : ∀ b : nat, @?P b |- _ =>
      rewrite (IH bad) by (try lia; try done; intros ? ?; apply Hgood; lia) end.
    f_equal; lia.
Qed.

(** X7.  When the list shows rows and a "Next Page" control on its
    first pages and then a page fails to load or to answer the
    queries, [scrapeTransactionList] does not return the rows it has
    read: the handler returns the empty list, or rejects when its own
    read of the page rejects.  The clicks made are those before the
    failing page. *)
Theorem pager_failure_discards_rows (config : ConfigData) (site : ListSite) (bad : nat) :
  analysis_ok site = true →
  1 ≤ bad ≤ 11 →
  (∀ p, 1 ≤ p < bad →
        ∃ v, view site p = Some v ∧ transactionRows v ≠ [] ∧ nextPageSpan v = true) →
  view site bad = None →
  outcome (scrapeTransactionList config site)
    = (if debug_ok site then Returned [] else Rejected)
  ∧ clicks (scrapeTransactionList config site) = bad - 1.
Proof.
  intros Ha Hbad Hgood Hnone. unfold scrapeTransactionList. rewrite Ha.
  rewrite (paginate_rejected config site 1 [] 0 bad) by (try lia; done).
  cbn [outcome clicks walk_caught]. split; [done | lia].
Qed.

Lemma pager_failure_discards_rows_witness :
  outcome (scrapeTransactionList amazon failing_site) = Returned []
  ∧ clicks (scrapeTransactionList amazon failing_site) = 1.
Proof.
  apply (pager_failure_discards_rows amazon failing_site 2); [reflexivity | lia | | reflexivity].
  intros p Hp. assert (p = 1) as -> by lia.
  eexists. split; [reflexivity|]. split; [discriminate | reflexivity].
Defined.

(** ** More on the partitioning *)

Lemma chunkArray_slice {T} (array : list T) (chunks j : nat) (c : list T) :
  1 ≤ chunks → chunkArray array chunks !! j = Some c →
  c = slice (j * ceil_div (length array) chunks)
            (j * ceil_div (length array) chunks + ceil_div (length array) chunks) array.
Proof.
  intros Hc. set (size := ceil_div (length array) chunks).
  rewrite chunkArray_unfold by lia.
  rewrite lookup_app_Some. intros [Hj | [Hlen Hj]].
  - unfold loop_chunks in Hj. fold size in Hj. destruct size as [|k]; [done|].
    apply chunk_loop_lookup in Hj as [-> _]. reflexivity.
  - apply lookup_replicate in Hj as [-> _].
    rewrite loop_chunks_length in Hlen by lia. fold size in Hlen.
    unfold slice. symmetry. rewrite drop_ge; [by rewrite take_nil|].
    destruct size as [|k] eqn:E.
    + apply ceil_div_0 in E; lia.
    + pose proof (ceil_div_cover (length array) (S k)). nia.
Qed.

Lemma length_slice {T} (array : list T) i n :
  length (slice i (i + n) array) = n `min` (length array - i).
Proof.
  unfold slice. rewrite length_take, length_drop. f_equal. lia.
Qed.

(** X8.  For a pool of at least one worker, no chunk of [chunkArray]
    has more than [ceil (M / chunks)] jobs; chunk [j] has exactly that
    many when the list still holds them, and otherwise what is left
    from position [j * size] on.  With no more jobs than workers,
    every chunk has at most one job. *)
Theorem chunk_size_bound {T} (array : list T) (chunks j : nat) (c : list T) :
  1 ≤ chunks →
  chunkArray array chunks !! j = Some c →
  let size := ceil_div (length array) chunks in
  length c ≤ size
  ∧ length c = size `min` (length array - j * size)
  ∧ (length array ≤ chunks → length c ≤ 1).
Proof.
  intros Hc Hj size. apply chunkArray_slice in Hj; [|done]. fold size in Hj.
  subst c. rewrite length_slice. split_and!; [lia | done |].
  intros Hsmall. assert (size ≤ 1); [|lia].
  apply ceil_div_le; lia.
Qed.

Lemma chunk_size_bound_witness :
  map length (chunkArray [1; 2; 3; 4; 5; 6; 7; 8; 9] 4) = [3; 3; 3; 0]
  ∧ ∀ c, chunkArray [1; 2; 3; 4; 5; 6; 7; 8; 9] 4 !! 2 = Some c → length c ≤ 3.
Proof.
  split; [reflexivity|]. intros c Hc.
  by destruct (chunk_size_bound [1; 2; 3; 4; 5; 6; 7; 8; 9] 4 2 c ltac:(lia) Hc) as [H _].
Defined.

(** ** More on the dedup filter *)

(** X9.  The dedup filter keeps the references whose id is not in the
    index, in their order, repeated ids included; it is idempotent;
    a larger index keeps fewer references. *)
Theorem dedup_filter_properties (processed : gset string) (found : list BasicTransaction) :
  newTransactions processed (newTransactions processed found) = newTransactions processed found
  ∧ newTransactions processed found `sublist_of` found
  ∧ (∀ t, t ∈ newTransactions processed found ↔ t ∈ found ∧ b_orderId t ∉ processed)
  ∧ (∀ l1 l2, newTransactions processed (l1 ++ l2)
              = newTransactions processed l1 ++ newTransactions processed l2)
  ∧ (∀ processed', processed ⊆ processed' →
       newTransactions processed' found
       = newTransactions processed' (newTransactions processed found)).
Proof.
  unfold newTransactions. split_and!.
  - rewrite list_filter_filter. apply list_filter_iff. tauto.
  - apply sublist_filter.
  - intros t. rewrite list_elem_of_filter. tauto.
  - intros l1 l2. apply filter_app.
  - intros processed' Hsub. rewrite list_filter_filter. apply list_filter_iff.
    intros t. split; [|tauto]. intros H. split; [done|]. intros Hin. apply H. by apply Hsub.
Qed.

Lemma dedup_filter_properties_witness :
  newTransactions {[ "a"; "b" ]} [ref "a" 1; ref "c" 2; ref "b" 3]
  = newTransactions {[ "a"; "b" ]} (newTransactions {[ "a" ]} [ref "a" 1; ref "c" 2; ref "b" 3]).
Proof.
  destruct (dedup_filter_properties {[ "a" ]} [ref "a" 1; ref "c" 2; ref "b" 3])
    as (_ & _ & _ & _ & H).
  apply H. apply union_subseteq_l.
Defined.

(** ** More on the worker pool *)

Lemma scrape_processed config transaction env doc st :
  processedOrders (scrapeOrderDetailsWithPage config transaction env doc st).2
  = processedOrders st.
Proof. scrape_cases config transaction env doc st; reflexivity. Qed.

Lemma worker_loop_processed config env i chunk doc st results :
  processedOrders (worker_loop config env i chunk doc st results).2
  = list_to_set (map b_orderId chunk) ∪ processedOrders st.
Proof.
  revert i doc st results. induction chunk as [|t chunk IH]; intros i doc st results.
  - cbn. by rewrite ?list_to_set_nil, (left_id_L ∅ (∪)).
  - cbn [worker_loop].
    pose proof (scrape_processed config t (env i) doc st) as Hp.
    destruct (scrapeOrderDetailsWithPage config t (env i) doc st) as [[d doc'] st'].
    rewrite IH. cbn [processedOrders mark_processed snd map] in *. rewrite Hp.
    rewrite list_to_set_cons.
    by rewrite (assoc_L (∪)), (comm_L (∪) (list_to_set _) {[ _ ]}).
Qed.

Lemma worker_processed config pool index chunk st :
  processedOrders (worker config pool index chunk st).2
  = list_to_set (map b_orderId (if newPage_ok pool index then chunk else []))
    ∪ processedOrders st.
Proof.
  unfold worker. destruct chunk as [|t chunk].
  - cbn. destruct (newPage_ok pool index); cbn;
      by rewrite ?list_to_set_nil, (left_id_L ∅ (∪)).
  - cbn [length Nat.eqb]. destruct (newPage_ok pool index).
    + pose proof (worker_loop_processed config (job_env pool index) 0 (t :: chunk) blank st [])
        as Hp.
      destruct (worker_loop config (job_env pool index) 0 (t :: chunk) blank st []).
      exact Hp.
    + cbn. by rewrite ?list_to_set_nil, (left_id_L ∅ (∪)).
Qed.

Lemma run_workers_processed config pool index chunks st :
  processedOrders (run_workers config pool index chunks st).2
  = list_to_set (map b_orderId
      (concat (imap (λ j chunk, if newPage_ok pool (index + j) then chunk else []) chunks)))
    ∪ processedOrders st.
Proof.
  revert index st. induction chunks as [|chunk chunks IH]; intros index st.
  - cbn. by rewrite ?list_to_set_nil, (left_id_L ∅ (∪)).
  - cbn [run_workers].
    pose proof (worker_processed config pool index chunk st) as Hw.
    destruct (worker config pool index chunk st) as [r st1].
    pose proof (IH (S index) st1) as Hr.
    destruct (run_workers config pool (S index) chunks st1) as [rs st2].
    cbn [snd] in *. rewrite Hr, Hw. cbn [imap concat]. rewrite Nat.add_0_r.
    rewrite map_app, list_to_set_app_L.
    assert (Heq : imap ((λ j chunk0, if newPage_ok pool (index + j) then chunk0 else []) ∘ S)
                    chunks
                  = imap (λ j chunk0, if newPage_ok pool (S index + j) then chunk0 else [])
                      chunks).
    { apply imap_ext. intros j x _. simpl. by replace (index + S j) with (S (index + j)) by lia. }
    rewrite Heq. by rewrite (assoc_L (∪)), (comm_L (∪) (list_to_set (map _ (concat _)))).
Qed.

(** The state after [processTransactionsInParallel]: the jobs started
    and the ids marked. *)
Lemma parallel_state config pool new this :
  jobs (shared (processTransactionsInParallel config pool new this).1)
  = jobs (shared this) ++ started_jobs pool new
  ∧ processedOrders (shared (processTransactionsInParallel config pool new this).1)
    = list_to_set (map b_orderId (started_jobs pool new)) ∪ processedOrders (shared this).
Proof.
  unfold processTransactionsInParallel, started_jobs. destruct (launch_ok pool).
  - pose proof (run_workers_jobs config pool 0 (chunkArray new PARALLEL_BROWSERS) (shared this))
      as Hj.
    pose proof (run_workers_processed config pool 0 (chunkArray new PARALLEL_BROWSERS)
                  (shared this)) as Hp.
    destruct (run_workers config pool 0 (chunkArray new PARALLEL_BROWSERS) (shared this))
      as [allResults st].
    cbn [snd] in *. by destruct (promise_all allResults).
  - cbn. split; [by rewrite app_nil_r | by rewrite ?list_to_set_nil, (left_id_L ∅ (∪))].
Qed.

Lemma started_jobs_all pool new :
  launch_ok pool = true → (∀ i, newPage_ok pool i = true) → started_jobs pool new = new.
Proof.
  intros Hl Hp. unfold started_jobs. rewrite Hl.
  rewrite (concat_imap_all (newPage_ok pool)) by done.
  apply chunkArray_concat. unfold PARALLEL_BROWSERS. lia.
Qed.

(** X10.  Every job that a worker starts is marked as processed,
    whatever happens to its page operations: once the workers of
    [processTransactionsInParallel] have settled, the set of processed
    orders is the set before together with the ids of the jobs
    started, also for jobs whose record is only the basic one.  When
    the browsers start and every page opens, these are all the new
    references. *)
Theorem jobs_marked_processed (config : ConfigData) (pool : PoolEnv)
    (new : list BasicTransaction) (this : Scraper) :
  processedOrders (shared (processTransactionsInParallel config pool new this).1)
  = list_to_set (map b_orderId (started_jobs pool new)) ∪ processedOrders (shared this)
  ∧ jobs (shared (processTransactionsInParallel config pool new this).1)
    = jobs (shared this) ++ started_jobs pool new
  ∧ (launch_ok pool = true → (∀ i, newPage_ok pool i = true) →
     ∀ t, t ∈ new →
          b_orderId t ∈ processedOrders
                          (shared (processTransactionsInParallel config pool new this).1)).
Proof.
  destruct (parallel_state config pool new this) as [Hj Hp].
  split_and!; [done | done |].
  intros Hl Hpages t Ht. rewrite Hp, (started_jobs_all pool new Hl Hpages).
  apply elem_of_union_l, elem_of_list_to_set, list_elem_of_fmap. by exists t.
Qed.

Lemma jobs_marked_processed_witness :
  "113-1234567-1234567"
    ∈ processedOrders
        (shared (processTransactionsInParallel amazon closed_pool [sample_job]
                   (fresh_scraper ∅)).1).
Proof.
  destruct (jobs_marked_processed amazon closed_pool [sample_job] (fresh_scraper ∅))
    as (_ & _ & H).
  apply (H eq_refl (λ _, eq_refl) sample_job). left.
Defined.

(** *** The record of a job *)

Lemma extract_trackingNumber doc steps :
  d_trackingNumber (extractOrderDetailsWithPage doc steps) = "".
Proof.
  unfold extractOrderDetailsWithPage.
  destruct (1 <=? steps), (2 <=? steps), (3 <=? steps), (4 <=? steps);
    repeat match goal with
           | |- context [match page_query ?sel ?d with _ => _ end] =>
               destruct (page_query sel d) as [?e|]
           | |- context [if truthy ?x then _ else _] => destruct (truthy x)
           end; reflexivity.
Qed.

Lemma scrape_total config transaction env doc st :
  total (scrapeOrderDetailsWithPage config transaction env doc st).1.1
  = num_or (b_total transaction) (Num 0).
Proof. scrape_cases config transaction env doc st; reflexivity. Qed.

Lemma scrape_describes config transaction env doc st :
  describes (scrapeOrderDetailsWithPage config transaction env doc st).1.1 transaction.
Proof. split; [apply scrape_orderId | apply scrape_total]. Qed.

Lemma scrape_refund config transaction env doc st :
  refund (scrapeOrderDetailsWithPage config transaction env doc st).1.1 = None.
Proof. scrape_cases config transaction env doc st; reflexivity. Qed.

(** *** The results of the pool *)

Lemma worker_loop_describes config env i chunk doc st results :
  (∀ j, delay_ok (env j) = true) →
  ∃ added, (worker_loop config env i chunk doc st results).1 = results ++ added
           ∧ Forall2 describes added chunk.
Proof.
  intros Hd. revert i doc st results.
  induction chunk as [|t chunk IH]; intros i doc st results.
  - exists []. split; [by rewrite app_nil_r | constructor].
  - cbn [worker_loop].
    pose proof (scrape_describes config t (env i) doc st) as Hr.
    destruct (scrapeOrderDetailsWithPage config t (env i) doc st) as [[d doc'] st'].
    rewrite Hd.
    destruct (IH (S i) doc' (mark_processed (b_orderId t) st') (results ++ [d]))
      as (added & -> & Hadded).
    exists (d :: added). split; [by rewrite <- app_assoc | by constructor].
Qed.

Lemma worker_describes config pool index chunk st :
  (chunk ≠ [] → newPage_ok pool index = true) →
  (∀ j, delay_ok (job_env pool index j) = true) →
  ∃ results, (worker config pool index chunk st).1 = Returned results
             ∧ Forall2 describes results chunk.
Proof.
  intros Hpage Hd. unfold worker. destruct chunk as [|t chunk].
  - exists []. split; [done | constructor].
  - cbn [length Nat.eqb]. rewrite Hpage by done.
    destruct (worker_loop_describes config (job_env pool index) 0 (t :: chunk) blank st [] Hd)
      as (added & Hadded & HF).
    destruct (worker_loop config (job_env pool index) 0 (t :: chunk) blank st [])
      as [results st']. cbn [fst] in Hadded. subst results. by exists added.
Qed.

Lemma run_workers_describes config pool index chunks st :
  (∀ j chunk, chunks !! j = Some chunk → chunk ≠ [] → newPage_ok pool (index + j) = true) →
  (∀ i j, delay_ok (job_env pool i j) = true) →
  ∃ rs, promise_all (run_workers config pool index chunks st).1 = Returned rs
        ∧ Forall2 describes (concat rs) (concat chunks).
Proof.
  intros Hpage Hd. revert index st Hpage.
  induction chunks as [|chunk chunks IH]; intros index st Hpage.
  - exists []. split; [done | constructor].
  - cbn [run_workers].
    destruct (worker_describes config pool index chunk st) as (results & Hw & HF).
    { intros Hne. rewrite <- (Nat.add_0_r index). by apply (Hpage 0 chunk). }
    { done. }
    destruct (worker config pool index chunk st) as [r st1]. cbn [fst] in Hw. subst r.
    destruct (IH (S index) st1) as (rs & Hrs & HFs).
    { intros j c Hj Hne. replace (S index + j) with (index + S j) by lia.
      by apply (Hpage (S j) c). }
    destruct (run_workers config pool (S index) chunks st1) as [outs st2].
    cbn [fst promise_all] in *. rewrite Hrs. exists (results :: rs).
    split; [done|]. cbn [concat]. by apply Forall2_app.
Qed.

Lemma describes_ids added new :
  Forall2 describes added new → map orderId added = map b_orderId new.
Proof.
  induction 1 as [|r t added new [Hid _] _ IH]; [done|].
  cbn [map]. by rewrite Hid, IH.
Qed.

Lemma parallel_describes config pool new this :
  launch_ok pool = true →
  pages_open pool (chunkArray new PARALLEL_BROWSERS) →
  (∀ i j, delay_ok (job_env pool i j) = true) →
  ∃ that added,
    processTransactionsInParallel config pool new this = (that, true)
    ∧ transactions that = transactions this ++ added
    ∧ Forall2 describes added new.
Proof.
  intros Hl Hpages Hd. unfold processTransactionsInParallel. rewrite Hl.
  destruct (run_workers_describes config pool 0 (chunkArray new PARALLEL_BROWSERS)
              (shared this)) as (rs & Hrs & HF); [exact Hpages | exact Hd |].
  destruct (run_workers config pool 0 (chunkArray new PARALLEL_BROWSERS) (shared this))
    as [allResults st]. cbn [fst] in Hrs. rewrite Hrs.
  rewrite chunkArray_concat in HF by (unfold PARALLEL_BROWSERS; lia).
  eexists _, (concat rs). by split_and!.
Qed.

(** X11.  When the browsers start, the page of every worker that has
    a job opens and the delays between jobs resolve,
    [processTransactionsInParallel] resolves and appends to the
    records of earlier runs exactly one record per reference, in the
    order of the references, each with the id of its reference and
    with the total [t.total || 0]: the split into chunks and the merge
    of the results of the workers lose, add and reorder nothing. *)
Theorem pool_returns_in_order (config : ConfigData) (pool : PoolEnv)
    (new : list BasicTransaction) (this : Scraper) :
  launch_ok pool = true →
  pages_open pool (chunkArray new PARALLEL_BROWSERS) →
  (∀ i j, delay_ok (job_env pool i j) = true) →
  (processTransactionsInParallel config pool new this).2 = true
  ∧ ∃ added,
      transactions (processTransactionsInParallel config pool new this).1
      = transactions this ++ added
      ∧ Forall2 describes added new
      ∧ map orderId added = map b_orderId new.
Proof.
  intros Hl Hpages Hd.
  destruct (parallel_describes config pool new this Hl Hpages Hd)
    as (that & added & -> & Ht & HF).
  split; [done|]. exists added. split_and!; [done | done | by apply describes_ids].
Qed.

Lemma pool_returns_in_order_witness :
  map orderId
    (transactions
       (processTransactionsInParallel amazon ready_pool
          [ref "a" 1; ref "b" 2; ref "c" 3; ref "d" 4; ref "e" 5] (fresh_scraper ∅)).1)
  = ["a"; "b"; "c"; "d"; "e"].
Proof.
  destruct (pool_returns_in_order amazon ready_pool
              [ref "a" 1; ref "b" 2; ref "c" 3; ref "d" 4; ref "e" 5] (fresh_scraper ∅))
    as (_ & added & Ht & _ & Hids).
  - reflexivity.
  - intros j chunk _ _. reflexivity.
  - intros i j. reflexivity.
  - rewrite Ht. cbn [fresh_scraper transactions app]. exact Hids.
Defined.

(** *** When the pool rejects *)

Lemma worker_rejected config pool index chunk st :
  (worker config pool index chunk st).1 = Rejected
  ↔ chunk ≠ [] ∧ newPage_ok pool index = false.
Proof.
  unfold worker. destruct chunk as [|t chunk].
  - cbn. split; [done | by intros [? _]].
  - cbn [length Nat.eqb]. destruct (newPage_ok pool index).
    + destruct (worker_loop _ _ _ _ _ _ _). cbn. split; [done | by intros [_ ?]].
    + cbn. by split.
Qed.

Lemma run_workers_rejected config pool index chunks st :
  promise_all (run_workers config pool index chunks st).1 = Rejected
  ↔ ∃ j chunk, chunks !! j = Some chunk ∧ chunk ≠ [] ∧ newPage_ok pool (index + j) = false.
Proof.
  revert index st. induction chunks as [|chunk chunks IH]; intros index st.
  - cbn. split; [done | by intros (j & c & H & _)].
  - cbn [run_workers].
    pose proof (worker_rejected config pool index chunk st) as Hw.
    destruct (worker config pool index chunk st) as [r st1].
    pose proof (IH (S index) st1) as Hr.
    destruct (run_workers config pool (S index) chunks st1) as [rs st2].
    cbn [fst promise_all] in *. split.
    + destruct r as [a|].
      * destruct (promise_all rs) as [b|]; [done|]. intros _.
        destruct Hr as [Hr _]. destruct (Hr eq_refl) as (j & c & Hj & Hne & Hp).
        exists (S j), c. split_and!; [done | done |].
        by replace (index + S j) with (S index + j) by lia.
      * intros _. destruct Hw as [Hw _]. destruct (Hw eq_refl) as [Hne Hp].
        exists 0, chunk. rewrite Nat.add_0_r. by split_and!.
    + intros (j & c & Hj & Hne & Hp). destruct r as [a|]; [|done].
      destruct j as [|j].
      * cbn in Hj. injection Hj as <-. rewrite Nat.add_0_r in Hp.
        destruct Hw as [_ Hw]. by discriminate Hw.
      * cbn in Hj. destruct Hr as [_ Hr]. rewrite Hr; [done|].
        exists j, c. split_and!; [done | done |].
        by replace (S index + j) with (index + S j) by lia.
Qed.

Lemma parallel_resolves_iff config pool new this :
  (processTransactionsInParallel config pool new this).2 = true
  ↔ launch_ok pool = true ∧ pages_open pool (chunkArray new PARALLEL_BROWSERS).
Proof.
  unfold processTransactionsInParallel. destruct (launch_ok pool).
  - pose proof (run_workers_rejected config pool 0 (chunkArray new PARALLEL_BROWSERS)
                  (shared this)) as Hr.
    destruct (run_workers config pool 0 (chunkArray new PARALLEL_BROWSERS) (shared this))
      as [allResults st]. cbn [fst] in Hr.
    destruct (promise_all allResults) as [results|]; cbn [snd].
    + split; [|done]. intros _. split; [done|]. intros j chunk Hj Hne.
      destruct (newPage_ok pool j) eqn:Hp; [done|].
      destruct Hr as [_ Hr]. by discriminate Hr; exists j, chunk.
    + split; [done|]. intros [_ Hopen]. destruct Hr as [Hr _].
      destruct (Hr eq_refl) as (j & chunk & Hj & Hne & Hp). cbn in Hp.
      by rewrite (Hopen j chunk Hj Hne) in Hp.
  - cbn. split; [done | by intros [? _]].
Qed.

Lemma parallel_rejected_keeps config pool new this :
  (processTransactionsInParallel config pool new this).2 = false →
  transactions (processTransactionsInParallel config pool new this).1 = transactions this
  ∧ totalTransactions (processTransactionsInParallel config pool new this).1
    = totalTransactions this
  ∧ totalAmount (processTransactionsInParallel config pool new this).1 = totalAmount this.
Proof.
  unfold processTransactionsInParallel. destruct (launch_ok pool); [|done].
  destruct (run_workers config pool 0 (chunkArray new PARALLEL_BROWSERS) (shared this))
    as [allResults st].
  by destruct (promise_all allResults).
Qed.

(** X12.  When the list shows new references and the browsers do not
    start, or the page of a worker that has a job does not open,
    [scrapeTransactions] rejects and keeps no record of the run, not
    even of the jobs of the other workers: the records and the
    metadata of the scraper are the ones before the run. *)
Theorem failed_pool_discards_results (config : ConfigData) (site : ListSite) (pool : PoolEnv)
    (this : Scraper) (found : list BasicTransaction) :
  outcome (scrapeTransactionList config site) = Returned found →
  newTransactions (processedOrders (shared this)) found ≠ [] →
  ¬ (launch_ok pool = true
     ∧ pages_open pool
         (chunkArray (newTransactions (processedOrders (shared this)) found)
            PARALLEL_BROWSERS)) →
  (scrapeTransactions config site pool this).2 = false
  ∧ transactions (scrapeTransactions config site pool this).1 = transactions this
  ∧ totalTransactions (scrapeTransactions config site pool this).1 = totalTransactions this
  ∧ totalAmount (scrapeTransactions config site pool this).1 = totalAmount this.
Proof.
  intros Hfound Hnew Hfail. unfold scrapeTransactions. rewrite Hfound.
  destruct (length _ =? 0) eqn:Elen.
  { by apply Nat.eqb_eq, nil_length_inv in Elen. }
  pose proof (parallel_resolves_iff config pool
                (newTransactions (processedOrders (shared this)) found) this) as Hiff.
  pose proof (parallel_rejected_keeps config pool
                (newTransactions (processedOrders (shared this)) found) this) as Hkeep.
  destruct (processTransactionsInParallel config pool
              (newTransactions (processedOrders (shared this)) found) this) as [that ok].
  cbn [snd fst] in *. destruct ok.
  - destruct Hfail. by apply Hiff.
  - cbn [fst snd]. split; [done|]. by apply Hkeep.
Qed.

Lemma failed_pool_discards_results_witness :
  (scrapeTransactions amazon two_orders_site second_page_fails (fresh_scraper ∅)).2 = false
  ∧ transactions
      (scrapeTransactions amazon two_orders_site second_page_fails (fresh_scraper ∅)).1 = []
  ∧ map b_orderId
      (jobs (shared
         (scrapeTransactions amazon two_orders_site second_page_fails (fresh_scraper ∅)).1))
    = ["111-1111111-1111111"].
Proof.
  destruct (failed_pool_discards_results amazon two_orders_site second_page_fails
              (fresh_scraper ∅)
              (default [] (match outcome (scrapeTransactionList amazon two_orders_site) with
                           | Returned l => Some l
                           | Rejected => None
                           end)))
    as (Hok & Ht & _).
  - by vm_compute.
  - by vm_compute.
  - intros [_ Hopen].
    assert (Hp : newPage_ok second_page_fails 1 = true); [|by vm_compute in Hp].
    eapply Hopen; [by vm_compute | done].
  - split_and!; [exact Hok | exact Ht | by vm_compute].
Defined.

(** *** A second run *)

Lemma concat_imap_open {A} (f : nat → bool) (chunks : list (list A)) :
  (∀ j chunk, chunks !! j = Some chunk → chunk ≠ [] → f j = true) →
  concat (imap (λ j chunk, if f j then chunk else []) chunks) = concat chunks.
Proof.
  revert f. induction chunks as [|chunk chunks IH]; intros f Hf; [done|].
  cbn [imap concat]. f_equal.
  - destruct chunk as [|x chunk]; [by destruct (f 0)|]. by rewrite (Hf 0 (x :: chunk)).
  - apply (IH (f ∘ S)). intros j c Hj Hne. by apply (Hf (S j) c).
Qed.

Lemma started_jobs_open pool new :
  launch_ok pool = true → pages_open pool (chunkArray new PARALLEL_BROWSERS) →
  started_jobs pool new = new.
Proof.
  intros Hl Hopen. unfold started_jobs. rewrite Hl.
  rewrite (concat_imap_open (newPage_ok pool)) by done.
  apply chunkArray_concat. unfold PARALLEL_BROWSERS. lia.
Qed.

Lemma parallel_resolved_processed config pool new this :
  (processTransactionsInParallel config pool new this).2 = true →
  processedOrders (shared (processTransactionsInParallel config pool new this).1)
  = list_to_set (map b_orderId new) ∪ processedOrders (shared this).
Proof.
  intros Hok. apply parallel_resolves_iff in Hok as [Hl Hopen].
  destruct (parallel_state config pool new this) as [_ ->].
  by rewrite started_jobs_open.
Qed.

Lemma newTransactions_nil processed found :
  newTransactions processed found = [] ↔ ∀ t, t ∈ found → b_orderId t ∈ processed.
Proof.
  unfold newTransactions. induction found as [|t found IH].
  - split; [by intros _ t Ht; apply elem_of_nil in Ht | done].
  - rewrite filter_cons. destruct (decide (b_orderId t ∉ processed)) as [Hn | Hy].
    + split; [done|]. intros H. destruct Hn. apply H. left.
    + rewrite IH. apply dec_stable in Hy. split.
      * intros H t' Ht'. apply elem_of_cons in Ht' as [-> | Ht']; [done | by apply H].
      * intros H t' Ht'. apply H. by right.
Qed.

(** After a run that resolves, every reference that the list showed
    is marked as processed. *)
Lemma scrapeTransactions_marks_found config site pool this found :
  outcome (scrapeTransactionList config site) = Returned found →
  (scrapeTransactions config site pool this).2 = true →
  ∀ t, t ∈ found →
       b_orderId t ∈ processedOrders (shared (scrapeTransactions config site pool this).1).
Proof.
  intros Hfound. unfold scrapeTransactions. rewrite Hfound.
  destruct (length _ =? 0) eqn:Elen.
  - apply Nat.eqb_eq, nil_length_inv in Elen. intros _. cbn.
    by apply newTransactions_nil.
  - pose proof (parallel_resolved_processed config pool
                  (newTransactions (processedOrders (shared this)) found) this) as Hp.
    destruct (processTransactionsInParallel config pool
                (newTransactions (processedOrders (shared this)) found) this) as [that ok].
    cbn [fst snd] in *. destruct ok; [|done]. intros _ t Ht. cbn. rewrite Hp by done.
    destruct (decide (b_orderId t ∈ processedOrders (shared this))) as [Hy | Hn].
    + by apply elem_of_union_r.
    + apply elem_of_union_l, elem_of_list_to_set, list_elem_of_fmap. exists t.
      split; [done|]. unfold newTransactions. by apply list_elem_of_filter.
Qed.

Lemma idle_run config site pool this found :
  outcome (scrapeTransactionList config site) = Returned found →
  (∀ t, t ∈ found → b_orderId t ∈ processedOrders (shared this)) →
  scrapeTransactions config site pool this = (update_metadata this, true).
Proof.
  intros Hfound Hall. unfold scrapeTransactions. rewrite Hfound.
  apply newTransactions_nil in Hall. by rewrite Hall.
Qed.

(** X13.  A run of [scrapeTransactions] that resolves leaves every
    order of its list marked.  So a later run of the same object on a
    list that shows no other order ids than the first (whatever the
    browsers then do) starts no job, adds no record and leaves the
    records, the totals and the state as they are.  (A row without
    order id is not such a row: its id is made from the clock.) *)
Theorem rerun_is_idle (config : ConfigData) (site site' : ListSite) (pool pool' : PoolEnv)
    (this : Scraper) (found found' : list BasicTransaction) :
  outcome (scrapeTransactionList config site) = Returned found →
  (scrapeTransactions config site pool this).2 = true →
  outcome (scrapeTransactionList config site') = Returned found' →
  (∀ t', t' ∈ found' → ∃ t, t ∈ found ∧ b_orderId t = b_orderId t') →
  scrapeTransactions config site' pool' (scrapeTransactions config site pool this).1
  = ((scrapeTransactions config site pool this).1, true).
Proof.
  intros Hfound Hok Hfound' Hids.
  rewrite (idle_run config site' pool' _ found' Hfound').
  - destruct (scrapeTransactions_resolved config site pool this Hok) as [that ->].
    reflexivity.
  - intros t' Ht'. destruct (Hids t' Ht') as (t & Ht & <-).
    by apply (scrapeTransactions_marks_found config site pool this found).
Qed.

Lemma rerun_is_idle_witness :
  scrapeTransactions amazon later_site closed_pool
    (scrapeTransactions amazon two_orders_site ready_pool (fresh_scraper ∅)).1
  = ((scrapeTransactions amazon two_orders_site ready_pool (fresh_scraper ∅)).1, true).
Proof.
  apply (rerun_is_idle amazon two_orders_site later_site ready_pool closed_pool
           (fresh_scraper ∅)
           [ref "111-1111111-1111111" 10; ref "222-2222222-2222222" 20]
           [ref "222-2222222-2222222" 20]).
  - by vm_compute.
  - by vm_compute.
  - by vm_compute.
  - intros t' Ht'. apply list_elem_of_singleton in Ht' as ->.
    exists (ref "222-2222222-2222222" 20). split; [by right; left | done].
Defined.

(** A row without order id is processed again by a later run: its id
    is made from the clock of the run. *)
Example row_without_id_runs_again :
  let once := (scrapeTransactions amazon (cash_site 17) ready_pool (fresh_scraper ∅)).1 in
  let twice := (scrapeTransactions amazon (cash_site 18) ready_pool once).1 in
  map orderId (transactions once) = ["unknown-17"]
  ∧ map orderId (transactions twice) = ["unknown-17"; "unknown-18"]
  ∧ totalAmount once = Num 5 ∧ totalAmount twice = Num 10.
Proof. by vm_compute. Qed.

(** *** What a record holds *)

Lemma scrape_date config transaction env doc st :
  b_date transaction ≠ "" →
  date (scrapeOrderDetailsWithPage config transaction env doc st).1.1 = b_date transaction.
Proof.
  intros Hd. apply String.eqb_neq in Hd.
  scrape_cases config transaction env doc st;
    cbn [createTransaction basicRecord date p_date opt_str_or];
    unfold truthy, str_or in *; rewrite ?Hd in *; cbn [negb] in *;
    rewrite ?Hd; congruence.
Qed.

Lemma scrape_screenshot config transaction env doc st :
  orderScreenshot (scrapeOrderDetailsWithPage config transaction env doc st).1.1 = ""
  ∨ (orderScreenshot (scrapeOrderDetailsWithPage config transaction env doc st).1.1
     = screenshotPath_of config transaction
     ∧ screenshotPath_of config transaction
         ∈ files (scrapeOrderDetailsWithPage config transaction env doc st).2).
Proof.
  scrape_cases config transaction env doc st;
    first [ by left
          | right; split; [apply str_or_empty|]; cbn [files log_job] in *;
            first [ done | by apply elem_of_union_l, elem_of_singleton ] ].
Qed.

(** X14.  Whatever the page of a job does, the record that
    [scrapeOrderDetailsWithPage] returns has the id of its reference,
    the total [t.total || 0] and the date of the reference when that
    is not empty; its status is "unknown" and its tracking number
    empty (neither is ever read from the page), and it has neither a
    [refund] nor an [orderDetailsUrl] property, which
    [createTransaction] does not copy.  It names a screenshot only
    when the file of that name exists, and then it is the file
    [order-<id>.png] of the screenshot directory. *)
Theorem job_record_invariants (config : ConfigData) (transaction : BasicTransaction)
    (env : JobEnv) (doc : node) (st : State) :
  let r := (scrapeOrderDetailsWithPage config transaction env doc st).1.1 in
  orderId r = b_orderId transaction
  ∧ total r = num_or (b_total transaction) (Num 0)
  ∧ (b_date transaction ≠ "" → date r = b_date transaction)
  ∧ status r = "unknown"
  ∧ trackingNumber r = ""
  ∧ refund r = None
  ∧ orderDetailsUrl r = None
  ∧ (orderScreenshot r = ""
     ∨ (orderScreenshot r = path_join (screenshotsDir config)
                              ("order-" +:+ b_orderId transaction +:+ ".png")
        ∧ orderScreenshot r
            ∈ files (scrapeOrderDetailsWithPage config transaction env doc st).2)).
Proof.
  intros r. subst r. split_and!.
  - apply scrape_orderId.
  - apply scrape_total.
  - apply scrape_date.
  - scrape_cases config transaction env doc st; reflexivity.
  - scrape_cases config transaction env doc st; try reflexivity;
      cbn [createTransaction trackingNumber p_trackingNumber opt_str_or];
      by rewrite extract_trackingNumber.
  - apply scrape_refund.
  - scrape_cases config transaction env doc st; reflexivity.
  - destruct (scrape_screenshot config transaction env doc st) as [H | [H1 H2]]; [by left|].
    right. rewrite H1. by split.
Qed.

Lemma job_record_invariants_witness :
  let r := (scrapeOrderDetailsWithPage amazon
              {| b_orderId := "113-1234567-1234567"; b_date := "March 3, 2024";
                 b_total := Num 0; b_orderDetailsUrl := "" |}
              (live_page summary_rows) summary_rows empty_state).1.1 in
  date r = "March 3, 2024" ∧ total r = Num 0 ∧ refund r = None.
Proof.
  destruct (job_record_invariants amazon
              {| b_orderId := "113-1234567-1234567"; b_date := "March 3, 2024";
                 b_total := Num 0; b_orderDetailsUrl := "" |}
              (live_page summary_rows) summary_rows empty_state)
    as (_ & Ht & Hd & _ & _ & Hr & _).
  split_and!; [by apply Hd | exact Ht | exact Hr].
Defined.

(** *** Refunds and the total of a run *)

Lemma worker_loop_no_refund config env i chunk doc st results :
  Forall (λ r, refund r = None) results →
  Forall (λ r, refund r = None) (worker_loop config env i chunk doc st results).1.
Proof.
  revert i doc st results. induction chunk as [|t chunk IH]; intros i doc st results Hres;
    [done|].
  cbn [worker_loop].
  pose proof (scrape_refund config t (env i) doc st) as Hr.
  destruct (scrapeOrderDetailsWithPage config t (env i) doc st) as [[d doc'] st'].
  apply IH. destruct (delay_ok (env i)); repeat (apply Forall_app; split); try done;
    by apply Forall_singleton.
Qed.

Lemma run_workers_no_refund config pool index chunks st rs :
  promise_all (run_workers config pool index chunks st).1 = Returned rs →
  Forall (λ r, refund r = None) (concat rs).
Proof.
  revert index st rs. induction chunks as [|chunk chunks IH]; intros index st rs.
  - cbn. by intros [= <-].
  - cbn [run_workers].
    assert (Hw : ∀ results, (worker config pool index chunk st).1 = Returned results →
                            Forall (λ r, refund r = None) results).
    { unfold worker. destruct (length chunk =? 0); [by intros ? [= <-]|].
      destruct (newPage_ok pool index); [|done].
      pose proof (worker_loop_no_refund config (job_env pool index) 0 chunk blank st []
                    (Forall_nil_2 _)) as Hl.
      destruct (worker_loop _ _ _ _ _ _ _). by intros ? [= <-]. }
    destruct (worker config pool index chunk st) as [r st1].
    pose proof (IH (S index) st1) as Hr.
    destruct (run_workers config pool (S index) chunks st1) as [outs st2].
    cbn [fst promise_all] in *. destruct r as [a|]; [|done].
    destruct (promise_all outs) as [b|]; [|done]. intros [= <-].
    cbn [concat]. apply Forall_app. split; [by apply Hw | by apply Hr].
Qed.

Lemma scrapeTransactions_no_refund config site pool this :
  Forall (λ r, refund r = None) (transactions this) →
  Forall (λ r, refund r = None) (transactions (scrapeTransactions config site pool this).1).
Proof.
  intros Hthis. unfold scrapeTransactions.
  destruct (outcome (scrapeTransactionList config site)) as [found|]; [|done].
  destruct (length _ =? 0); [done|].
  unfold processTransactionsInParallel. destruct (launch_ok pool); [|done].
  pose proof (run_workers_no_refund config pool 0
                (chunkArray (newTransactions (processedOrders (shared this)) found)
                   PARALLEL_BROWSERS) (shared this)) as Hr.
  destruct (run_workers _ _ _ _ _) as [allResults st]. cbn [fst] in Hr.
  destruct (promise_all allResults) as [results|]; [|done].
  cbn. apply Forall_app. split; [done | by apply Hr].
Qed.

Lemma fold_left_no_refund l a :
  Forall (λ r, refund r = None) l →
  fold_left net_step l a
  = fold_left (λ sum t, num_sub (num_add sum (num_or (total t) (Num 0))) (Num 0)) l a.
Proof.
  intros H. revert a. induction H as [|t l Ht _ IH]; intros a; [done|].
  cbn [fold_left]. rewrite <- IH. unfold net_step. by rewrite Ht.
Qed.

(** X15.  With the [createTransaction] of [schemas.ts], which builds
    its record without the [refund] that the job passes to it, no
    record made by a run has a [refund] property.  So when the
    records of earlier runs have none either, the reducer of
    [totalAmount] subtracts [0] for every record: a refund shown on
    an order page never lowers the total. *)
Theorem refunds_never_reach_total (config : ConfigData) (site : ListSite) (pool : PoolEnv)
    (this : Scraper) :
  Forall (λ r, refund r = None) (transactions this) →
  (scrapeTransactions config site pool this).2 = true →
  Forall (λ r, refund r = None ∧ opt_num_or (refund r) (Num 0) = Num 0)
    (transactions (scrapeTransactions config site pool this).1)
  ∧ totalAmount (scrapeTransactions config site pool this).1
    = fold_left (λ sum t, num_sub (num_add sum (num_or (total t) (Num 0))) (Num 0))
        (transactions (scrapeTransactions config site pool this).1) (Num 0).
Proof.
  intros Hthis Hok.
  pose proof (scrapeTransactions_no_refund config site pool this Hthis) as Hno.
  split.
  - eapply Forall_impl; [exact Hno|]. intros r Hr. by rewrite Hr.
  - destruct (scrapeTransactions_resolved config site pool this Hok) as [that Hthat].
    rewrite Hthat in *. cbn [update_metadata totalAmount transactions] in *.
    by apply fold_left_no_refund.
Qed.

Lemma refunds_never_reach_total_witness :
  d_refund (extractOrderDetailsWithPage summary_rows 4) = Num (25 # 2)
  ∧ totalAmount (scrapeTransactions amazon two_orders_site refund_pool (fresh_scraper ∅)).1
    = Num 30.
Proof.
  split; [by vm_compute|].
  destruct (refunds_never_reach_total amazon two_orders_site refund_pool (fresh_scraper ∅))
    as [_ Ht].
  - constructor.
  - by vm_compute.
  - rewrite Ht. by vm_compute.
Defined.

(** ** The order page *)

(** [parseFloat] reads digits only: its result is never negative. *)
Lemma parseFloat_not_negative s :
  parseFloat s = NaN ∨ ∃ q, parseFloat s = Num q ∧ (0 <= q)%Q.
Proof.
  unfold parseFloat. pose proof (take_digits_all s) as Hint.
  destruct (take_digits s) as [d r]. cbn [fst] in Hint.
  destruct (_ && _); [by left|]. right. eexists. split; [reflexivity|].
  apply decimal_nonneg; [done|].
  destruct r as [|x r]; [done|].
  destruct (Ascii.ascii_dec x ".") as [->|Hx].
  - apply take_digits_all.
  - destruct x as [[] [] [] [] [] [] [] []]; try done; apply take_digits_all.
Qed.

Lemma num_or_not_negative x :
  x = NaN ∨ (∃ q, x = Num q ∧ (0 <= q)%Q) → ∃ q, num_or x (Num 0) = Num q ∧ (0 <= q)%Q.
Proof.
  intros [-> | (q & -> & Hq)]; cbn [num_or].
  - by exists 0%Q.
  - destruct (Qeq_bool q 0); [by exists 0%Q | by exists q].
Qed.

Lemma extractItemDetailsWithElement_wellformed itemElement :
  item_wellformed (extractItemDetailsWithElement itemElement).
Proof.
  unfold item_wellformed, extractItemDetailsWithElement.
  cbn [createItem price quantity seller productUrl i_price i_quantity i_seller i_productUrl
       opt_num_or opt_str_or].
  split_and!; [| reflexivity | reflexivity | reflexivity].
  apply num_or_not_negative.
  destruct (query (any_of [by_class "price"; by_class "item-price"; by_class "cost"])
              itemElement) as [e|]; [|right; by exists 0%Q].
  destruct (truthy (textContent e)); [|right; by exists 0%Q].
  destruct (group1 Patterns.itemPrice (textContent e)) as [m|]; [|right; by exists 0%Q].
  apply parseFloat_not_negative.
Qed.

(** X16.  Every item that [extractItemDetailsWithElement] builds, and
    so every item of the details of an order, has a price that is a
    number and is not negative: a price text that [parseFloat] cannot
    read ([NaN]) becomes [0] in [createItem].  Its quantity is always
    [1] and its seller and product URL are always empty; none of them
    is read from the page. *)
Theorem items_wellformed (itemElement doc : node) (steps : nat) :
  item_wellformed (extractItemDetailsWithElement itemElement)
  ∧ Forall item_wellformed (d_items (extractOrderDetailsWithPage doc steps)).
Proof.
  split; [apply extractItemDetailsWithElement_wellformed|].
  unfold extractOrderDetailsWithPage.
  destruct (1 <=? steps), (2 <=? steps), (3 <=? steps), (4 <=? steps);
    repeat match goal with
           | |- context [match page_query ?sel ?d with _ => _ end] =>
               destruct (page_query sel d) as [?e|]
           | |- context [if truthy ?x then _ else _] => destruct (truthy x)
           end;
    cbn [d_items defaultOrderDetails];
    first [ by apply Forall_nil
          | apply Forall_fmap, Forall_forall; intros ? _;
            apply extractItemDetailsWithElement_wellformed ].
Qed.

(** *** The two searches of the refund *)

Ltac norm_append :=
  repeat progress (rewrite ?append_cons, ?append_nil_l, ?append_assoc).

Lemma exec_cat {A} r1 r2 s cap (k : string → option string → option A) :
  exec (Cat r1 r2) s cap k = exec r1 s cap (λ s' cap', exec r2 s' cap' k).
Proof. reflexivity. Qed.

Lemma exec_group {A} r s cap (k : string → option string → option A) :
  exec (Group r) s cap k = exec r s cap (λ s' _, k s' (Some (matched s s'))).
Proof. reflexivity. Qed.

Lemma exec_chr_here {A} c s cap (k : string → option string → option A) :
  exec (chr c) (String c s) cap k = k s cap.
Proof. unfold chr. cbn [exec]. by rewrite Ascii.eqb_refl. Qed.

(** An optional part and a repetition cannot fail when what follows
    them cannot. *)
Lemma exec_opt_total {A} r s cap (k : string → option string → option A) :
  is_Some (k s cap) → is_Some (exec (opt r) s cap k).
Proof. intros Hk. unfold opt. cbn [exec]. by destruct (exec r s cap k). Qed.

Lemma exec_star_total {A} r s cap (k : string → option string → option A) :
  is_Some (k s cap) → is_Some (exec (Star r) s cap k).
Proof.
  intros Hk. cbn [exec]. destruct (String.length s) as [|n]; [done|].
  by destruct (exec r s cap _).
Qed.

(** A text is a run of a class followed by a text that does not start
    with the class. *)
Lemma run_split p s :
  ∃ u v, s = u +:+ v ∧ all_chars p u = true ∧ stops p v = true.
Proof.
  induction s as [|c s (u & v & -> & Hu & Hv)].
  - by exists "", "".
  - destruct (p c) eqn:Hc.
    + exists (String c u), v. rewrite append_cons. cbn [all_chars]. by rewrite Hc, Hu.
    + exists "", (String c (u +:+ v)). rewrite append_nil_l. cbn [stops all_chars].
      by rewrite Hc.
Qed.

(** Where the refund pattern matches it sets its group. *)
Lemma refundAmount_captures s0 s cap m :
  exec Patterns.refundAmount s cap
    (λ s' cap', Some {| match0 := matched s0 s'; match1 := cap' |}) = Some m →
  is_Some (match1 m).
Proof.
  unfold Patterns.refundAmount. rewrite exec_cat. intros H.
  apply exec_suffix in H as (s1 & cap1 & _ & H). rewrite exec_group in H.
  apply exec_suffix in H as (s2 & cap2 & _ & H). by injection H as <-.
Qed.

(** The refund pattern matches at a dollar sign followed by a comma or
    a digit. *)
Lemma refundAmount_here s0 c rest cap :
  amount_char c = true →
  is_Some (exec Patterns.refundAmount (String "$" (String c rest)) cap
             (λ s' cap', Some {| match0 := matched s0 s'; match1 := cap' |})).
Proof.
  intros Hc. unfold Patterns.refundAmount. rewrite exec_cat, exec_chr_here, exec_group, exec_cat.
  destruct (run_split amount_char rest) as (u & v & -> & Hu & Hv).
  set (k := λ (s' : string) (cap' : option string),
              exec (Cat (opt (chr ".")) (Star digit)) s' cap'
                (λ (s'0 : string) (_ : option string),
                   Some {| match0 := matched s0 s'0;
                           match1 := Some (matched (String c (u +:+ v)) s'0) |})).
  assert (Hk : is_Some (k v cap)).
  { unfold k. rewrite exec_cat. apply exec_opt_total, exec_star_total. by eexists. }
  destruct Hk as [a Hk].
  exists a. rewrite <- append_cons.
  apply (exec_plus_run amount_char (String c u) v cap k a); [done | | done | done].
  cbn [all_chars]. by rewrite Hc, Hu.
Qed.

Lemma str_match_shows pre c rest :
  amount_char c = true →
  ∃ m, str_match Patterns.refundAmount (pre +:+ String "$" (String c rest)) = Some m
       ∧ is_Some (match1 m).
Proof.
  intros Hc. induction pre as [|x pre IH].
  - rewrite append_nil_l.
    destruct (refundAmount_here (String "$" (String c rest)) c rest None Hc) as [m Hm].
    exists m. split; [by apply str_match_here | by eapply refundAmount_captures].
  - rewrite append_cons. cbn [str_match].
    destruct (exec Patterns.refundAmount _ None _) as [m|] eqn:E; [|exact IH].
    exists m. split; [done | by eapply refundAmount_captures].
Qed.

(** The refund pattern finds an amount in a text exactly when the text
    holds a dollar sign followed by a comma or a digit. *)
Lemma refundAmount_shows s :
  is_Some (group1 Patterns.refundAmount s) ↔ shows_amount s.
Proof.
  split.
  - intros [m Hm]. unfold group1 in Hm.
    destruct (str_match Patterns.refundAmount s) as [ma|] eqn:E; [|done].
    apply str_match_exec in E as (pre & s0 & -> & E).
    apply exec_sound in E as (u & s' & cap' & -> & L & _).
    inversion L as [ | | r1 r2 u1 u2 L1 L2 | | | | | ]; subst.
    apply lang_chr in L1 as ->.
    inversion L2 as [ | | | | | | | r u L3 ]; subst.
    inversion L3 as [ | | r1 r2 u3 u4 L4 L5 | | | | | ]; subst.
    apply lang_plus_chars in L4 as [Hne Hall].
    destruct u3 as [|c u3]; [done|]. cbn [all_chars] in Hall.
    apply andb_true_iff in Hall as [Hc _].
    exists pre, c, (u3 +:+ u4 +:+ s'). split; [|done].
    by norm_append.
  - intros (pre & c & rest & -> & Hc).
    destruct (str_match_shows pre c rest Hc) as (m & Hm & Hcap).
    unfold group1. by rewrite Hm.
Qed.

Lemma shows_amount_space a b :
  shows_amount (a +:+ String " " b) → shows_amount a ∨ shows_amount b.
Proof.
  induction a as [|x a IH]; intros (pre & c & rest & Heq & Hc).
  - rewrite append_nil_l in Heq. destruct pre as [|y pre].
    + rewrite append_nil_l in Heq. discriminate.
    + rewrite append_cons in Heq. injection Heq as _ ->. right. by exists pre, c, rest.
  - rewrite append_cons in Heq. destruct pre as [|y pre].
    + rewrite append_nil_l in Heq. injection Heq as -> Heq.
      destruct a as [|z a].
      * rewrite append_nil_l in Heq. injection Heq as <- _. discriminate.
      * rewrite append_cons in Heq. injection Heq as -> _.
        left. exists "", c, a. by rewrite append_nil_l.
    + rewrite append_cons in Heq. injection Heq as -> Heq.
      destruct IH as [(pre' & c' & rest' & -> & Hc') | Hb].
      * by exists pre, c, rest.
      * left. exists (String y pre'), c', rest'. by rewrite !append_cons.
      * by right.
Qed.

Lemma shows_amount_join l :
  shows_amount (join " " l) → ∃ t, t ∈ l ∧ shows_amount t.
Proof.
  induction l as [|t l IH]; intros H.
  - destruct H as (pre & c & rest & Heq & _). by destruct pre.
  - destruct l as [|t' l].
    + exists t. split; [left | done].
    + change (join " " (t :: t' :: l)) with (t +:+ " " +:+ join " " (t' :: l)) in H.
      rewrite append_cons, append_nil_l in H.
      apply shows_amount_space in H as [H | H].
      * exists t. split; [left | done].
      * destruct (IH H) as (t0 & Ht0 & Hs). exists t0. split; [by right | done].
Qed.

Lemma shows_amount_context a t b :
  shows_amount t → shows_amount (a +:+ t +:+ b).
Proof.
  intros (pre & c & rest & -> & Hc). exists (a +:+ pre), c, (rest +:+ b).
  split; [|done]. by norm_append.
Qed.

(** The text of a node holds the text of each of its children. *)
Lemma textContent_child parent child :
  child ∈ children parent →
  ∃ a b, textContent parent = a +:+ textContent child +:+ b.
Proof.
  destruct parent as [d | tag attrs cs]; cbn [children].
  { intros H. by apply elem_of_nil in H. }
  intros H. apply list_elem_of_filter in H as [_ H]. cbn [textContent].
  induction cs as [|x cs IH]; [by apply elem_of_nil in H|].
  apply elem_of_cons in H as [-> | H].
  - exists "". eexists. by rewrite append_nil_l.
  - destruct (IH H) as (a & b & ->). exists (textContent x +:+ a), b.
    by norm_append.
Qed.

(** X17.  The second search of the refund, in the joined texts of the
    children of the parent, never finds an amount that the first
    search, in the text of the parent, has not found: the text of the
    parent holds the text of every child, and the blanks put between
    the texts cannot make a match.  The refund next to a label is
    decided by the text of the parent alone. *)
Theorem sibling_search_adds_nothing (parent : node) :
  (group1 Patterns.refundAmount (textContent parent) = None →
   group1 Patterns.refundAmount (siblingTexts parent) = None)
  ∧ refund_near (Some parent)
    = amount_of <$> group1 Patterns.refundAmount (textContent parent).
Proof.
  assert (Hdead : group1 Patterns.refundAmount (textContent parent) = None →
                  group1 Patterns.refundAmount (siblingTexts parent) = None).
  { intros Hnone.
    destruct (group1 Patterns.refundAmount (siblingTexts parent)) as [m|] eqn:E; [|done].
    assert (Hs : shows_amount (siblingTexts parent))
      by (apply refundAmount_shows; rewrite E; by eexists).
    apply shows_amount_join in Hs as (t & Ht & Hs).
    apply list_elem_of_fmap in Ht as (child & -> & Hchild).
    rewrite str_or_empty in Hs.
    destruct (textContent_child parent child Hchild) as (a & b & Heq).
    apply (shows_amount_context a _ b) in Hs. rewrite <- Heq in Hs.
    apply refundAmount_shows in Hs as [m' Hm']. congruence. }
  split; [exact Hdead|].
  unfold refund_near. fold (siblingTexts parent).
  destruct (group1 Patterns.refundAmount (textContent parent)) as [m|] eqn:E.
  - by rewrite (refund_pattern_truthy _ _ E).
  - rewrite (Hdead eq_refl). by destruct (truthy (textContent parent)).
Qed.

Lemma sibling_search_adds_nothing_witness :
  group1 Patterns.refundAmount
    (siblingTexts (Element "div" []
                     [Element "span" [] [Text "Refund Total"];
                      Element "span" [] [Text "pending, 12.50 $"]])) = None.
Proof.
  apply (sibling_search_adds_nothing
           (Element "div" []
              [Element "span" [] [Text "Refund Total"];
               Element "span" [] [Text "pending, 12.50 $"]])).
  by vm_compute.
Defined.

(** *** The date of a record *)

(** The capture of a pattern that is one group is a text of the
    pattern, and occurs in the text searched. *)
Lemma group1_top_sound r s m :
  group1 (Group r) s = Some m → lang r m ∧ ∃ a b, s = a +:+ m +:+ b.
Proof.
  unfold group1. destruct (str_match _ s) as [ma|] eqn:E; [|done].
  intros Hm. apply str_match_exec in E as (pre & s0 & -> & E).
  apply exec_sound in E as (u & s' & cap' & -> & L & E & Hcap).
  injection E as <-. cbn [match1] in Hm. rewrite (Hcap r eq_refl) in Hm.
  injection Hm as <-. split; [by inversion L | by exists pre, s'].
Qed.

Lemma first_date_sound patterns text m :
  first_date patterns text = Some m →
  ∃ pattern, pattern ∈ patterns ∧ group1 pattern text = Some m.
Proof.
  induction patterns as [|pattern patterns IH]; [done|]. cbn [first_date].
  destruct (group1 pattern text) as [m'|] eqn:E.
  - intros [= <-]. exists pattern. split; [left | done].
  - intros H. destruct (IH H) as (p & Hp & Hg). exists p. split; [by right | done].
Qed.

Lemma datePatterns_sound pattern text m :
  pattern ∈ Patterns.datePatterns → group1 pattern text = Some m →
  lang pattern m ∧ ∃ a b, text = a +:+ m +:+ b.
Proof.
  intros Hp Hm. unfold Patterns.datePatterns in Hp.
  repeat (apply elem_of_cons in Hp as [-> | Hp];
          [ apply group1_top_sound in Hm as [L Hocc]; split; [by constructor | done] | ]).
  by apply elem_of_nil in Hp.
Qed.

(** X18.  For a reference without a date, as the rows of the list
    give them, the date of the record is read off the order page: it
    is empty, or it is a piece of the text of the [body] of the page
    shown that matches one of the three date patterns (a month name
    with day and year, [d/d/yyyy] or [yyyy-mm-dd]). *)
Theorem job_date_from_page (config : ConfigData) (transaction : BasicTransaction)
    (env : JobEnv) (doc : node) (st : State) :
  b_date transaction = "" →
  let r := (scrapeOrderDetailsWithPage config transaction env doc st).1.1 in
  let shown := (scrapeOrderDetailsWithPage config transaction env doc st).1.2 in
  date r = ""
  ∨ ∃ body pattern a b,
      page_query (by_tag "body") shown = Some body
      ∧ textContent body = a +:+ date r +:+ b
      ∧ pattern ∈ Patterns.datePatterns
      ∧ lang pattern (date r).
Proof.
  intros Hd r shown. subst r shown.
  scrape_cases config transaction env doc st.
  all: try (unfold truthy in Hdate; rewrite Hd in Hdate; discriminate).
  all: cbn [createTransaction basicRecord date p_date opt_str_or]; rewrite ?Hd.
  all: try (by left).
  all: rewrite !str_or_empty.
  all: match goal with
       | |- context [first_date ?ps ?text] => destruct (first_date ps text) as [m|] eqn:E
       end; [|by left].
  all: right; cbn [default from_option id].
  all: apply first_date_sound in E as (pattern & Hp & Hm).
  all: destruct (datePatterns_sound pattern _ m Hp Hm) as (L & a & b & Hocc).
  all: by eexists _, pattern, a, b.
Qed.

Lemma job_date_from_page_witness :
  date (scrapeOrderDetailsWithPage amazon sample_job
          (live_page (Element "html" []
                        [Element "body" [] [Text "Ordered on March 3, 2024 (2024-03-03)"]]))
          blank empty_state).1.1
  = "March 3, 2024".
Proof.
  destruct (job_date_from_page amazon sample_job
              (live_page (Element "html" []
                            [Element "body" [] [Text "Ordered on March 3, 2024 (2024-03-03)"]]))
              blank empty_state eq_refl) as [H | _].
  - by vm_compute in H.
  - by vm_compute.
Defined.

(** ** The command line *)

Example parseInt_samples :
  parseInt "30" = Num 30 ∧ parseInt " -7 days" = Num (-7) ∧ parseInt "+12.5" = Num 12
  ∧ parseInt "thirty" = NaN ∧ parseInt "" = NaN ∧ parseInt "--help" = NaN.
Proof. by vm_compute. Qed.

Lemma parseArgs_loop_word w rest args :
  w ∉ flags → parseArgs_loop (w :: rest) args = parseArgs_loop rest args.
Proof.
  intros Hw. cbn [parseArgs_loop].
  repeat match goal with
         | |- context [String.eqb w ?f] =>
             destruct (String.eqb_spec w f) as [->|_];
             [ destruct Hw; unfold flags; set_solver | ]
         end.
  reflexivity.
Qed.

Lemma parseArgs_loop_options opts tail args :
  Forall option_ok opts →
  parseArgs_loop (concat (map option_words opts) ++ tail) args
  = parseArgs_loop tail (fold_left set_option opts args).
Proof.
  intros Hok. revert args. induction Hok as [|o opts Ho _ IH]; intros args; [done|].
  cbn [map concat fold_left]. rewrite <- app_assoc, <- IH.
  destruct o as [[] v | [] v | [] v | [] v | [] | w]; try reflexivity.
  cbn [option_words app]. by apply parseArgs_loop_word.
Qed.

(** X19.  On a command line made of options, each in its short or its
    long form and followed by its value, and of words that are no
    option, [parseArgs] sets the property of each option to the word
    that follows it, whatever that word is (a value that looks like
    an option is not read as one), skips the other words, and lets a
    later option override an earlier one.  An [-e] as the last word
    has no value: it removes an email given before. *)
Theorem parseArgs_options (node script : string) (opts : list CliOption) :
  Forall option_ok opts →
  parseArgs (node :: script :: concat (map option_words opts))
  = fold_left set_option opts no_args
  ∧ parseArgs (node :: script :: concat (map option_words opts) ++ ["-e"])
    = set_email None (fold_left set_option opts no_args).
Proof.
  intros Hok. unfold parseArgs. cbn [drop]. rewrite !drop_0. split.
  - pose proof (parseArgs_loop_options opts [] no_args Hok) as H.
    by rewrite app_nil_r in H.
  - by rewrite parseArgs_loop_options.
Qed.

Lemma parseArgs_options_witness :
  parseArgs ["node"; "index.js"; "-e"; "--help"; "extra"; "--days"; "30"; "-d"; "x"; "-e"]
  = {| email := None; days := Some NaN; outputName := None; generateOnly := None;
       help := false |}.
Proof.
  destruct (parseArgs_options "node" "index.js"
              [OptEmail false "--help"; OtherWord "extra"; OptDays true "30"; OptDays false "x"])
    as [_ H].
  - repeat constructor. unfold flags. by apply (bool_decide_unpack _).
  - exact H.
Defined.

(** ** The report *)

Example basename_samples :
  basename "a/b/" = "b" ∧ basename "/" = "" ∧ basename "abc" = "abc"
  ∧ basename "a//b.png" = "b.png".
Proof. by vm_compute. Qed.

Example getRelativePath_samples :
  getRelativePath "./output/screenshots/order-1.png" = "screenshots/order-1.png"
  ∧ getRelativePath "/home/me/screenshots/old/screenshots/order-1.png"
    = "screenshots/order-1.png"
  ∧ getRelativePath "order-1.png" = "screenshots/order-1.png"
  ∧ getRelativePath "shots/order-1.png" = "shots/order-1.png".
Proof. by vm_compute. Qed.

Ltac norm_append_in H :=
  repeat progress (rewrite ?append_cons, ?append_nil_l, ?append_assoc in H).

Lemma includes_append sub a b : includes sub (a +:+ sub +:+ b) = true.
Proof.
  unfold includes. induction a as [|c a IH]; norm_append.
  - destruct (sub +:+ b) as [|x s] eqn:E.
    + destruct sub; [done | by norm_append_in E].
    + cbn [String.index]. rewrite <- E.
      pose proof (startsWith_append sub b) as Hp. unfold startsWith in Hp. by rewrite Hp.
  - cbn [String.index]. destruct (String.prefix sub _); [done|].
    by destruct (String.index 0 sub (a +:+ sub +:+ b)).
Qed.

Lemma strip_slashes_keeps s :
  all_chars not_slash s = true → strip_slashes s = s.
Proof.
  induction s as [|c s IH]; [done|]. cbn [all_chars strip_slashes].
  intros H. apply andb_true_iff in H as [Hc Hs]. rewrite (IH Hs).
  destruct s; [|done]. unfold not_slash in Hc. apply negb_true_iff in Hc. by rewrite Hc.
Qed.

Lemma strip_slashes_append x s :
  s ≠ "" → all_chars not_slash s = true → strip_slashes (x +:+ s) = x +:+ s.
Proof.
  intros Hne Hs. induction x as [|c x IH]; norm_append.
  - by apply strip_slashes_keeps.
  - cbn [strip_slashes]. rewrite IH. destruct (x +:+ s) eqn:E; [|done].
    destruct x; norm_append_in E; [done | discriminate].
Qed.

Lemma last_segment_append x file :
  all_chars not_slash file = true → last_segment (x +:+ String "/" file) = file.
Proof.
  intros Hf. induction x as [|c x IH]; norm_append.
  - cbn [last_segment]. by rewrite Hf.
  - cbn [last_segment]. rewrite all_chars_append. cbn [all_chars].
    replace (not_slash "/") with false by done. by rewrite andb_false_r.
Qed.

Lemma basename_append x file :
  file ≠ "" → all_chars not_slash file = true → basename (x +:+ String "/" file) = file.
Proof.
  intros Hne Hf. unfold basename.
  replace (x +:+ String "/" file) with ((x +:+ "/") +:+ file) by by norm_append.
  rewrite strip_slashes_append by done. norm_append. by apply last_segment_append.
Qed.

(** *** Repetition of a pattern *)

Lemma exec_star_fuel {A} r s cap (k : string → option string → option A) :
  exec (Star r) s cap k = star_fuel r k (String.length s) s cap.
Proof. reflexivity. Qed.

Lemma exec_alt {A} r1 r2 s cap (k : string → option string → option A) :
  exec (Alt r1 r2) s cap k
  = match exec r1 s cap k with
    | Some a => Some a
    | None => exec r2 s cap k
    end.
Proof. reflexivity. Qed.

(** The match depends on the results of the continuation only. *)
Lemma exec_ext {A} (r : regex) :
  ∀ s cap (k1 k2 : string → option string → option A),
    (∀ s' cap', k1 s' cap' = k2 s' cap') → exec r s cap k1 = exec r s cap k2.
Proof.
  induction r as [ | p | r1 IH1 r2 IH2 | r1 IH1 r2 IH2 | r IH | r IH ];
    intros s cap k1 k2 H.
  - apply H.
  - cbn [exec]. destruct s as [|c s]; [done|]. destruct (p c); [apply H | done].
  - rewrite !exec_cat. apply IH1. intros s' cap'. by apply IH2.
  - rewrite !exec_alt. by rewrite (IH1 s cap k1 k2 H), (IH2 s cap k1 k2 H).
  - rewrite !exec_star_fuel. generalize (String.length s). intros n. revert s cap.
    induction n as [|n IHn]; intros s cap; cbn [star_fuel]; [apply H|].
    rewrite H.
    rewrite (IH s cap _ (λ s' cap', if String.length s' <? String.length s
                                    then star_fuel r k2 n s' cap' else None)); [done|].
    intros s' cap'. destruct (String.length s' <? String.length s); [apply IHn | done].
  - rewrite !exec_group. apply IH. intros s' cap'. apply H.
Qed.

Lemma star_fuel_suffix {A} r (k : string → option string → option A) n :
  ∀ s cap a, star_fuel r k n s cap = Some a →
             ∃ s' cap', is_suffix s' s ∧ k s' cap' = Some a.
Proof.
  induction n as [|n IHn]; intros s cap a; cbn [star_fuel].
  - intros H. exists s, cap. split; [apply is_suffix_refl | done].
  - destruct (exec r s cap _) as [a'|] eqn:E.
    + intros [= <-]. apply exec_suffix in E as (s1 & cap1 & Hs1 & E).
      destruct (String.length s1 <? String.length s); [|done].
      apply IHn in E as (s2 & cap2 & Hs2 & E).
      exists s2, cap2. split; [by eapply is_suffix_trans | done].
    + intros H. exists s, cap. split; [apply is_suffix_refl | done].
Qed.

(** More rounds than the text has bytes change nothing. *)
Lemma star_fuel_enough {A} r (k : string → option string → option A) n :
  ∀ m s cap, String.length s ≤ n → String.length s ≤ m →
             star_fuel r k n s cap = star_fuel r k m s cap.
Proof.
  induction n as [|n IHn]; intros m s cap Hn Hm.
  - destruct s; [|cbn in Hn; lia]. destruct m as [|m]; [done|]. cbn [star_fuel].
    rewrite exec_none; [done|]. intros s' cap' _. by destruct s'.
  - destruct m as [|m].
    + destruct s; [|cbn in Hm; lia]. cbn [star_fuel].
      rewrite exec_none; [done|]. intros s' cap' _. by destruct s'.
    + cbn [star_fuel].
      rewrite (exec_ext r s cap _ (λ s' cap', if String.length s' <? String.length s
                                              then star_fuel r k m s' cap' else None));
        [done|].
      intros s' cap'. destruct (String.length s' <? String.length s) eqn:E; [|done].
      apply Nat.ltb_lt in E. apply IHn; lia.
Qed.

(** Where the continuation succeeds at once and at no later place, a
    repetition stays. *)
Lemma exec_star_stay {A} r v cap (k : string → option string → option A) a :
  k v cap = Some a →
  (∀ w w' cap', v = w +:+ w' → w ≠ "" → k w' cap' = None) →
  exec (Star r) v cap k = Some a.
Proof.
  intros Hk Hlater. rewrite exec_star_fuel. destruct (String.length v) as [|n]; [done|].
  cbn [star_fuel]. destruct (exec r v cap _) as [a'|] eqn:E; [|done]. exfalso.
  apply exec_suffix in E as (s1 & cap1 & Hs1 & E).
  destruct (String.length s1 <? String.length v) eqn:El; [|done].
  apply Nat.ltb_lt in El.
  apply star_fuel_suffix in E as (s2 & cap2 & [w2 ->] & E).
  destruct Hs1 as [w1 ->].
  rewrite (Hlater (w1 +:+ w2) s2 cap2) in E; [done | by rewrite append_assoc |].
  intros Hw. destruct w1; [|done]. rewrite append_nil_l in Hw, El. subst w2.
  rewrite append_nil_l in El. lia.
Qed.

(** *** One character *)

Lemma exec_chars_true {A} p c s cap (k : string → option string → option A) :
  p c = true → exec (Chars p) (String c s) cap k = k s cap.
Proof. intros H. cbn [exec]. by rewrite H. Qed.

Lemma exec_chars_false {A} p c s cap (k : string → option string → option A) :
  p c = false → exec (Chars p) (String c s) cap k = None.
Proof. intros H. cbn [exec]. by rewrite H. Qed.

Lemma lang_chars_inv p u : lang (Chars p) u → ∃ c, u = String c "" ∧ p c = true.
Proof. intros H. inversion H; subst. by eexists. Qed.

Lemma lang_cat_inv r1 r2 u :
  lang (Cat r1 r2) u → ∃ u1 u2, u = u1 +:+ u2 ∧ lang r1 u1 ∧ lang r2 u2.
Proof. intros H. inversion H; subst. by eexists _, _. Qed.

Lemma lang_alt_inv r1 r2 u : lang (Alt r1 r2) u → lang r1 u ∨ lang r2 u.
Proof. intros H. inversion H; subst; [by left | by right]. Qed.

(** The first byte of a character tells how [dot] reads it. *)
Ltac first_byte c H :=
  revert H; destruct c as [[] [] [] [] [] [] [] []]; vm_compute; intros H;
  try discriminate H; repeat split.

Lemma plain_byte_first c :
  plain_byte c = true →
  byte_in 192 223 c = false ∧ lead3 c = false ∧ Ascii.eqb "226" c = false
  ∧ byte_in 240 247 c = false.
Proof. intros H. first_byte c H. Qed.

Lemma lead2_first c :
  byte_in 192 223 c = true →
  plain_byte c = false ∧ lead3 c = false ∧ Ascii.eqb "226" c = false
  ∧ byte_in 240 247 c = false.
Proof. intros H. first_byte c H. Qed.

Lemma lead3_first c :
  lead3 c = true →
  plain_byte c = false ∧ byte_in 192 223 c = false ∧ Ascii.eqb "226" c = false
  ∧ byte_in 240 247 c = false.
Proof. intros H. first_byte c H. Qed.

Lemma lead4_first c :
  byte_in 240 247 c = true →
  plain_byte c = false ∧ byte_in 192 223 c = false ∧ lead3 c = false
  ∧ Ascii.eqb "226" c = false.
Proof. intros H. first_byte c H. Qed.

Lemma second_byte_other c :
  byte_in 129 191 c = true → Ascii.eqb "128" c = false.
Proof. intros H. first_byte c H. Qed.

Ltac exec_steps :=
  repeat first
    [ rewrite exec_alt
    | rewrite exec_cat
    | rewrite exec_chr_here
    | rewrite exec_chars_true by done
    | rewrite exec_chars_false by done ].

(** [dot] reads one character and goes on: its alternatives exclude
    each other. *)
Lemma exec_dot {A} u rest cap (k : string → option string → option A) :
  lang dot u → exec dot (u +:+ rest) cap k = k rest cap.
Proof.
  unfold dot, continuation. intros H.
  repeat (apply lang_alt_inv in H as [H | H]).
  - apply lang_chars_inv in H as (c & -> & Hc).
    destruct (plain_byte_first c Hc) as (H2 & H3 & H4 & H5).
    norm_append. unfold chr. exec_steps. by destruct (k rest cap).
  - apply lang_cat_inv in H as (u1 & u2 & -> & H1 & H2).
    apply lang_chars_inv in H1 as (c1 & -> & Hc1).
    apply lang_chars_inv in H2 as (c2 & -> & Hc2).
    destruct (lead2_first c1 Hc1) as (G1 & G3 & G4 & G5).
    norm_append. unfold chr. exec_steps. by destruct (k rest cap).
  - apply lang_cat_inv in H as (u1 & u2 & -> & H1 & H2).
    apply lang_cat_inv in H2 as (u3 & u4 & -> & H2 & H3).
    apply lang_chars_inv in H1 as (c1 & -> & Hc1).
    apply lang_chars_inv in H2 as (c2 & -> & Hc2).
    apply lang_chars_inv in H3 as (c3 & -> & Hc3).
    destruct (lead3_first c1 Hc1) as (G1 & G2 & G4 & G5).
    norm_append. unfold chr. exec_steps. by destruct (k rest cap).
  - apply lang_cat_inv in H as (u1 & u2 & -> & H1 & H2).
    apply lang_cat_inv in H2 as (u3 & u4 & -> & H2 & H3).
    apply lang_chr in H1 as ->.
    apply lang_chars_inv in H2 as (c2 & -> & Hc2).
    apply lang_chars_inv in H3 as (c3 & -> & Hc3).
    pose proof (second_byte_other c2 Hc2) as G2.
    assert (G1 : plain_byte "226" = false) by done.
    assert (G3 : byte_in 192 223 "226" = false) by done.
    assert (G4 : lead3 "226" = false) by done.
    assert (G5 : byte_in 240 247 "226" = false) by done.
    norm_append. unfold chr. rewrite !exec_alt.
    rewrite (exec_chars_false plain_byte) by done.
    rewrite exec_cat, (exec_chars_false (byte_in 192 223)) by done.
    rewrite exec_cat, (exec_chars_false lead3) by done.
    rewrite exec_cat, (exec_chars_true (Ascii.eqb "226")) by done.
    rewrite exec_cat, (exec_chars_true (byte_in 129 191)) by done.
    rewrite (exec_chars_true (byte_in 128 191)) by done.
    destruct (k rest cap); [done|].
    rewrite exec_cat, (exec_chars_true (Ascii.eqb "226")) by done.
    rewrite exec_cat, (exec_chars_false (Ascii.eqb "128")) by done.
    by rewrite exec_cat, (exec_chars_false (byte_in 240 247)) by done.
  - apply lang_cat_inv in H as (u1 & u2 & -> & H1 & H2).
    apply lang_cat_inv in H2 as (u3 & u4 & -> & H2 & H3).
    apply lang_chr in H1 as ->. apply lang_chr in H2 as ->.
    apply lang_chars_inv in H3 as (c3 & -> & Hc3).
    norm_append. unfold chr. rewrite !exec_alt.
    rewrite (exec_chars_false plain_byte) by done.
    rewrite exec_cat, (exec_chars_false (byte_in 192 223)) by done.
    rewrite exec_cat, (exec_chars_false lead3) by done.
    rewrite exec_cat, (exec_chars_true (Ascii.eqb "226")) by done.
    rewrite exec_cat, (exec_chars_false (byte_in 129 191)) by done.
    rewrite exec_cat, (exec_chars_true (Ascii.eqb "226")) by done.
    rewrite exec_cat, (exec_chars_true (Ascii.eqb "128")) by done.
    rewrite exec_chars_true by done.
    destruct (k rest cap); [done|].
    by rewrite exec_cat, (exec_chars_false (byte_in 240 247)) by done.
  - apply lang_cat_inv in H as (u1 & u2 & -> & H1 & H2).
    apply lang_cat_inv in H2 as (u3 & u4 & -> & H2 & H3).
    apply lang_cat_inv in H3 as (u5 & u6 & -> & H3 & H4).
    apply lang_chars_inv in H1 as (c1 & -> & Hc1).
    apply lang_chars_inv in H2 as (c2 & -> & Hc2).
    apply lang_chars_inv in H3 as (c3 & -> & Hc3).
    apply lang_chars_inv in H4 as (c4 & -> & Hc4).
    destruct (lead4_first c1 Hc1) as (G1 & G2 & G3 & G4).
    norm_append. unfold chr. exec_steps. by destruct (k rest cap).
Qed.

Lemma lang_dot_nonempty u : lang dot u → u ≠ "".
Proof.
  unfold dot, continuation. intros H.
  repeat (apply lang_alt_inv in H as [H | H]);
    repeat (apply lang_cat_inv in H as (? & ? & -> & H & ?));
    apply lang_chars_inv in H as (c & -> & _); by norm_append.
Qed.

(** A repetition of [dot] over a text [d] of characters that are no
    line ends goes on after [d] when the continuation succeeds there
    and at no later place. *)
Lemma exec_star_dot {A} d v cap (k : string → option string → option A) a :
  lang (Star dot) d → k v cap = Some a →
  (∀ w w' cap', v = w +:+ w' → w ≠ "" → k w' cap' = None) →
  exec (Star dot) (d +:+ v) cap k = Some a.
Proof.
  intros Hd Hk Hlater. remember (Star dot) as r eqn:Hr.
  induction Hd as [ | | | | | | r0 u d Hu _ Hd IH | ]; try discriminate.
  - rewrite append_nil_l. by apply exec_star_stay.
  - injection Hr as ->. specialize (IH eq_refl). rewrite append_assoc.
    pose proof (lang_dot_nonempty u Hu) as Hne.
    rewrite exec_star_fuel. rewrite length_append.
    destruct (String.length u) as [|n] eqn:El; [by destruct u|].
    cbn [Nat.add star_fuel]. rewrite (exec_dot u _ _ _ Hu).
    rewrite (proj2 (Nat.ltb_lt _ _)) by (rewrite (length_append u), El; lia).
    rewrite (star_fuel_enough dot k _ (String.length (d +:+ v))) by lia.
    rewrite <- exec_star_fuel. by rewrite IH.
Qed.

Lemma exec_lit_here {A} l s cap (k : string → option string → option A) :
  exec (lit l) (l +:+ s) cap k = k s cap.
Proof.
  induction l as [|c l IH]; norm_append; [done|].
  cbn [lit]. by rewrite exec_cat, exec_chr_here.
Qed.

Lemma lang_lit l u : lang (lit l) u → u = l.
Proof.
  revert u. induction l as [|c l IH]; intros u H; cbn [lit] in H.
  - by inversion H.
  - inversion H as [ | | r1 r2 u1 u2 H1 H2 | | | | | ]; subst.
    apply lang_chr in H1 as ->. by rewrite (IH _ H2).
Qed.

Lemma exec_lit_inv {A} l s cap (k : string → option string → option A) a :
  exec (lit l) s cap k = Some a → ∃ rest, s = l +:+ rest.
Proof.
  intros H. apply exec_sound in H as (u & s' & _ & -> & L & _).
  apply lang_lit in L as ->. by exists s'.
Qed.

(** In the path of a file whose name has no slash, the text
    "screenshots/" of the directory occurs nowhere later. *)
Lemma screenshots_last file w rest :
  all_chars not_slash file = true →
  "screenshots/" +:+ file = w +:+ "screenshots/" +:+ rest → w = "".
Proof.
  intros Hf Heq. destruct w as [|c w]; [done|]. exfalso.
  norm_append_in Heq. injection Heq as _ Heq.
  do 11 (destruct w as [|? w];
         [ norm_append_in Heq; discriminate
         | norm_append_in Heq; injection Heq as _ Heq ]).
  rewrite Heq, all_chars_append in Hf. apply andb_true_iff in Hf as [_ Hf].
  norm_append_in Hf. by cbn in Hf.
Qed.

Lemma replace_regex_here r rep s rest :
  exec r s None (λ s' _, Some s') = Some rest → replace_regex r rep s = rep +:+ rest.
Proof. intros H. destruct s; cbn [replace_regex]; by rewrite H. Qed.

Lemma upToScreenshots_last d file :
  lang (Star dot) d → all_chars not_slash file = true →
  exec upToScreenshots (d +:+ "screenshots/" +:+ file) None (λ s' _, Some s') = Some file.
Proof.
  intros Hd Hf. unfold upToScreenshots. rewrite exec_cat.
  apply exec_star_dot; [done | by rewrite exec_lit_here |].
  intros w w' cap' Hv Hw.
  destruct (exec (lit "screenshots/") w' cap' _) as [a|] eqn:E; [|done].
  apply exec_lit_inv in E as [rest ->].
  by apply screenshots_last in Hv.
Qed.

Example path_join_samples :
  path_join "./screenshots" "order-1.png" = "screenshots/order-1.png"
  ∧ path_join "/data//shots/" "order-1.png" = "/data/shots/order-1.png"
  ∧ path_join "out/../screenshots" "order-1.png" = "screenshots/order-1.png"
  ∧ path_join "" "order-1.png" = "order-1.png"
  ∧ path_join "../shots" "order-1.png" = "../shots/order-1.png".
Proof. by vm_compute. Qed.

(** X20.  The report names the screenshot of an order by the file
    name alone.  When the path that the job writes is
    [<d>screenshots/order-<id>.png], where [<d>] is made of
    characters that are no line ends and the id has no slash,
    [getRelativePath] turns it into [screenshots/order-<id>.png], on
    either of its first two branches.  With the directory
    [./screenshots] of the README the path is of that form. *)
Theorem report_names_screenshot (config : ConfigData) (transaction : BasicTransaction)
    (d : string) :
  screenshotPath_of config transaction
  = d +:+ "screenshots/order-" +:+ b_orderId transaction +:+ ".png" →
  lang (Star dot) d →
  all_chars not_slash (b_orderId transaction) = true →
  getRelativePath (screenshotPath_of config transaction)
  = "screenshots/order-" +:+ b_orderId transaction +:+ ".png".
Proof.
  intros Hpath Hd Hid. rewrite Hpath.
  assert (Hf : all_chars not_slash ("order-" +:+ b_orderId transaction +:+ ".png") = true).
  { rewrite !all_chars_append, Hid. reflexivity. }
  assert (Hne : "order-" +:+ b_orderId transaction +:+ ".png" ≠ "") by (by norm_append).
  set (file := "order-" +:+ b_orderId transaction +:+ ".png") in *.
  replace (d +:+ "screenshots/order-" +:+ b_orderId transaction +:+ ".png")
    with (d +:+ "screenshots/" +:+ file) by (subst file; by norm_append).
  unfold getRelativePath.
  destruct (includes "output/screenshots/" _).
  - replace (d +:+ "screenshots/" +:+ file)
      with ((d +:+ "screenshots") +:+ String "/" file) by (by norm_append).
    rewrite basename_append by done. subst file. by norm_append.
  - rewrite includes_append.
    rewrite (replace_regex_here _ _ _ file) by (by apply upToScreenshots_last).
    subst file. by norm_append.
Qed.

Lemma report_names_screenshot_witness :
  screenshotPath_of readme_config sample_job = "screenshots/order-113-1234567-1234567.png"
  ∧ getRelativePath (screenshotPath_of readme_config sample_job)
    = "screenshots/order-113-1234567-1234567.png".
Proof.
  split; [by vm_compute|].
  apply (report_names_screenshot readme_config sample_job "").
  - by vm_compute.
  - constructor.
  - reflexivity.
Defined.

(** A line end of three bytes in the directory stops the pattern, as
    it does in the code. *)
Example getRelativePath_line_separator :
  getRelativePath ("a" +:+ String "226" (String "128" (String "168" "b/screenshots/order-1.png")))
  = "a" +:+ String "226" (String "128" (String "168" "screenshots/order-1.png")).
Proof. by vm_compute. Qed.

(** ** A whole run *)

(** X21.  A run of [scrapeTransactions] on a list that the pager
    returns, with browsers that start, pages that open and delays
    that resolve, resolves; it keeps the records of earlier runs and
    appends one record per reference that the dedup filter keeps, in
    the order of the list, each with the id and the total of its
    reference; [totalTransactions] grows by the number of those
    references. *)
Theorem run_adds_one_record_per_new_order (config : ConfigData) (site : ListSite)
    (pool : PoolEnv) (this : Scraper) (found : list BasicTransaction) :
  outcome (scrapeTransactionList config site) = Returned found →
  launch_ok pool = true →
  (∀ i, newPage_ok pool i = true) →
  (∀ i j, delay_ok (job_env pool i j) = true) →
  (scrapeTransactions config site pool this).2 = true
  ∧ (∃ added,
       transactions (scrapeTransactions config site pool this).1 = transactions this ++ added
       ∧ Forall2 describes added (newTransactions (processedOrders (shared this)) found))
  ∧ map orderId (transactions (scrapeTransactions config site pool this).1)
    = map orderId (transactions this)
      ++ map b_orderId (newTransactions (processedOrders (shared this)) found)
  ∧ totalTransactions (scrapeTransactions config site pool this).1
    = length (transactions this)
      + length (newTransactions (processedOrders (shared this)) found).
Proof.
  intros Hfound Hl Hp Hd.
  assert (∃ that added,
            scrapeTransactions config site pool this = (update_metadata that, true)
            ∧ transactions that = transactions this ++ added
            ∧ Forall2 describes added (newTransactions (processedOrders (shared this)) found))
    as (that & added & Hrun & Ht & HF).
  { unfold scrapeTransactions. rewrite Hfound.
    destruct (length _ =? 0) eqn:Elen.
    - apply Nat.eqb_eq, nil_length_inv in Elen. exists this, []. rewrite Elen.
      split_and!; [done | by rewrite app_nil_r | constructor].
    - destruct (parallel_describes config pool
                  (newTransactions (processedOrders (shared this)) found) this Hl)
        as (that & added & Hpar & Ht & HF); [by intros j chunk _ _ | done |].
      rewrite Hpar. by exists that, added. }
  rewrite Hrun. cbn [fst snd update_metadata transactions totalTransactions]. rewrite Ht.
  split_and!; [done | by exists added | |].
  - by rewrite map_app, (describes_ids _ _ HF).
  - rewrite length_app. f_equal. by rewrite <- (Forall2_length _ _ _ HF).
Qed.

Lemma run_adds_one_record_per_new_order_witness :
  map orderId
    (transactions
       (scrapeTransactions amazon two_orders_site ready_pool
          (fresh_scraper {[ "111-1111111-1111111" ]})).1)
  = ["222-2222222-2222222"].
Proof.
  destruct (run_adds_one_record_per_new_order amazon two_orders_site ready_pool
              (fresh_scraper {[ "111-1111111-1111111" ]})
              [ref "111-1111111-1111111" 10; ref "222-2222222-2222222" 20])
    as (_ & _ & H & _).
  - by vm_compute.
  - reflexivity.
  - intros i. reflexivity.
  - intros i j. reflexivity.
  - rewrite H. by vm_compute.
Defined.

(** ** Partial results of the extraction *)



